(** * atlas: generators, strategies and hooks

    A shallow embedding of [atlas/generators.py],
    [atlas/strategies/randomized.py] and
    [atlas/models/graphs/tensorflow/network.py].

    Python objects are identified by their address (a [nat]); the mutable
    [Generator] objects live in a store indexed by address, the group
    registry of [atlas.utils.genutils] is a finite map from group names to
    member lists, and every call that the code makes on a hook or on a
    strategy is recorded, in order, in the list of events a computation
    emits.  A Python exception leaves the mutations made before it in
    place, so a computation returns its result (a value or the exception)
    together with the store it leaves behind. *)

From stdpp Require Import base decidable option list gmap strings.
From Stdlib Require Import Lia.


Open Scope string_scope.
Open Scope list_scope.

(** ** Exceptions and results *)

(** The exceptions the modelled code raises or handles.  [Exception] is the
    bare [Exception(msg)] of [make_strategy]; [StopIterationExc] is
    Python's [StopIteration] raised as an exception by a function body (the
    end of an iteration is the outcome [StopIteration] of a [next], see
    below); [UserError] stands for any other exception raised by user
    code. *)
Inductive exn : Type :=
| ExceptionAsContinue
| ValueError (msg : string)
| KeyError (key : string)
| IndexError (msg : string)
| TypeError (msg : string)
| Exception (msg : string)
| StopIterationExc
| RuntimeError (msg : string)
| UserError (code : nat).

Inductive result (A : Type) : Type :=
| Ok (a : A)
| Raise (e : exn).
Arguments Ok {A} a.
Arguments Raise {A} e.

Definition is_continue (e : exn) : bool :=
  match e with ExceptionAsContinue => true | _ => false end.

(** An exception on its way out of the frame of a generator function: a
    [StopIteration] that would leave the frame is replaced by a
    [RuntimeError] (PEP 479), every other exception leaves as it is. *)
Definition out_of_generator (e : exn) : exn :=
  match e with
  | StopIterationExc => RuntimeError "generator raised StopIteration"
  | _ => e
  end.

(** ** A state, output and exception monad

    [M Sigma E A]: a computation over a mutable state [Sigma] that emits
    events of type [E] and either returns an [A] or raises.  The state and
    the events emitted so far survive an exception. *)
Definition M (Sigma E A : Type) : Type := Sigma -> result A * Sigma * list E.

Definition ret {Sigma E A} (a : A) : M Sigma E A := fun s => (Ok a, s, []).

Definition bind {Sigma E A B} (m : M Sigma E A) (f : A -> M Sigma E B) : M Sigma E B :=
  fun s =>
    match m s with
    | (Ok a, s1, l1) =>
        match f a s1 with
        | (r, s2, l2) => (r, s2, l1 ++ l2)
        end
    | (Raise e, s1, l1) => (Raise e, s1, l1)
    end.

Definition raise {Sigma E A} (e : exn) : M Sigma E A := fun s => (Raise e, s, []).
Definition emit {Sigma E} (ev : E) : M Sigma E unit := fun s => (Ok tt, s, [ev]).
Definition gets {Sigma E A} (f : Sigma -> A) : M Sigma E A := fun s => (Ok (f s), s, []).
Definition modify {Sigma E} (f : Sigma -> Sigma) : M Sigma E unit := fun s => (Ok tt, f s, []).

Declare Scope monad_scope.
Delimit Scope monad_scope with monad.
Notation "x <- m ;; k" := (bind m (fun x => k))
  (at level 90, m at next level, right associativity) : monad_scope.
Notation "m ;;; k" := (bind m (fun _ => k))
  (at level 90, right associativity) : monad_scope.
Open Scope monad_scope.

(** A Python [for x in xs: body(x)]: the loop stops at the first exception. *)
Fixpoint for_each {Sigma E A} (xs : list A) (body : A -> M Sigma E unit) : M Sigma E unit :=
  match xs with
  | [] => ret tt
  | x :: rest => body x ;;; for_each rest body
  end.

(** [try: m  except ExceptionAsContinue: pass], giving [None] when the
    exception was swallowed. *)
Definition except_continue {Sigma E A} (m : M Sigma E A) : M Sigma E (option A) :=
  fun s =>
    match m s with
    | (Ok a, s1, l1) => (Ok (Some a), s1, l1)
    | (Raise e, s1, l1) =>
        if is_continue e then (Ok None, s1, l1) else (Raise e, s1, l1)
    end.

(** ** Objects *)

Definition Hook := nat.
Definition GenRef := nat.
Definition Func := nat.

Section Objects.

Context {Val : Type}.
(** The exploration state kept by the strategy objects. *)
Context {St : Type}.

(** The methods of a strategy object: the lifecycle calls made by
    [generate] and the exhaustion test. *)
Record Methods : Type := mkMethods {
  m_init : St -> St;
  m_init_run : St -> St;
  m_finish_run : St -> St;
  m_finish : St -> St;
  m_is_finished : St -> bool;
}.

Record Strategy : Type := mkStrategy {
  s_addr : nat;
  s_methods : Methods;
}.

(** The keyword arguments of a call, [**kwargs]: a dict, in insertion
    order. *)
Definition Kwargs : Type := list (string * Val).

(** What the hooks observe around one operator call, made with the
    positional arguments [args] and the keyword arguments [kwargs];
    [OpEffect] stands for whatever else an operator or a function body
    makes observable. *)
Inductive op_event : Type :=
| BeforeOp (h : Hook) (args : list Val) (kwargs : Kwargs) (gen : GenRef)
    (op_name sid : string)
| AfterOp (h : Hook) (args : list Val) (kwargs : Kwargs) (gen : GenRef)
    (op_name sid : string) (retval : Val)
| OpEffect (tag : nat).

(** The calls [generate] makes on the hooks and on the strategy. *)
Inductive event : Type :=
| HookInit (h : Hook) (args : Val)
| HookInitRun (h : Hook) (args : Val)
| HookFinishRun (h : Hook)
| HookFinish (h : Hook)
| StrategyInit (addr : nat)
| StrategyInitRun (addr : nat)
| StrategyFinishRun (addr : nat)
| StrategyFinish (addr : nat)
| OpEvent (o : op_event).

(** Operators and compiled functions run against the strategy state and
    emit [op_event]s. *)
Definition OpM (A : Type) : Type := M St op_event A.
Definition Callable : Type := Val -> OpM Val.

(** An operator, called with positional and keyword arguments. *)
Definition Operator : Type := list Val -> Kwargs -> OpM Val.

(** The callable returned by [compile_func]: a closure over the generator,
    its function, the strategy and the hook list it was compiled against.
    (The closure holds [self.hooks] itself, not a copy; every mutation of
    that list also drops the closure, see [register_hooks].) *)
Record Compiled : Type := mkCompiled {
  cf_gen : GenRef;
  cf_func : Func;
  cf_strategy : Strategy;
  cf_hooks : list Hook;
}.

(** The attributes of a [Generator] object ([name] and [metadata] play no
    role in the modelled methods). *)
Record Generator : Type := mkGenerator {
  func : Func;
  strategy : Strategy;
  _compiled_func : option Compiled;
  group : option string;
  hooks : list Hook;
}.

Definition with_strategy (s : Strategy) (g : Generator) : Generator :=
  {| func := func g; strategy := s; _compiled_func := _compiled_func g;
     group := group g; hooks := hooks g |}.
Definition with_compiled_func (c : option Compiled) (g : Generator) : Generator :=
  {| func := func g; strategy := strategy g; _compiled_func := c;
     group := group g; hooks := hooks g |}.
Definition with_group (n : option string) (g : Generator) : Generator :=
  {| func := func g; strategy := strategy g; _compiled_func := _compiled_func g;
     group := n; hooks := hooks g |}.
Definition with_hooks (hs : list Hook) (g : Generator) : Generator :=
  {| func := func g; strategy := strategy g; _compiled_func := _compiled_func g;
     group := group g; hooks := hs |}.

(** The store: the generator objects by address, the group registry, the
    next free address and the state of the strategies. *)
Record World : Type := mkWorld {
  gens : GenRef -> Generator;
  groups : gmap string (list GenRef);
  next_addr : nat;
  heap : St;
}.

Definition WM (A : Type) : Type := M World event A.

End Objects.

Arguments Methods : clear implicits.
Arguments Strategy : clear implicits.
Arguments op_event : clear implicits.
Arguments event : clear implicits.
Arguments OpM : clear implicits.
Arguments Callable : clear implicits.
Arguments Kwargs : clear implicits.
Arguments Operator : clear implicits.
Arguments Compiled : clear implicits.
Arguments Generator : clear implicits.
Arguments World : clear implicits.
Arguments WM : clear implicits.

(** ** What the modelled files import

    The [Strategy] base class, [DfsStrategy], the hook classes, the AST
    compilation of [compile_func] and the tracer are defined outside the
    modelled files; the code is read against any implementation of them.
    The body of a compiled function acts on the state of the strategy and
    is observed through the operators it calls: a body that itself calls,
    creates or configures generators is outside this model. *)
Class Externals (Val St : Type) : Type := {
  (** methods of the [Strategy] base class for the object at an address *)
  base_methods : nat -> Methods St;
  (** methods of a [DfsStrategy] object at an address *)
  dfs_methods : nat -> Methods St;
  (** the exception, if any, with which [compile_func] fails on a function
      (for instance a non-literal [oid], see [get_user_oid]) *)
  compile_error : Func -> Strategy St -> option exn;
  (** calling the function rewritten by [compile_func] *)
  call_compiled : Compiled St -> Callable Val St;
  (** [DefaultTracer.get_last_trace], read off the events of the iteration *)
  get_last_trace : Hook -> list (event Val) -> Val;
  (** the pair [(val, trace)] as a value *)
  pair_val : Val -> Val -> Val;
  (** [item == x] for two distinct hook objects, as the [__eq__] of their
      classes decides it ([False] throughout for classes that do not
      define [__eq__]) *)
  hook_eq : Hook -> Hook -> bool;
  (** the text of the [TypeError] of a call that gives a keyword twice:
      the hook, the method called and the keyword (how the method is
      named in the text depends on the Python version and on the class of
      the hook) *)
  multiple_values : Hook -> string -> string -> string;
}.

Section Code.

Context {Val St : Type} {EXT : Externals Val St}.

Local Abbreviation Strategy := (Strategy St).
Local Abbreviation Compiled := (Compiled St).
Local Abbreviation Generator := (Generator St).
Local Abbreviation World := (World St).
Local Abbreviation WM := (WM Val St).
Local Abbreviation Callable := (Callable Val St).
Local Abbreviation Operator := (Operator Val St).

(** ** [compile_op] *)

(** The keywords [create_op] adds to the call of [before_op] and to the
    call of [after_op], in the order it gives them. *)
Definition before_op_keywords : list string := ["generator"; "op_name"; "sid"].
Definition after_op_keywords : list string := ["generator"; "op_name"; "sid"; "retval"].

(** A call that passes [**kwargs] and then the keywords [k1=v1, ...,
    kn=vn]: the first of [k1 ... kn] that is also a key of [kwargs], if
    there is one. *)
Definition repeated_keyword (added : list string) (kwargs : Kwargs Val) : option string :=
  List.find (fun k => bool_decide (k ∈ map fst kwargs)) added.

(** The call of a method of a hook with the arguments of the operator
    and the keywords [create_op] adds: a keyword given twice raises
    [TypeError] before the method is entered; otherwise the call is
    recorded. *)
Definition hook_op_call (h : Hook) (method : string) (added : list string)
    (kwargs : Kwargs Val) (ev : op_event Val) : OpM Val St unit :=
  match repeated_keyword added kwargs with
  | Some k => raise (TypeError (multiple_values h method k))
  | None => emit ev
  end.

Definition create_op (gen : GenRef) (op_name sid : string) (op : Operator)
    (hooks : list Hook) : Operator :=
  fun args kwargs =>
    for_each hooks (fun h =>
      hook_op_call h "before_op" before_op_keywords kwargs
        (BeforeOp h args kwargs gen op_name sid)) ;;;
    result <- op args kwargs ;;
    for_each hooks (fun h =>
      hook_op_call h "after_op" after_op_keywords kwargs
        (AfterOp h args kwargs gen op_name sid result)) ;;;
    ret result.

Definition compile_op (gen : GenRef) (op_name sid : string) (op : Operator)
    (hooks : list Hook) : Operator :=
  if Nat.eqb (List.length hooks) 0 then op else create_op gen op_name sid op hooks.

(** ** Strategies *)

(** [class RandStrategy(Strategy)]: overrides [is_finished]. *)
Definition RandStrategy_is_finished (_ : St) : bool := false.

Definition RandStrategy (addr : nat) : Strategy :=
  let b := base_methods addr in
  {| s_addr := addr;
     s_methods := {| m_init := m_init b; m_init_run := m_init_run b;
                     m_finish_run := m_finish_run b; m_finish := m_finish b;
                     m_is_finished := RandStrategy_is_finished |} |}.

Definition DfsStrategy (addr : nat) : Strategy :=
  {| s_addr := addr; s_methods := dfs_methods addr |}.

(** ** The store *)

Definition set_gens (f : GenRef -> Generator) (w : World) : World :=
  {| gens := f; groups := groups w; next_addr := next_addr w; heap := heap w |}.
Definition set_groups (r : gmap string (list GenRef)) (w : World) : World :=
  {| gens := gens w; groups := r; next_addr := next_addr w; heap := heap w |}.
Definition set_heap (s : St) (w : World) : World :=
  {| gens := gens w; groups := groups w; next_addr := next_addr w; heap := s |}.

Definition get_gen (g : GenRef) : WM Generator := gets (fun w => gens w g).

Definition upd (g : GenRef) (f : Generator -> Generator)
    (gs : GenRef -> Generator) : GenRef -> Generator :=
  fun j => if decide (j = g) then f (gs j) else gs j.

(** Assignment to attributes of the object at [g]. *)
Definition update_gen (g : GenRef) (f : Generator -> Generator) : WM unit :=
  modify (fun w => set_gens (upd g f (gens w)) w).

(** A fresh object address. *)
Definition alloc : WM nat :=
  fun w => (Ok (next_addr w),
            {| gens := gens w; groups := groups w;
               next_addr := S (next_addr w); heap := heap w |}, []).

(** Running an operator-level computation inside the store. *)
Definition lift_op {A} (m : OpM Val St A) : WM A :=
  fun w =>
    match m (heap w) with
    | (r, s, l) => (r, set_heap s w, map OpEvent l)
    end.

(** A method call on a strategy object. *)
Definition strategy_call (f : Methods St -> St -> St) (ev : nat -> event Val)
    (s : Strategy) : WM unit :=
  modify (fun w => set_heap (f (s_methods s) (heap w)) w) ;;;
  emit (ev (s_addr s)).

(** Modelled from the spec: [atlas.utils.genutils.get_group_by_name], the
    lookup in the process-wide registry from group names to ordered member
    lists; the caller in [Generator.__init__] expects a [KeyError] for an
    unknown name. *)
Definition get_group_by_name (name : string) : WM (list GenRef) :=
  fun w =>
    match groups w !! name with
    | Some members => (Ok members, w, [])
    | None => (Raise (KeyError name), w, [])
    end.

(** Modelled from the spec: [atlas.utils.genutils.register_group], which
    adds the generator at the end of the group's member list. *)
Definition register_group (self : GenRef) (name : string) : WM unit :=
  modify (fun w =>
    set_groups (<[name := default [] (groups w !! name) ++ [self]]> (groups w)) w).

(** ** [make_strategy] *)

(** The argument [strategy: Union[str, Strategy]]. *)
Inductive strategy_arg : Type :=
| ByName (name : string)
| ByInstance (s : Strategy).

Definition make_strategy (strategy_arg0 : strategy_arg) : WM Strategy :=
  match strategy_arg0 with
  | ByInstance s => ret s
  | ByName name =>
      if decide (name = "randomized") then
        a <- alloc ;; ret (RandStrategy a)
      else if decide (name = "dfs") then
        a <- alloc ;; ret (DfsStrategy a)
      else raise (Exception (String.append "Unrecognized strategy - " name))
  end.

(** ** [compile_func]

    The rewriting of the syntax tree is not modelled: compilation either
    fails with the exception [compile_error] gives, or returns the closure
    over its four arguments.  The calls it makes on the strategy on the
    way ([get_known_ops], and [process_op] for each operator call) are
    part of what is left out: compilation is taken to leave the state of
    the strategy as it finds it and to make none of the calls recorded as
    events.  The closure holds the hook list object itself;
    [register_hooks] and [deregister_hook], which change that list in
    place, also drop the closure, so the list a stored closure sees is the
    one recorded here. *)
Definition compile_func (gen : GenRef) (f : Func) (s : Strategy)
    (hs : list Hook) : WM Compiled :=
  match compile_error f s with
  | Some e => raise e
  | None => ret {| cf_gen := gen; cf_func := f; cf_strategy := s; cf_hooks := hs |}
  end.

(** ** [class Generator] *)

(** [try: m  except KeyError: pass]. *)
Definition except_KeyError (m : WM unit) : WM unit :=
  fun w =>
    match m w with
    | (Raise (KeyError _), w1, l1) => (Ok tt, w1, l1)
    | x => x
    end.

(** [seq[0]]. *)
Definition first_of (seq : list GenRef) : WM GenRef :=
  match seq with
  | x :: _ => ret x
  | [] => raise (IndexError "list index out of range")
  end.

(** [Generator.__init__(func, strategy, group=group)].  The registration by
    [name] and the [metadata] are left out. *)
Definition __init__ (f : Func) (strategy_arg0 : strategy_arg)
    (group0 : option string) : WM GenRef :=
  self <- alloc ;;
  s <- make_strategy strategy_arg0 ;;
  update_gen self (fun _ => {| func := f; strategy := s; _compiled_func := None;
                               group := None; hooks := [] |}) ;;;
  update_gen self (with_group group0) ;;;
  match group0 with
  | Some name =>
      except_KeyError
        (gen_group <- get_group_by_name name ;;
         first <- first_of gen_group ;;
         g <- get_gen first ;;
         update_gen self (with_strategy (strategy g))) ;;;
      register_group self name
  | None => ret tt
  end ;;;
  update_gen self (with_hooks []) ;;;
  ret self.

(** The shared tail of the three mutators:
    [if as_group and self.group is not None:
       for g in get_group_by_name(self.group):
         if g is not self: body(g)]. *)
Definition for_group (self : GenRef) (as_group : bool) (body : GenRef -> WM unit) : WM unit :=
  g <- get_gen self ;;
  match as_group, group g with
  | true, Some name =>
      members <- get_group_by_name name ;;
      for_each members (fun m => if decide (m = self) then ret tt else body m)
  | _, _ => ret tt
  end.

(** [set_strategy] up to and excluding the group loop, that is
    [set_strategy(strategy, as_group=False)]. *)
Definition set_strategy_local (self : GenRef) (strategy_arg0 : strategy_arg) : WM unit :=
  s <- make_strategy strategy_arg0 ;;
  update_gen self (with_strategy s) ;;;
  update_gen self (with_compiled_func None).

Definition set_strategy (self : GenRef) (strategy_arg0 : strategy_arg) (as_group : bool) : WM unit :=
  set_strategy_local self strategy_arg0 ;;;
  for_group self as_group (fun g =>
    me <- get_gen self ;;
    set_strategy_local g (ByInstance (strategy me))).

(** [register_hooks] with [as_group=False]. *)
Definition register_hooks_local (self : GenRef) (hs : list Hook) : WM unit :=
  update_gen self (fun g => with_hooks (hooks g ++ hs) g) ;;;
  update_gen self (with_compiled_func None).

Definition register_hooks (self : GenRef) (hs : list Hook) (as_group : bool) : WM unit :=
  register_hooks_local self hs ;;;
  for_group self as_group (fun g => register_hooks_local g hs).

(** [item == x] as [list.remove] tests it: an object is equal to itself
    whatever its [__eq__] says, and two objects are compared with [==]. *)
Definition same_hook (item x : Hook) : bool :=
  bool_decide (item = x) || hook_eq item x.

(** [list.remove]: drops the first element that is equal to [x], which
    need not be [x] itself.  (With no such element Python raises
    [ValueError]; [deregister_hook] calls it only after it has found the
    hook in the list.) *)
Fixpoint list_remove (x : Hook) (l : list Hook) : list Hook :=
  match l with
  | [] => []
  | y :: rest => if same_hook y x then rest else y :: list_remove x rest
  end.

(** [deregister_hook(hook, as_group=False)]. *)
Definition deregister_hook_local (self : GenRef) (hook : Hook) : WM unit :=
  g <- get_gen self ;;
  if forallb (fun i => negb (bool_decide (i = hook))) (hooks g) then
    raise (ValueError "Hook was not registered.")
  else
    update_gen self (fun g => with_hooks (list_remove hook (hooks g)) g) ;;;
    update_gen self (with_compiled_func None).

Definition deregister_hook (self : GenRef) (hook : Hook) (as_group : bool) : WM unit :=
  deregister_hook_local self hook ;;;
  for_group self as_group (fun g => deregister_hook_local g hook).

(** [if self._compiled_func is None:
       self._compiled_func = compile_func(self, self.func, self.strategy, self.hooks)]. *)
Definition ensure_compiled (self : GenRef) : WM unit :=
  g <- get_gen self ;;
  match _compiled_func g with
  | None =>
      c <- compile_func self (func g) (strategy g) (hooks g) ;;
      update_gen self (with_compiled_func (Some c))
  | Some _ => ret tt
  end.

(** The call of [self._compiled_func] on the arguments; the attribute is
    read when the call is made. *)
Definition invoke_compiled (self : GenRef) (args : Val) : WM Val :=
  g <- get_gen self ;;
  match _compiled_func g with
  | Some c => lift_op (call_compiled c args)
  | None => raise (TypeError "'NoneType' object is not callable")
  end.

(** [Generator.__call__]. *)
Definition __call__ (self : GenRef) (args : Val) : WM Val :=
  ensure_compiled self ;;;
  invoke_compiled self args.

(** ** [Generator.generate]

    [generate] is a Python generator function: calling it builds an
    iterator, and each [next] on the iterator runs the body from where it
    was suspended to the next [yield], to its end ([StopIteration]) or to
    an exception that escapes.  Only [next] is modelled; [throw] and
    [close], which raise inside the body at the [yield], are not. *)

Inductive pc : Type := PStart | PSuspended | PDone.

Record Iter : Type := mkIter {
  it_self : GenRef;
  it_args : Val;
  it_pc : pc;
}.

Definition set_pc (p : pc) (it : Iter) : Iter :=
  {| it_self := it_self it; it_args := it_args it; it_pc := p |}.

(** How one [next] ends.  [OutOfFuel] stands for a [next] that has not
    returned within the given number of loop iterations. *)
Inductive outcome : Type :=
| Yield (v : Val)
| StopIteration
| Raised (e : exn)
| OutOfFuel.

Inductive loop_exit : Type :=
| LYield (v : Val)
| LStop
| LFuel.

(** [for h in self.hooks: h.method(...)]. *)
Definition hooks_call (self : GenRef) (ev : Hook -> event Val) : WM unit :=
  g <- get_gen self ;;
  for_each (hooks g) (fun h => emit (ev h)).

(** [self.strategy.method()]. *)
Definition self_strategy_call (self : GenRef) (f : Methods St -> St -> St)
    (ev : nat -> event Val) : WM unit :=
  g <- get_gen self ;;
  strategy_call f ev (strategy g).

(** [self.strategy.is_finished()]. *)
Definition self_is_finished (self : GenRef) : WM bool :=
  g <- get_gen self ;;
  gets (fun w => m_is_finished (s_methods (strategy g)) (heap w)).

(** The statements after the [try] block of the loop body. *)
Definition after_run (self : GenRef) : WM unit :=
  self_strategy_call self m_finish_run StrategyFinishRun ;;;
  hooks_call self HookFinishRun.

(** The [while] loop from its test up to the next [yield], and the
    statements after the loop when the test fails. *)
Fixpoint generate_loop (self : GenRef) (args : Val) (fuel : nat) : WM loop_exit :=
  match fuel with
  | 0 => ret LFuel
  | S k =>
      fin <- self_is_finished self ;;
      if fin then
        self_strategy_call self m_finish StrategyFinish ;;;
        hooks_call self HookFinish ;;;
        ret LStop
      else
        hooks_call self (fun h => HookInitRun h args) ;;;
        self_strategy_call self m_init_run StrategyInitRun ;;;
        r <- except_continue (invoke_compiled self args) ;;
        match r with
        | Some v => ret (LYield v)
        | None => after_run self ;;; generate_loop self args k
        end
  end.

(** The statements before the loop. *)
Definition generate_prologue (self : GenRef) (args : Val) : WM unit :=
  ensure_compiled self ;;;
  hooks_call self (fun h => HookInit h args) ;;;
  self_strategy_call self m_init StrategyInit.

(** What a [next] runs before it reaches the loop test: the prologue on
    the first [next], the rest of the loop body after a [yield]. *)
Definition generate_resume (it : Iter) : WM unit :=
  match it_pc it with
  | PStart => generate_prologue (it_self it) (it_args it)
  | PSuspended => after_run (it_self it)
  | PDone => ret tt
  end.

Definition generate_body (fuel : nat) (it : Iter) : WM loop_exit :=
  match it_pc it with
  | PDone => ret LStop
  | _ =>
      generate_resume it ;;;
      generate_loop (it_self it) (it_args it) fuel
  end.

(** [next(it)] for an iterator made by [generate]. *)
Definition generate_next (fuel : nat) (it : Iter) (w : World)
    : outcome * Iter * World * list (event Val) :=
  match generate_body fuel it w with
  | (Ok (LYield v), w1, l) => (Yield v, set_pc PSuspended it, w1, l)
  | (Ok LStop, w1, l) => (StopIteration, set_pc PDone it, w1, l)
  | (Ok LFuel, w1, l) => (OutOfFuel, it, w1, l)
  | (Raise e, w1, l) => (Raised (out_of_generator e), set_pc PDone it, w1, l)
  end.

(** [generate(args)]: the iterator, nothing has run yet. *)
Definition generate (self : GenRef) (args : Val) : Iter :=
  {| it_self := self; it_args := args; it_pc := PStart |}.

(** ** Consuming an iterator: [for v in it: ...] with a body that leaves
    the store alone. *)

Inductive drain_exit : Type :=
| DStop
| DRaised (e : exn)
| DFuel.

Fixpoint drain {I : Type}
    (next : I -> World -> outcome * I * World * list (event Val))
    (pulls : nat) (it : I) (w : World)
    : list Val * drain_exit * I * World * list (event Val) :=
  match pulls with
  | 0 => ([], DFuel, it, w, [])
  | S p =>
      match next it w with
      | (Yield v, it1, w1, l1) =>
          match drain next p it1 w1 with
          | (vs, ex, it2, w2, l2) => (v :: vs, ex, it2, w2, l1 ++ l2)
          end
      | (StopIteration, it1, w1, l1) => ([], DStop, it1, w1, l1)
      | (Raised e, it1, w1, l1) => ([], DRaised e, it1, w1, l1)
      | (OutOfFuel, it1, w1, l1) => ([], DFuel, it1, w1, l1)
      end
  end.

(** ** [Generator.trace] *)

Inductive trace_pc : Type :=
| TStart
| TRunning (tracer : Hook) (inner : Iter)
| TDone.

Record TraceIter : Type := mkTraceIter {
  tr_self : GenRef;
  tr_args : Val;
  tr_pc : trace_pc;
}.

Definition set_trace_pc (p : trace_pc) (it : TraceIter) : TraceIter :=
  {| tr_self := tr_self it; tr_args := tr_args it; tr_pc := p |}.

(** [tracer = DefaultTracer(); self.register_hooks(tracer)]. *)
Definition trace_prologue (self : GenRef) : WM Hook :=
  tracer <- alloc ;;
  register_hooks self [tracer] true ;;;
  ret tracer.

(** One step of [for val in self.generate(...): yield val, tracer.get_last_trace()]
    and, when the inner iterator is exhausted, [self.deregister_hook(tracer)]. *)
Definition trace_pull (fuel : nat) (it : TraceIter) (tracer : Hook) (inner : Iter)
    (w : World) (l0 : list (event Val))
    : outcome * TraceIter * World * list (event Val) :=
  match generate_next fuel inner w with
  | (Yield v, inner1, w1, l1) =>
      (Yield (pair_val v (get_last_trace tracer (l0 ++ l1))),
       set_trace_pc (TRunning tracer inner1) it, w1, l0 ++ l1)
  | (StopIteration, _, w1, l1) =>
      match deregister_hook (tr_self it) tracer true w1 with
      | (Ok _, w2, l2) => (StopIteration, set_trace_pc TDone it, w2, l0 ++ l1 ++ l2)
      | (Raise e, w2, l2) =>
          (Raised (out_of_generator e), set_trace_pc TDone it, w2, l0 ++ l1 ++ l2)
      end
  | (Raised e, _, w1, l1) =>
      (Raised (out_of_generator e), set_trace_pc TDone it, w1, l0 ++ l1)
  | (OutOfFuel, _, w1, l1) => (OutOfFuel, it, w1, l0 ++ l1)
  end.

(** [next(it)] for an iterator made by [trace]. *)
Definition trace_next (fuel : nat) (it : TraceIter) (w : World)
    : outcome * TraceIter * World * list (event Val) :=
  match tr_pc it with
  | TStart =>
      match trace_prologue (tr_self it) w with
      | (Ok tracer, w1, l1) =>
          trace_pull fuel it tracer (generate (tr_self it) (tr_args it)) w1 l1
      | (Raise e, w1, l1) => (Raised (out_of_generator e), set_trace_pc TDone it, w1, l1)
      end
  | TRunning tracer inner => trace_pull fuel it tracer inner w []
  | TDone => (StopIteration, it, w, [])
  end.

Definition trace (self : GenRef) (args : Val) : TraceIter :=
  {| tr_self := self; tr_args := args; tr_pc := TStart |}.

End Code.

Arguments same_hook {Val St EXT} item x : simpl never.
Arguments Iter : clear implicits.
Arguments outcome : clear implicits.
Arguments loop_exit : clear implicits.
Arguments trace_pc : clear implicits.
Arguments TraceIter : clear implicits.
Arguments strategy_arg : clear implicits.

(** ** [RandStrategy.Select] *)

Section Random.

Context {Val Rng : Type}.
(** [random.Random._randbelow]: an index below [n] and the next state of
    the random number generator. *)
Context (randbelow : Rng -> nat -> nat * Rng).

(** [seq[i]]. *)
Definition subscript (seq : list Val) (i : nat) : result Val :=
  match seq !! i with
  | Some v => Ok v
  | None => Raise (IndexError "list index out of range")
  end.

(** [random.choice(seq)]. *)
Definition random_choice (seq : list Val) (r : Rng) : result Val * Rng :=
  match seq with
  | [] => (Raise (IndexError "Cannot choose from an empty sequence"), r)
  | _ :: _ =>
      match randbelow r (List.length seq) with
      | (i, r1) => (subscript seq i, r1)
      end
  end.

(** [RandStrategy.Select(domain, *args, **kwargs)]. *)
Definition Select (domain : list Val) (r : Rng) : result Val * Rng :=
  random_choice domain r.

End Random.

(** ** Syntax trees

    The nodes of the [ast] module, as far as [compile_func] and
    [get_user_oid] look into them. *)
Inductive expr : Type :=
| ast_Str (s : string)
| ast_Name (id : string)
| ast_Attribute (value : expr) (attr : string)
| ast_Call (c : call)
| ast_Other (tag : nat)
with call : Type :=
| mkCall (f : expr) (args : list expr) (keywords : list keyword)
with keyword : Type :=
| mkKeyword (arg : option string) (value : expr).

Definition call_func (c : call) : expr := match c with mkCall f _ _ => f end.
Definition call_keywords (c : call) : list keyword := match c with mkCall _ _ kws => kws end.
Definition kw_arg (kw : keyword) : option string := match kw with mkKeyword a _ => a end.
Definition kw_value (kw : keyword) : expr := match kw with mkKeyword _ v => v end.

Section UserOid.

(** [astunparse.unparse]. *)
Context (unparse : call -> string).

(** The [for kw in n_call.keywords] loop of [get_user_oid] from the
    keywords [kws] on. *)
Fixpoint get_user_oid_from (n_call : call) (kws : list keyword) : result (option string) :=
  match kws with
  | [] => Ok None
  | kw :: rest =>
      if decide (kw_arg kw = Some "oid") then
        match kw_value kw with
        | ast_Str s => Ok (Some s)
        | _ => Raise (Exception (String.append "Value passed to 'oid' must be a string in "
                                   (unparse n_call)))
        end
      else get_user_oid_from n_call rest
  end.

Definition get_user_oid (n_call : call) : result (option string) :=
  get_user_oid_from n_call (call_keywords n_call).

End UserOid.

(** The filter of [compile_func] on [f_ast.decorator_list]: whether the
    decorator [d] is kept. *)
Definition keeps_decorator (d : expr) : bool :=
  match d with ast_Name id => negb (String.eqb id "generator") | _ => true end
  && match d with ast_Attribute _ attr => negb (String.eqb attr "generator") | _ => true end
  && match d with
     | ast_Call c =>
         match call_func c with
         | ast_Name id => negb (String.eqb id "generator")
         | _ => true
         end
     | _ => true
     end.

Definition remove_generator_decorator (decorator_list : list expr) : list expr :=
  List.filter keeps_decorator decorator_list.

(** ** [RandStrategy.make_call]

    The object is given by its attributes: [dir(self)] is their names and
    [getattr] the lookup, [None] standing for its [AttributeError]. *)
Definition make_call {A : Type} (self : gmap string A) (op_kind op_id : string) : option A :=
  let label := op_kind in
  let label :=
    if bool_decide (is_Some (self !! String.append (String.append op_kind "_") op_id))
    then String.append (String.append op_kind "_") op_id
    else label in
  self !! label.

(** ** [Network.get_batch_iterator]

    A Python generator that is consumed to its end: the values it yields
    are the events of the computation, in order; a computation that
    returns stands for [StopIteration], one that raises for the exception
    the consumer gets after those values.  [graph_iter] is given by the
    graphs it produces, and [define_batch] sees the batch as it is when
    the value is yielded. *)

(** [d[key]] on a dict. *)
Definition getitem {Sigma E A : Type} (d : gmap string A) (key : string) : M Sigma E A :=
  match d !! key with
  | Some v => ret v
  | None => raise (KeyError key)
  end.

Section Network.

Context {Node Batch : Type}.

(** A graph: a dict whose entry ['nodes'] is a list. *)
Local Abbreviation Graph := (gmap string (list Node)).

(** [self.define_batch], an abstract method of [Network]. *)
Context (define_batch : list Graph -> bool -> Batch).

(** The local variables of [get_batch_iterator]. *)
Record batch_locals : Type := mkBatchLocals {
  node_offset : nat;
  cur_batch : list Graph;
}.

(** The body of [for g in graph_iter]. *)
Definition batch_body (batch_size : Z) (is_training : bool) (g : Graph)
    : M batch_locals (nat * Batch) unit :=
  modify (fun st => {| node_offset := node_offset st; cur_batch := cur_batch st ++ [g] |}) ;;;
  nodes <- getitem g "nodes" ;;
  modify (fun st => {| node_offset := node_offset st + List.length nodes;
                       cur_batch := cur_batch st |}) ;;;
  st <- gets (fun st => st) ;;
  if (batch_size <? Z.of_nat (node_offset st))%Z then
    emit (List.length (cur_batch st), define_batch (cur_batch st) is_training) ;;;
    modify (fun st => {| node_offset := 0; cur_batch := cur_batch st |})
  else ret tt.

Definition get_batch_iterator (graph_iter : list Graph) (batch_size : Z)
    (is_training : bool) : M batch_locals (nat * Batch) unit :=
  modify (fun _ => {| node_offset := 0; cur_batch := [] |}) ;;;
  for_each graph_iter (batch_body batch_size is_training) ;;;
  st <- gets (fun st => st) ;;
  if Nat.ltb 0 (List.length (cur_batch st)) then
    emit (List.length (cur_batch st), define_batch (cur_batch st) is_training)
  else ret tt.

(** What the consumer of [get_batch_iterator(...)] gets: the values, and
    the exception if the iteration ends with one. *)
Definition batches (graph_iter : list Graph) (batch_size : Z) (is_training : bool)
    : list (nat * Batch) * option exn :=
  match get_batch_iterator graph_iter batch_size is_training
          {| node_offset := 0; cur_batch := [] |} with
  | (Ok _, _, l) => (l, None)
  | (Raise e, _, l) => (l, Some e)
  end.

End Network.

(** ** [Network.train]

    [train] takes its data as [Iterable]s and calls [iter] on each of them
    once in every epoch; [get_batch_iterator] consumes the iterator to its
    end.  An iterable is given by the elements that the iterator made by
    its [k]-th call of [iter] produces: a list produces its elements every
    time, an iterator (whose [iter] is itself) produces what it holds the
    first time and nothing from then on.  The two iterables that [train]
    is given are taken to be distinct objects. *)

Definition Iterable (A : Type) : Type := nat -> list A.

(** A list, or any other re-readable collection, as an iterable. *)
Definition of_list {A : Type} (l : list A) : Iterable A := fun _ => l.

(** An iterator over the elements [l] as an iterable. *)
Definition one_shot {A : Type} (l : list A) : Iterable A :=
  fun k => match k with 0 => l | S _ => [] end.

Section Train.

Context {Node Batch Op Num Session : Type}.

Local Abbreviation Graph := (gmap string (list Node)).

Context (define_batch : list Graph -> bool -> Batch).
(** [self.get_op], an abstract method of [Network]. *)
Context (get_op : string -> Op).
(** [self.sess.run(fetch_list, feed_dict=batch_data)] on the session that
    [setup] has made: the loss and the accuracy it returns (the third
    value fetched when training is dropped by the code) and the next state
    of the session. *)
Context (sess_run : list Op -> Batch -> Session -> Num * Num * Session).
(** Python numbers: [0], [x + y], [x * n] and [x / n] for [n] not zero. *)
Context (zero : Num) (plus : Num -> Num -> Num) (times : Num -> nat -> Num)
        (over : Num -> nat -> Num).
(** [self.params], of which [train] reads the entry ['batch_size']. *)
Context (params : gmap string Z).

(** A call of [print] with the format string, the two numbers and [end]. *)
Inductive printed : Type :=
| Printed (text : string) (loss accuracy : Num) (ending : string).

(** How [train] ends. *)
Inductive train_exit : Type :=
| Trained
| TrainRaised (e : exn)
| ZeroDivisionError (msg : string).

(** The running sums of a loop over batches. *)
Record totals : Type := mkTotals {
  total_loss : Num;
  total_acc : Num;
  total_graphs : nat;
}.

(** [x / n]. *)
Definition divide (x : Num) (n : nat) : Num + train_exit :=
  if Nat.eqb n 0 then inr (ZeroDivisionError "division by zero") else inl (over x n).

(** [print(text.format(loss / total_graphs, acc / total_graphs), end=ending)]. *)
Definition print_totals (text : string) (t : totals) (ending : string)
    : printed + train_exit :=
  match divide (total_loss t) (total_graphs t) with
  | inr e => inr e
  | inl l =>
      match divide (total_acc t) (total_graphs t) with
      | inr e => inr e
      | inl a => inl (Printed text l a ending)
      end
  end.

(** [for num_graphs, batch_data in ...: ...] over the values of the batch
    iterator. *)
Fixpoint run_batches (text : string) (fetch_list : list Op) (bs : list (nat * Batch))
    (t : totals) (sess : Session) : option train_exit * totals * Session * list printed :=
  match bs with
  | [] => (None, t, sess, [])
  | (num_graphs, batch_data) :: rest =>
      match sess_run fetch_list batch_data sess with
      | (batch_loss, batch_acc, sess1) =>
          let t1 := {| total_loss := plus (total_loss t) (times batch_loss num_graphs);
                       total_acc := plus (total_acc t) (times batch_acc num_graphs);
                       total_graphs := total_graphs t + num_graphs |} in
          match print_totals text t1 (String (Ascii.ascii_of_nat 13) EmptyString) with
          | inr e => (Some e, t1, sess1, [])
          | inl line =>
              match run_batches text fetch_list rest t1 sess1 with
              | (r, t2, sess2, out) => (r, t2, sess2, line :: out)
              end
          end
      end
  end.

(** One of the two halves of an epoch: the loop over the batches of
    [data] and the line printed after it. *)
Definition train_phase (text : string) (fetch_list : list Op) (data : list Graph)
    (is_training : bool) (sess : Session) : train_exit * Session * list printed :=
  match params !! "batch_size" with
  | None => (TrainRaised (KeyError "batch_size"), sess, [])
  | Some batch_size =>
      match batches define_batch data batch_size is_training with
      | (bs, e) =>
          match run_batches text fetch_list bs
                  {| total_loss := zero; total_acc := zero; total_graphs := 0 |} sess with
          | (Some ex, _, sess1, out) => (ex, sess1, out)
          | (None, t, sess1, out) =>
              match e with
              | Some ex => (TrainRaised ex, sess1, out)
              | None =>
                  match print_totals text t (String (Ascii.ascii_of_nat 10) EmptyString) with
                  | inr ex => (ex, sess1, out)
                  | inl line => (Trained, sess1, out ++ [line])
                  end
              end
          end
      end
  end.

(** The body of [for epoch in range(num_epochs)], for the graphs that the
    two iterators of the epoch produce. *)
Definition train_epoch (training_data validation_data : list Graph) (sess : Session)
    : train_exit * Session * list printed :=
  let training_fetch_list := [get_op "loss"; get_op "accuracy"; get_op "train_step"] in
  let validation_fetch_list := [get_op "loss"; get_op "accuracy"] in
  match train_phase "[Training] Loss : {:.4f} Accuracy : {:.4f}" training_fetch_list
          training_data true sess with
  | (Trained, sess1, out1) =>
      match train_phase "[Validation] Loss : {:.4f} Accuracy : {:.4f}"
              validation_fetch_list validation_data false sess1 with
      | (r, sess2, out2) => (r, sess2, out1 ++ out2)
      end
  | x => x
  end.

(** The iterations of [for epoch in range(num_epochs)] that are left when
    [epoch] of them have been made: each calls [iter] on the two
    iterables. *)
Fixpoint train_epochs (training_data validation_data : Iterable Graph)
    (epoch epochs : nat) (sess : Session) : train_exit * Session * list printed :=
  match epochs with
  | 0 => (Trained, sess, [])
  | S k =>
      match train_epoch (training_data epoch) (validation_data epoch) sess with
      | (Trained, sess1, out1) =>
          match train_epochs training_data validation_data (S epoch) k sess1 with
          | (r, sess2, out2) => (r, sess2, out1 ++ out2)
          end
      | x => x
      end
  end.

(** [Network.train(training_data, validation_data, num_epochs)]. *)
Definition train (training_data validation_data : Iterable Graph) (num_epochs : Z)
    (sess : Session) : train_exit * Session * list printed :=
  train_epochs training_data validation_data 0 (Z.to_nat num_epochs) sess.

End Train.

(** * Vocabulary of the statements *)

(** Every run of [m], whether it returns or raises, takes a state to one
    related to it by [R]. *)
Definition preserves {Sigma E A} (R : Sigma -> Sigma -> Prop) (m : M Sigma E A) : Prop :=
  forall s r s1 l, m s = (r, s1, l) -> R s s1.

(** The error of [deregister_hook]. *)
Abbreviation not_registered := (ValueError "Hook was not registered.").

Section Vocabulary.

Context {Val St : Type} {EXT : Externals Val St}.

Local Abbreviation World := (World St).
Local Abbreviation WM := (WM Val St).
Local Abbreviation Generator := (Generator St).
Local Abbreviation event := (event Val).
Local Abbreviation Iter := (Iter Val).
Local Abbreviation outcome := (outcome Val).
Local Abbreviation loop_exit := (loop_exit Val).

(** ** Operator calls *)

(** None of the keywords [added] is a key of [kwargs]. *)
Definition free_of (added : list string) (kwargs : Kwargs Val) : Prop :=
  forall k, k ∈ added -> k ∉ map fst kwargs.

(** ** The store *)

(** [m] returns [a] silently from [w], leaving a store that satisfies [Q]. *)
Definition returns {A} (m : WM A) (w : World) (Q : A -> World -> Prop) : Prop :=
  exists a w1, m w = (Ok a, w1, []) /\ Q a w1.

(** The parts of the store that the configuration methods leave alone. *)
Definition same_frame (w w1 : World) : Prop :=
  groups w1 = groups w /\ heap w1 = heap w.

(** The effect of the three methods on the generator they are called on. *)
Definition strategy_set (s : Strategy St) (g : Generator) : Generator :=
  with_compiled_func None (with_strategy s g).

Definition hooks_added (hs : list Hook) (g : Generator) : Generator :=
  with_compiled_func None (with_hooks (hooks g ++ hs) g).

Definition hook_removed (h : Hook) (g : Generator) : Generator :=
  with_compiled_func None (with_hooks (list_remove h (hooks g)) g).

(** How often [j] is listed in a member list. *)
Fixpoint occ (j : GenRef) (members : list GenRef) : nat :=
  match members with
  | [] => 0
  | m :: rest => if decide (m = j) then S (occ j rest) else occ j rest
  end.

(** How often a hook is listed. *)
Fixpoint hcount (h : Hook) (l : list Hook) : nat :=
  match l with
  | [] => 0
  | x :: rest => if decide (x = h) then S (hcount h rest) else hcount h rest
  end.

(** How many calls of [deregister_hook(h, as_group=False)] in a row return
    on a generator whose hook list is [l]: each call needs [h] itself in
    the list and takes away the first hook equal to [h].  When the hooks
    equal to [h] in [l] are all [h] itself, this is the number of times
    [h] is listed. *)
Fixpoint removals (h : Hook) (l : list Hook) : nat :=
  match l with
  | [] => 0
  | y :: rest =>
      if same_hook y h then
        if bool_decide (h ∈ y :: rest) then S (removals h rest) else 0
      else removals h rest
  end.

(** The hook is missing somewhere down the group list: some member other
    than [self] is listed more often than the hook can be deregistered
    from it (a member that is listed once: it does not have the hook). *)
Definition short_of_hook (self : GenRef) (h : Hook) (members : list GenRef)
    (w : World) : Prop :=
  exists m, m <> self /\ removals h (hooks (gens w m)) < occ m members.

(** No hook registered in [w] is [t] or compares equal to [t]. *)
Definition unlike_all (t : Hook) (w : World) : Prop :=
  forall j y, y ∈ hooks (gens w j) -> same_hook y t = false.

(** A generator either is as it was or has no compiled function. *)
Definition invalidates (w w1 : World) : Prop :=
  forall j, gens w1 j = gens w j \/ _compiled_func (gens w1 j) = None.

(** ** Enumerations *)

(** The events of the phases of [generate], for a hook list and the
    address of the strategy. *)
Definition init_events (hs : list Hook) (addr : nat) (args : Val) : list event :=
  map (fun h => HookInit h args) hs ++ [StrategyInit addr].

Definition init_run_events (hs : list Hook) (addr : nat) (args : Val) : list event :=
  map (fun h => HookInitRun h args) hs ++ [StrategyInitRun addr].

Definition finish_run_events (hs : list Hook) (addr : nat) : list event :=
  StrategyFinishRun addr :: map HookFinishRun hs.

Definition finish_events (hs : list Hook) (addr : nat) : list event :=
  StrategyFinish addr :: map HookFinish hs.

(** The strategy of a generator, its address and its methods. *)
Definition strategy_of (w : World) (self : GenRef) : Strategy St := strategy (gens w self).

Definition addr_of (w : World) (self : GenRef) : nat := s_addr (strategy_of w self).

Definition methods_of (w : World) (self : GenRef) : Methods St := s_methods (strategy_of w self).

(** Events put in front of the events of a computation's result. *)
Definition prepend {A} (l0 : list event) (x : A * World * list event) : A * World * list event :=
  match x with (r, w, l) => (r, w, l0 ++ l) end.

(** The result of [next] from the result of the body. *)
Definition next_result (it : Iter) (x : result loop_exit * World * list event)
    : outcome * Iter * World * list event :=
  match x with
  | (Ok (LYield v), w1, l) => (Yield v, set_pc PSuspended it, w1, l)
  | (Ok LStop, w1, l) => (StopIteration, set_pc PDone it, w1, l)
  | (Ok LFuel, w1, l) => (OutOfFuel, it, w1, l)
  | (Raise e, w1, l) => (Raised (out_of_generator e), set_pc PDone it, w1, l)
  end.

(** The state a [next] is in when it reaches a run, and what the run does:
    [w0] is the store at the loop test, [w2] the store the call of the
    compiled function leaves, [l] the events of that call. *)
Definition run_at (it : Iter) (w w0 : World) (l0 : list event)
    (r : result Val) (w2 : World) (l : list event) : Prop :=
  it_pc it <> PDone /\
  generate_resume it w = (Ok tt, w0, l0) /\
  m_is_finished (methods_of w0 (it_self it)) (heap w0) = false /\
  invoke_compiled (it_self it) (it_args it)
    (set_heap (m_init_run (methods_of w0 (it_self it)) (heap w0)) w0) = (r, w2, l).

(** The events of a [next] up to and including the run. *)
Definition run_events (it : Iter) (w0 : World) (l0 l : list event) : list event :=
  l0 ++ init_run_events (hooks (gens w0 (it_self it))) (addr_of w0 (it_self it)) (it_args it) ++ l.

(** The closure [compile_func] builds for a generator as it is in [w]. *)
Definition compiled_now (w : World) (self : GenRef) : Compiled St :=
  {| cf_gen := self; cf_func := func (gens w self);
     cf_strategy := strategy (gens w self); cf_hooks := hooks (gens w self) |}.

(** [generate] changes nothing in the store but the strategy state and,
    when it has to compile, the compiled function of its generator. *)
Definition compiles_only (self : GenRef) (w w1 : World) : Prop :=
  groups w1 = groups w /\ next_addr w1 = next_addr w /\
  (forall j, gens w1 j = gens w j \/
             (j = self /\ _compiled_func (gens w self) = None /\
              gens w1 j = with_compiled_func (Some (compiled_now w self)) (gens w j))).

(** The events of a sequence of closed runs, each given by the events of
    its call of the compiled function. *)
Definition bracketed_runs (hs : list Hook) (a : nat) (args : Val)
    (runs : list (list (op_event Val))) : list event :=
  concat (map (fun ops => init_run_events hs a args ++ map OpEvent ops
                          ++ finish_run_events hs a) runs).

(** ** Traces *)

(** How many times the tracer is added to the hook list of [j]. *)
Definition tracer_copies (self : GenRef) (members : list GenRef) (j : GenRef) : nat :=
  if decide (j = self) then 1 else occ j members.

(** The store while a trace is under way: every hook list is the one of
    [w] with the tracer at its end. *)
Definition tracing (self : GenRef) (tracer : Hook) (name : string)
    (members : list GenRef) (w w1 : World) : Prop :=
  (forall j, hooks (gens w1 j)
             = hooks (gens w j) ++ replicate (tracer_copies self members j) tracer) /\
  group (gens w1 self) = Some name /\
  groups w1 !! name = Some members.

(** The values an iterator yields to a consumer that asks [pulls] times,
    each with the events of the [next] that yielded it. *)
Fixpoint drain_log {I : Type}
    (next : I -> World -> outcome * I * World * list event)
    (pulls : nat) (it : I) (w : World) : list (Val * list event) :=
  match pulls with
  | 0 => []
  | S p =>
      match next it w with
      | (Yield v, it1, w1, l1) => (v, l1) :: drain_log next p it1 w1
      | _ => []
      end
  end.

(** What a trace yields for a value of the enumeration: the value paired
    with the record of the tracer, read when the [next] of the enumeration
    has returned the value. *)
Definition traced_value (tracer : Hook) (x : Val * list event) : Val :=
  pair_val (fst x) (get_last_trace tracer (snd x)).

(** The store when a trace has ended normally: all hook lists are as
    before the trace and the generators of the group have no compiled
    function. *)
Definition restored (self : GenRef) (members : list GenRef) (w w1 : World) : Prop :=
  forall j, hooks (gens w1 j) = hooks (gens w j) /\
            (j ∈ members \/ j = self -> _compiled_func (gens w1 j) = None).

(** ** Histories of calls *)

(** The calls a client can make on the generators of a store. *)
Inductive command : Type :=
| CSetStrategy (self : GenRef) (arg : strategy_arg St) (as_group : bool)
| CRegisterHooks (self : GenRef) (hs : list Hook) (as_group : bool)
| CDeregisterHook (self : GenRef) (h : Hook) (as_group : bool)
| CCall (self : GenRef) (args : Val)
| CNext (fuel : nat) (it : Iter).

Definition succeeded {A} (x : result A * World * list event) : bool :=
  match x with
  | (Ok _, _, _) => true
  | (Raise _, _, _) => false
  end.

Definition store_of {A} (x : result A * World * list event) : World :=
  match x with (_, w, _) => w end.

(** Whether the call returned, and the store it leaves. *)
Definition exec (c : command) (w : World) : bool * World :=
  match c with
  | CSetStrategy self arg b =>
      let x := set_strategy self arg b w in (succeeded x, store_of x)
  | CRegisterHooks self hs b =>
      let x := register_hooks self hs b w in (succeeded x, store_of x)
  | CDeregisterHook self h b =>
      let x := deregister_hook self h b w in (succeeded x, store_of x)
  | CCall self args =>
      let x := __call__ self args w in (succeeded x, store_of x)
  | CNext fuel it =>
      match generate_next fuel it w with
      | (Raised _, _, w1, _) => (false, w1)
      | (_, _, w1, _) => (true, w1)
      end
  end.

Definition exec_all (cs : list command) (w : World) : World :=
  fold_left (fun w c => snd (exec c w)) cs w.

(** [set_strategy], [register_hooks] or [deregister_hook] called on [g]. *)
Definition mutates (g : GenRef) (c : command) : Prop :=
  match c with
  | CSetStrategy self _ _ | CRegisterHooks self _ _ | CDeregisterHook self _ _ => self = g
  | _ => False
  end.

(** [__call__] on [g], or the first [next] of a [generate] on [g]: the
    calls that compile. *)
Definition compiles (g : GenRef) (c : command) : Prop :=
  match c with
  | CCall self _ => self = g
  | CNext _ it => it_self it = g /\ it_pc it = PStart
  | _ => False
  end.

End Vocabulary.

Arguments command : clear implicits.

(** ** Selections *)

Section SelectVocabulary.

Context {Val : Type} `{!EqDecision Val}.

(** The indices below [len(domain)] at which [Select] returns [v]. *)
Definition hits (domain : list Val) (v : Val) : list nat :=
  List.filter (fun i => bool_decide (domain !! i = Some v)) (seq 0 (List.length domain)).

(** The occurrences of [v] in the domain. *)
Definition occurrences (domain : list Val) (v : Val) : list Val :=
  List.filter (fun x => bool_decide (x = v)) domain.

End SelectVocabulary.

(** ** Configuration and groups *)

Section ConfigurationVocabulary.

Context {Val St : Type} {EXT : Externals Val St}.

(** The error of [make_strategy]. *)
Definition unrecognized (name : string) : exn :=
  Exception (String.append "Unrecognized strategy - " name).

(** The arguments [make_strategy] accepts. *)
Definition recognized (arg : strategy_arg St) : Prop :=
  match arg with
  | ByName name => name = "randomized" \/ name = "dfs"
  | ByInstance _ => True
  end.

(** The strategy [make_strategy] returns for an accepted argument when the
    next free address is [a]. *)
Definition made (arg : strategy_arg St) (a : nat) : Strategy St :=
  match arg with
  | ByInstance s => s
  | ByName name => if decide (name = "randomized") then RandStrategy a else DfsStrategy a
  end.

(** The group of the generator, if it has one, is in the registry. *)
Definition group_registered (w : World St) (self : GenRef) : Prop :=
  match group (gens w self) with
  | Some name => is_Some (groups w !! name)
  | None => True
  end.

(** The registry and the generators agree: the members of a group are
    distinct generators created earlier that carry the name of the group,
    every generator that carries a group name is a member of that group,
    and the members of a group have one and the same strategy object. *)
Definition consistent_groups (w : World St) : Prop :=
  (forall name (members : list GenRef), groups w !! name = Some members ->
     members <> [] /\ NoDup members /\
     forall m, m ∈ members -> m < next_addr w /\ group (gens w m) = Some name) /\
  (forall g name, group (gens w g) = Some name ->
     exists members : list GenRef, groups w !! name = Some members /\ g ∈ members) /\
  (forall name (members : list GenRef) m1 m2, groups w !! name = Some members ->
     m1 ∈ members -> m2 ∈ members -> strategy (gens w m1) = strategy (gens w m2)).

(** What the calls that do not set a strategy keep: the registry, and the
    group and the strategy of every generator; addresses are only added. *)
Definition keeps_configuration (w w1 : World St) : Prop :=
  groups w1 = groups w /\ next_addr w <= next_addr w1 /\
  forall j, group (gens w1 j) = group (gens w j) /\
            strategy (gens w1 j) = strategy (gens w j).

(** Addresses are only added. *)
Definition grows (w w1 : World St) : Prop := next_addr w <= next_addr w1.

(** The calls that configure generators, with the propagation of
    [set_strategy] to the group left at its default. *)
Definition configures (c : command Val St) : Prop :=
  match c with
  | CSetStrategy _ _ b => b = true
  | CRegisterHooks _ _ _ | CDeregisterHook _ _ _ => True
  | CCall _ _ | CNext _ _ => False
  end.

(** No hook of the list but [h] itself compares equal to [h]. *)
Definition only_itself (h : Hook) (l : list Hook) : Prop :=
  forall y, y ∈ l -> same_hook y h = true -> y = h.

End ConfigurationVocabulary.

(** ** Decorators *)

(** The decorators that apply [generator]: [@generator],
    [@<value>.generator] and [@generator(...)]. *)
Definition is_generator_decorator (d : expr) : Prop :=
  match d with
  | ast_Name id => id = "generator"
  | ast_Attribute _ attr => attr = "generator"
  | ast_Call c =>
      match call_func c with
      | ast_Name id => id = "generator"
      | _ => False
      end
  | _ => False
  end.

(** ** Batches *)

Section NetworkVocabulary.

Context {Node Batch : Type}.
Local Abbreviation Graph := (gmap string (list Node)).
Context (define_batch : list Graph -> bool -> Batch).

(** The number of nodes of a graph that has nodes. *)
Definition node_count (g : Graph) : nat :=
  List.length (default [] (g !! "nodes")).

Definition has_nodes (g : Graph) : Prop := is_Some (g !! "nodes").

(** The batch made of the first [k] graphs, with its size. *)
Definition batch_of (graphs : list Graph) (is_training : bool) (k : nat)
    : nat * Batch :=
  (k, define_batch (take k graphs) is_training).

End NetworkVocabulary.

(** A strictly increasing list of numbers above [low]. *)
Fixpoint increasing (low : nat) (ks : list nat) : Prop :=
  match ks with
  | [] => True
  | k :: rest => low < k /\ increasing k rest
  end.

(** * A small instance

    Values and strategy states are numbers; the state of the depth-first
    strategy counts the runs made and three runs exhaust it.  Function [0]
    returns its argument plus the run number, function [1] does the same
    but skips run [0], and any other function fails in run [1]. *)

Definition countdown (limit : nat) : Methods nat :=
  {| m_init := fun _ => 0;
     m_init_run := fun s => s;
     m_finish_run := S;
     m_finish := fun s => s;
     m_is_finished := fun s => Nat.leb limit s |}.

Definition plain_methods : Methods nat :=
  {| m_init := fun s => s;
     m_init_run := fun s => s;
     m_finish_run := fun s => s;
     m_finish := fun s => s;
     m_is_finished := fun _ => false |}.

Definition toy_call (c : Compiled nat) : Callable nat nat :=
  fun args s =>
    match cf_func c with
    | 0 => (Ok (args + s), s, [OpEffect s])
    | 1 =>
        if Nat.eqb s 0 then (Raise ExceptionAsContinue, s, [OpEffect s])
        else (Ok (args + s), s, [OpEffect s])
    | _ =>
        if Nat.eqb s 1 then (Raise (UserError 7), s, [OpEffect s])
        else (Ok (args + s), s, [OpEffect s])
    end.

(** The text of the [TypeError] for a keyword given twice, as Python 3.8
    words it. *)
Definition toy_multiple_values (_ : Hook) (method key : string) : string :=
  String.append method
    (String.append "() got multiple values for keyword argument '"
       (String.append key "'")).

(** The hooks are plain objects: none defines [__eq__]. *)
Definition toy : Externals nat nat :=
  {| base_methods := fun _ => plain_methods;
     dfs_methods := fun _ => countdown 3;
     compile_error := fun _ _ => None;
     call_compiled := toy_call;
     get_last_trace := fun _ l => List.length l;
     pair_val := fun v t => v;
     hook_eq := fun _ _ => false;
     multiple_values := toy_multiple_values |}.

Definition blank : Generator nat :=
  {| func := 0; strategy := DfsStrategy (EXT := toy) 0;
     _compiled_func := None; group := None; hooks := [] |}.

Definition empty_world : World nat :=
  {| gens := fun _ => blank; groups := ∅; next_addr := 0; heap := 0 |}.

Definition store_after {A} (m : WM nat nat A) (w : World nat) : World nat :=
  match m w with (_, w1, _) => w1 end.

(** [g0 = Generator(f0, 'dfs', group='G')] at address [0], then
    [g0.register_hooks(h)] with the hook at address [7]. *)
Definition world_one : World nat :=
  store_after (register_hooks (Val := nat) 0 [7] true)
    (store_after (__init__ (EXT := toy) 0 (ByName "dfs") (Some "G"))
       empty_world).

(** Then [g1 = Generator(f1, 'dfs', group='G')] at address [2] and
    [g2 = Generator(f2, 'dfs')] at address [4]. *)
Definition world_two : World nat :=
  store_after (__init__ (EXT := toy) 1 (ByName "dfs") (Some "G")) world_one.

Definition world_three : World nat :=
  store_after (__init__ (EXT := toy) 2 (ByName "dfs") None) world_two.

(** What a consumer sees of an enumeration: the values, how it ended and
    the calls made. *)
Definition report {I W : Type}
    (x : list nat * drain_exit * I * W * list (event nat))
    : list nat * drain_exit * list (event nat) :=
  match x with (vs, ex, _, _, l) => (vs, ex, l) end.

(** [g2.register_hooks(h9)]. *)
Definition world_four : World nat :=
  store_after (register_hooks (Val := nat) 4 [9] true) world_three.

(** An operator that returns its first argument plus one and counts its
    calls. *)
Definition successor_op : Operator nat nat :=
  fun args kwargs s => (Ok (S (hd 0 args)), S s, [OpEffect s]).

(** A random number generator for the examples. *)
Definition toy_randbelow (r n : nat) : nat * nat := (r mod n, S r).

(** The first [next] of [g1.generate(10)]: the store at the loop test and
    what the first run, which is skipped, leaves. *)
Definition skip_it : Iter nat := generate 2 10.
Definition skip_resumed : result unit * World nat * list (event nat) :=
  generate_resume (EXT := toy) skip_it world_three.
Definition skip_run : result nat * World nat * list (event nat) :=
  invoke_compiled (EXT := toy) (it_self skip_it) (it_args skip_it)
    (set_heap (m_init_run (methods_of (store_of skip_resumed) (it_self skip_it))
                 (heap (store_of skip_resumed)))
       (store_of skip_resumed)).

(** The second [next] of [g2.generate(10)], whose run fails. *)
Definition fail_it : Iter nat := set_pc PSuspended (generate 4 10).
Definition fail_start : World nat :=
  match generate_next (EXT := toy) 5 (generate 4 10) world_four with
  | (_, _, w, _) => w
  end.
Definition fail_resumed : result unit * World nat * list (event nat) :=
  generate_resume (EXT := toy) fail_it fail_start.
Definition fail_run : result nat * World nat * list (event nat) :=
  invoke_compiled (EXT := toy) (it_self fail_it) (it_args fail_it)
    (set_heap (m_init_run (methods_of (store_of fail_resumed) (it_self fail_it))
                 (heap (store_of fail_resumed)))
       (store_of fail_resumed)).

(** An operator that fails after counting its call. *)
Definition failing_op : Operator nat nat :=
  fun args kwargs s => (Raise (UserError 3), S s, [OpEffect s]).

(** The call [Select(xs, oid="first")]. *)
Definition select_call : call :=
  mkCall (ast_Name "Select") [ast_Name "xs"] [mkKeyword (Some "oid") (ast_Str "first")].

(** The attributes of a strategy with a method for the operator [first]. *)
Definition toy_attributes : gmap string nat :=
  {[ "Select" := 0; "Select_first" := 1 ]}.

(** A graph with the given nodes, and one without the entry. *)
Definition graph_with (nodes : list nat) : gmap string (list nat) :=
  {[ "nodes" := nodes ]}.

Definition graph_without : gmap string (list nat) := {[ "edges" := [] ]}.

(** Batches are summarised by the number of nodes they hold. *)
Definition toy_define_batch (graphs : list (gmap string (list nat))) (is_training : bool)
    : nat :=
  sum_list (map node_count graphs).

(** A session that counts its runs and returns the batch as loss. *)
Definition toy_sess_run (fetch_list : list string) (batch_data : nat) (sess : nat)
    : nat * nat * nat :=
  (batch_data, List.length fetch_list, S sess).

Definition toy_params : gmap string Z := {[ "batch_size" := 2%Z ]}.

(** As [toy], but every function raises [StopIteration] in run [1], as a
    body does that calls [next] on an exhausted iterator. *)
Definition stop_call (c : Compiled nat) : Callable nat nat :=
  fun args s =>
    if Nat.eqb s 1 then (Raise StopIterationExc, s, [OpEffect s])
    else (Ok (args + s), s, [OpEffect s]).

Definition stopping : Externals nat nat :=
  {| base_methods := fun _ => plain_methods;
     dfs_methods := fun _ => countdown 3;
     compile_error := fun _ _ => None;
     call_compiled := stop_call;
     get_last_trace := fun _ l => List.length l;
     pair_val := fun v t => v;
     hook_eq := fun _ _ => false;
     multiple_values := toy_multiple_values |}.

(** [g = Generator(f, 'dfs')] at address [0], and the second [next] of
    [g.generate(10)], whose run raises [StopIteration]. *)
Definition world_stop : World nat :=
  store_after (__init__ (EXT := stopping) 0 (ByName "dfs") None) empty_world.

Definition stop_it : Iter nat := set_pc PSuspended (generate 0 10).
Definition stop_start : World nat :=
  match generate_next (EXT := stopping) 5 (generate 0 10) world_stop with
  | (_, _, w, _) => w
  end.
Definition stop_resumed : result unit * World nat * list (event nat) :=
  generate_resume (EXT := stopping) stop_it stop_start.
Definition stop_run : result nat * World nat * list (event nat) :=
  invoke_compiled (EXT := stopping) (it_self stop_it) (it_args stop_it)
    (set_heap (m_init_run (methods_of (store_of stop_resumed) (it_self stop_it))
                 (heap (store_of stop_resumed)))
       (store_of stop_resumed)).

(** As [toy], but the hooks are of a class that compares its objects by a
    key, here the last digit of the address. *)
Definition alike : Externals nat nat :=
  {| base_methods := fun _ => plain_methods;
     dfs_methods := fun _ => countdown 3;
     compile_error := fun _ _ => None;
     call_compiled := toy_call;
     get_last_trace := fun _ l => List.length l;
     pair_val := fun v t => v;
     hook_eq := fun a b => Nat.eqb (a mod 10) (b mod 10);
     multiple_values := toy_multiple_values |}.

(** [g = Generator(f0, 'dfs')] at address [0] with the hooks at [8] and
    [18], which are equal, registered in that order. *)
Definition world_alike : World nat :=
  store_after (register_hooks (Val := nat) 0 [8; 18] false)
    (store_after (__init__ (EXT := alike) 0 (ByName "dfs") None) empty_world).

(** As [toy], but the pair of a value and a record shows both: the record
    is the number of calls made, in the hundreds of the pair. *)
Definition recording : Externals nat nat :=
  {| base_methods := fun _ => plain_methods;
     dfs_methods := fun _ => countdown 3;
     compile_error := fun _ _ => None;
     call_compiled := toy_call;
     get_last_trace := fun _ l => List.length l;
     pair_val := fun v t => 100 * t + v;
     hook_eq := fun _ _ => false;
     multiple_values := toy_multiple_values |}.

(** [g = Generator(f0, 'randomized')] at address [0]: its strategy never
    finishes. *)
Definition world_rand : World nat :=
  store_after (__init__ (EXT := toy) 0 (ByName "randomized") None) empty_world.

(** [world_three] after [g0.register_hooks(h9, as_group=False)], and after
    [g0.register_hooks(h7, as_group=False)], which registers [h7] a second
    time. *)
Definition world_six : World nat :=
  store_after (register_hooks (Val := nat) 0 [9] false) world_three.

Definition world_twice : World nat :=
  store_after (register_hooks (Val := nat) 0 [7] false) world_three.

(** * Properties *)

(** ** The monad *)

Section MonadFacts.

Context {Sigma E : Type}.

Lemma for_each_emit {A} (f : A -> E) (xs : list A) (s : Sigma) :
  for_each xs (fun x => emit (f x)) s = (Ok tt, s, map f xs).
Proof.
  induction xs as [|x xs IH]; simpl; [reflexivity|].
  unfold bind at 1. simpl. rewrite IH. reflexivity.
Qed.

Lemma bind_ok {A B} {m : M Sigma E A} (f : A -> M Sigma E B) {s a s1 l1} :
  m s = (Ok a, s1, l1) ->
  bind m f s = (let '(r, s2, l2) := f a s1 in (r, s2, l1 ++ l2)).
Proof. intros H. unfold bind. rewrite H. destruct (f a s1) as [[r s2] l2]. reflexivity. Qed.

Lemma bind_raise {A B} {m : M Sigma E A} (f : A -> M Sigma E B) {s e s1 l1} :
  m s = (Raise e, s1, l1) ->
  bind m f s = (Raise e, s1, l1).
Proof. intros H. unfold bind. rewrite H. reflexivity. Qed.

Lemma bind_ret_l {A B} (a : A) (f : A -> M Sigma E B) s :
  bind (ret a) f s = f a s.
Proof. unfold bind, ret. destruct (f a s) as [[r s2] l2]. reflexivity. Qed.

Lemma bind_inv_ok {A B} (m : M Sigma E A) (f : A -> M Sigma E B) s b s2 l :
  bind m f s = (Ok b, s2, l) ->
  exists a s1 l1 l2,
    m s = (Ok a, s1, l1) /\ f a s1 = (Ok b, s2, l2) /\ l = l1 ++ l2.
Proof.
  unfold bind. destruct (m s) as [[[a|e] s1] l1]; [|discriminate].
  destruct (f a s1) as [[r s3] l2] eqn:Hf. intros Heq. inversion Heq; subst.
  exists a, s1, l1, l2. auto.
Qed.

Section Preserves.

Local Abbreviation preserves := (preserves (Sigma := Sigma) (E := E)).

Context (R : Sigma -> Sigma -> Prop).
Context (R_refl : forall s, R s s).
Context (R_trans : forall s1 s2 s3, R s1 s2 -> R s2 s3 -> R s1 s3).

Lemma preserves_bind {A B} (m : M Sigma E A) (f : A -> M Sigma E B) :
  preserves R m -> (forall a, preserves R (f a)) -> preserves R (bind m f).
Proof using R_trans.
  intros Hm Hf s r s2 l. unfold bind.
  destruct (m s) as [[[a|e] s1] l1] eqn:Hms.
  - destruct (f a s1) as [[r2 s3] l2] eqn:Hfs. intros Heq. inversion Heq; subst.
    eapply R_trans; [eapply Hm; eauto | eapply Hf; eauto].
  - intros Heq. inversion Heq; subst. eapply Hm; eauto.
Qed.

Lemma preserves_ret {A} (a : A) : preserves R (ret a).
Proof using R_refl. intros s r s1 l Heq. inversion Heq; subst. apply R_refl. Qed.

Lemma preserves_raise {A} e : preserves R (raise (A := A) e).
Proof using R_refl. intros s r s1 l Heq. inversion Heq; subst. apply R_refl. Qed.

Lemma preserves_emit ev : preserves R (emit ev).
Proof using R_refl. intros s r s1 l Heq. inversion Heq; subst. apply R_refl. Qed.

Lemma preserves_gets {A} (f : Sigma -> A) : preserves R (gets f).
Proof using R_refl. intros s r s1 l Heq. inversion Heq; subst. apply R_refl. Qed.

Lemma preserves_for_each {A} (xs : list A) (body : A -> M Sigma E unit) :
  (forall x, preserves R (body x)) -> preserves R (for_each xs body).
Proof using R_refl R_trans.
  intros Hbody. induction xs as [|x xs IH]; simpl.
  - apply preserves_ret.
  - apply preserves_bind; [apply Hbody | intros _; exact IH].
Qed.

Lemma preserves_except_continue {A} (m : M Sigma E A) :
  preserves R m -> preserves R (except_continue m).
Proof.
  intros Hm s r s1 l. unfold except_continue.
  destruct (m s) as [[[a|e] s2] l2] eqn:Hms.
  - intros Heq. inversion Heq; subst. eapply Hm; eauto.
  - destruct (is_continue e); intros Heq; inversion Heq; subst; eapply Hm; eauto.
Qed.

End Preserves.

End MonadFacts.

(** ** [compile_op] *)

Section CompileOp.

Context {Val St : Type} {EXT : Externals Val St}.

Local Abbreviation Operator := (Operator Val St).
Local Abbreviation Kwargs := (Kwargs Val).
Local Abbreviation free_of := (free_of (Val := Val)).

Lemma repeated_keyword_none added (kwargs : Kwargs) :
  repeated_keyword added kwargs = None <-> free_of added kwargs.
Proof.
  unfold repeated_keyword, free_of. induction added as [|a rest IH]; simpl.
  - split; [intros _ k Hk; inversion Hk | reflexivity].
  - case_bool_decide as Ha.
    + split; [discriminate|]. intros Hfree. exfalso.
      apply (Hfree a); [apply elem_of_cons; auto | exact Ha].
    + rewrite IH. split.
      * intros Hfree k Hk. apply elem_of_cons in Hk. destruct Hk as [->|Hk]; auto.
      * intros Hfree k Hk. apply Hfree. apply elem_of_cons. auto.
Qed.

Lemma repeated_keyword_some added (kwargs : Kwargs) k :
  repeated_keyword added kwargs = Some k -> k ∈ added /\ k ∈ map fst kwargs.
Proof.
  unfold repeated_keyword. intros Hf. apply List.find_some in Hf.
  destruct Hf as [Hin Hk]. apply bool_decide_eq_true in Hk.
  split; [apply list_elem_of_In; exact Hin | exact Hk].
Qed.

Lemma free_of_dec added (kwargs : Kwargs) :
  free_of added kwargs \/ exists k, repeated_keyword added kwargs = Some k.
Proof.
  destruct (repeated_keyword added kwargs) as [k|] eqn:Hr.
  - right. exists k. reflexivity.
  - left. apply repeated_keyword_none. exact Hr.
Qed.

Lemma free_of_before (kwargs : Kwargs) :
  free_of after_op_keywords kwargs -> free_of before_op_keywords kwargs.
Proof.
  intros Hfree k Hk. apply Hfree. unfold after_op_keywords, before_op_keywords in *.
  rewrite !elem_of_cons in *. tauto.
Qed.

(** With [generator], [op_name] and [sid] free, the only keyword that the
    call of [after_op] can repeat is [retval]. *)
Lemma repeated_retval (kwargs : Kwargs) :
  free_of before_op_keywords kwargs ->
  "retval" ∈ map fst kwargs ->
  repeated_keyword after_op_keywords kwargs = Some "retval".
Proof.
  intros Hfree Hin.
  destruct (repeated_keyword after_op_keywords kwargs) as [k|] eqn:Hr.
  - destruct (repeated_keyword_some _ _ _ Hr) as [Hk1 Hk2].
    unfold after_op_keywords in Hk1. rewrite !elem_of_cons in Hk1.
    destruct Hk1 as [->|[->|[->|[->|Hk1]]]]; [| | |reflexivity|inversion Hk1];
      exfalso; refine (Hfree _ _ Hk2);
      unfold before_op_keywords; rewrite !elem_of_cons; auto.
  - apply repeated_keyword_none in Hr. exfalso. apply (Hr "retval"); [|exact Hin].
    unfold after_op_keywords. rewrite !elem_of_cons. auto.
Qed.

(** The calls of one method on all the hooks. *)
Lemma hook_calls_free method added (kwargs : Kwargs) (f : Hook -> op_event Val) hooks (s : St) :
  free_of added kwargs ->
  for_each hooks (fun h => hook_op_call h method added kwargs (f h)) s
  = (Ok tt, s, map f hooks).
Proof.
  intros Hfree. apply repeated_keyword_none in Hfree.
  induction hooks as [|h hs IH]; simpl; [reflexivity|].
  unfold bind at 1, hook_op_call at 1. rewrite Hfree. unfold emit. rewrite IH. reflexivity.
Qed.

Lemma hook_calls_repeated method added (kwargs : Kwargs) (f : Hook -> op_event Val) h hs
    (s : St) k :
  repeated_keyword added kwargs = Some k ->
  for_each (h :: hs) (fun h => hook_op_call h method added kwargs (f h)) s
  = (Raise (TypeError (multiple_values h method k)), s, []).
Proof.
  intros Hk. simpl. unfold bind at 1, hook_op_call at 1. rewrite Hk. reflexivity.
Qed.

Lemma compile_op_some_hook gen op_name sid (op : Operator) h hs :
  compile_op gen op_name sid op (h :: hs) = create_op gen op_name sid op (h :: hs).
Proof. reflexivity. Qed.

(** The call of the wrapper when no keyword is given twice to [before_op]. *)
Lemma create_op_eq gen op_name sid (op : Operator) hooks args kwargs s :
  free_of before_op_keywords kwargs ->
  create_op gen op_name sid op hooks args kwargs s =
  match op args kwargs s with
  | (Ok v, s1, l) =>
      match for_each hooks (fun h =>
              hook_op_call h "after_op" after_op_keywords kwargs
                (AfterOp h args kwargs gen op_name sid v)) s1 with
      | (Ok _, s2, l2) =>
          (Ok v, s2, map (fun h => BeforeOp h args kwargs gen op_name sid) hooks ++ l ++ l2)
      | (Raise e, s2, l2) =>
          (Raise e, s2, map (fun h => BeforeOp h args kwargs gen op_name sid) hooks ++ l ++ l2)
      end
  | (Raise e, s1, l) =>
      (Raise e, s1, map (fun h => BeforeOp h args kwargs gen op_name sid) hooks ++ l)
  end.
Proof.
  intros Hfree. unfold create_op.
  rewrite (bind_ok _ (hook_calls_free _ _ _ _ hooks s Hfree)).
  unfold bind at 1.
  destruct (op args kwargs s) as [[[v|e] s1] l]; [|reflexivity].
  unfold bind at 1.
  destruct (for_each hooks _ s1) as [[[[]|e] s2] l2]; [|reflexivity].
  unfold ret. rewrite app_nil_r. reflexivity.
Qed.

(** C5: with no hooks [compile_op] returns the operator it was given, not
    a wrapper around it. *)
Theorem compile_op_no_hooks_identity gen op_name sid (op : Operator) :
  compile_op gen op_name sid op [] = op.
Proof. reflexivity. Qed.

(** C4, as the code has it: with at least one hook, a call of the
    callable returned by [compile_op] whose keyword arguments do not
    include [generator], [op_name], [sid] or [retval] emits the
    [before_op] of every hook in registration order (with the arguments,
    the generator, the operator name and the static id), then runs the
    operator once on the state it was called in, then emits the
    [after_op] of every hook in the same order with the same data and the
    operator's return value, and returns that value; the state left is
    the one the operator left.  A call with the keyword [generator],
    [op_name] or [sid] raises [TypeError] at the first [before_op]: no
    hook is called and the operator is not run.  A call with the keyword
    [retval] and none of those three raises [TypeError] at the first
    [after_op], after the [before_op] of every hook and the operator: the
    value the operator returned is lost. *)
Theorem compile_op_wraps_in_registration_order
    gen op_name sid (op : Operator) h hs args kwargs s :
  let hooks := h :: hs in
  let before := map (fun h => BeforeOp h args kwargs gen op_name sid) hooks in
  (free_of after_op_keywords kwargs ->
   forall v s1 l,
     op args kwargs s = (Ok v, s1, l) ->
     compile_op gen op_name sid op hooks args kwargs s =
     (Ok v, s1,
      before ++ l ++ map (fun h => AfterOp h args kwargs gen op_name sid v) hooks))
  /\
  (~ free_of before_op_keywords kwargs ->
   exists k,
     k ∈ before_op_keywords /\ k ∈ map fst kwargs /\
     compile_op gen op_name sid op hooks args kwargs s =
     (Raise (TypeError (multiple_values h "before_op" k)), s, []))
  /\
  (free_of before_op_keywords kwargs -> "retval" ∈ map fst kwargs ->
   forall v s1 l,
     op args kwargs s = (Ok v, s1, l) ->
     compile_op gen op_name sid op hooks args kwargs s =
     (Raise (TypeError (multiple_values h "after_op" "retval")), s1, before ++ l)).
Proof.
  cbv zeta. rewrite compile_op_some_hook. split; [|split].
  - intros Hfree v s1 l Hop.
    rewrite (create_op_eq _ _ _ _ _ _ _ _ (free_of_before kwargs Hfree)), Hop.
    rewrite (hook_calls_free _ _ _ _ (h :: hs) s1 Hfree). reflexivity.
  - intros Hnot. destruct (free_of_dec before_op_keywords kwargs) as [Hfree|[k Hk]];
      [contradiction|].
    destruct (repeated_keyword_some _ _ _ Hk) as [Hin1 Hin2].
    exists k. split; [exact Hin1|]. split; [exact Hin2|].
    unfold create_op. apply bind_raise. apply hook_calls_repeated. exact Hk.
  - intros Hfree Hret v s1 l Hop.
    rewrite (create_op_eq _ _ _ _ _ _ _ _ Hfree), Hop.
    rewrite (hook_calls_repeated _ _ _ _ h hs s1 "retval" (repeated_retval kwargs Hfree Hret)).
    rewrite app_nil_r. reflexivity.
Qed.

(** When the operator raises, the wrapper lets the exception through and
    no [after_op] is called. *)
Lemma compile_op_operator_raises
    gen op_name sid (op : Operator) hooks args kwargs s e s1 l :
  free_of before_op_keywords kwargs ->
  op args kwargs s = (Raise e, s1, l) ->
  compile_op gen op_name sid op hooks args kwargs s =
  (Raise e, s1, map (fun h => BeforeOp h args kwargs gen op_name sid) hooks ++ l).
Proof.
  intros Hfree Hop. destruct hooks as [|h hs].
  - simpl. exact Hop.
  - rewrite compile_op_some_hook, (create_op_eq _ _ _ _ _ _ _ _ Hfree), Hop. reflexivity.
Qed.

End CompileOp.

(** ** The store operations *)

Section Store.

Context {Val St : Type} {EXT : Externals Val St}.

Local Abbreviation World := (World St).
Local Abbreviation WM := (WM Val St).
Local Abbreviation Generator := (Generator St).
Local Abbreviation returns := (returns (Val := Val) (St := St)).
Local Abbreviation same_frame := (same_frame (St := St)).
Local Abbreviation invalidates := (invalidates (St := St)).
Local Abbreviation short_of_hook := (short_of_hook (St := St)).

Lemma returns_bind {A B} {m : WM A} {f : A -> WM B} {w} Q {R} :
  returns m w Q ->
  (forall a w1, Q a w1 -> returns (f a) w1 R) ->
  returns (bind m f) w R.
Proof.
  intros (a & w1 & Hm & HQ) Hf.
  destruct (Hf a w1 HQ) as (b & w2 & Hfa & HR).
  exists b, w2. split; [|exact HR].
  rewrite (bind_ok _ Hm), Hfa. reflexivity.
Qed.

Lemma returns_weaken {A} {m : WM A} {w} (Q : A -> World -> Prop) {R : A -> World -> Prop} :
  returns m w Q -> (forall a w1, Q a w1 -> R a w1) -> returns m w R.
Proof. intros (a & w1 & Hm & HQ) H. exists a, w1. auto. Qed.

Lemma returns_ret {A} (a : A) w (Q : A -> World -> Prop) :
  Q a w -> returns (ret a) w Q.
Proof. intros HQ. exists a, w. auto. Qed.

Lemma returns_get_gen g w (Q : Generator -> World -> Prop) :
  Q (gens w g) w -> returns (get_gen g) w Q.
Proof. intros HQ. exists (gens w g), w. auto. Qed.

Lemma returns_update_gen g f w :
  returns (update_gen g f) w
    (fun _ w1 => (forall j, gens w1 j = upd g f (gens w) j) /\ same_frame w w1
                 /\ next_addr w1 = next_addr w).
Proof. exists tt, (set_gens (upd g f (gens w)) w). repeat split. Qed.

Lemma upd_same g f (gs : GenRef -> Generator) : upd g f gs g = f (gs g).
Proof. unfold upd. rewrite decide_True; auto. Qed.

Lemma upd_other g f (gs : GenRef -> Generator) j : j <> g -> upd g f gs j = gs j.
Proof. intros H. unfold upd. rewrite decide_False; auto. Qed.

Lemma same_frame_refl w : same_frame w w.
Proof. split; reflexivity. Qed.

Lemma same_frame_trans w1 w2 w3 :
  same_frame w1 w2 -> same_frame w2 w3 -> same_frame w1 w3.
Proof. intros [? ?] [? ?]. split; congruence. Qed.

(** [make_strategy] touches nothing but the address counter, and nothing
    at all when it raises. *)
Lemma make_strategy_frame {arg w r w0 l0} :
  make_strategy arg w = (r, w0, l0) ->
  l0 = [] /\ gens w0 = gens w /\ same_frame w w0 /\
  (forall e, r = Raise e -> w0 = w).
Proof.
  unfold make_strategy. destruct arg as [name|s].
  - repeat case_decide; intros Heq; inversion Heq; subst; clear Heq;
      repeat split; try (intros e He; discriminate He).
  - intros Heq. inversion Heq; subst. repeat split.
Qed.

Lemma make_strategy_instance (s : Strategy St) w :
  make_strategy (ByInstance s) w = (Ok s, w, []).
Proof. reflexivity. Qed.

Lemma set_strategy_local_ok m {arg w s w0 l0} :
  make_strategy arg w = (Ok s, w0, l0) ->
  returns (set_strategy_local m arg) w
    (fun _ w1 => (forall j, gens w1 j = upd m (strategy_set s) (gens w) j)
                 /\ same_frame w w1).
Proof.
  intros Hmk. destruct (make_strategy_frame Hmk) as (-> & Hg & Hf & _).
  unfold set_strategy_local.
  eapply (returns_bind (fun a w1 => a = s /\ gens w1 = gens w /\ same_frame w w1)).
  { exists s, w0. split; [exact Hmk|]. auto. }
  intros a w1 (-> & Hg1 & Hf1).
  eapply returns_bind; [apply returns_update_gen|].
  intros _ w2 (Hg2 & Hf2 & _).
  eapply returns_weaken; [apply returns_update_gen|].
  intros _ w3 (Hg3 & Hf3 & _). split.
  - intros j. rewrite Hg3. unfold upd in *. rewrite Hg2, Hg1.
    case_decide; reflexivity.
  - eauto using same_frame_trans.
Qed.

Lemma set_strategy_local_raise m {arg w e w0 l0} :
  make_strategy arg w = (Raise e, w0, l0) ->
  set_strategy_local m arg w = (Raise e, w, []).
Proof.
  intros Hmk. destruct (make_strategy_frame Hmk) as (-> & _ & _ & Hw).
  rewrite (Hw e eq_refl) in Hmk.
  unfold set_strategy_local. apply (bind_raise _ Hmk).
Qed.

Lemma register_hooks_local_ok m hs w :
  returns (register_hooks_local m hs) w
    (fun _ w1 => (forall j, gens w1 j = upd m (hooks_added hs) (gens w) j)
                 /\ same_frame w w1 /\ next_addr w1 = next_addr w).
Proof.
  unfold register_hooks_local.
  eapply returns_bind; [apply returns_update_gen|].
  intros _ w2 (Hg2 & Hf2 & Hn2).
  eapply returns_weaken; [apply returns_update_gen|].
  intros _ w3 (Hg3 & Hf3 & Hn3). split; [|split].
  - intros j. rewrite Hg3. unfold upd in *. rewrite Hg2.
    case_decide; reflexivity.
  - eauto using same_frame_trans.
  - congruence.
Qed.

Lemma not_registered_iff (h : Hook) (l : list Hook) :
  forallb (fun i => negb (bool_decide (i = h))) l = true <-> h ∉ l.
Proof.
  induction l as [|x l IH]; simpl.
  - split; [intros _; apply not_elem_of_nil | reflexivity].
  - rewrite andb_true_iff, IH, not_elem_of_cons, negb_true_iff, bool_decide_eq_false.
    split; intros [? ?]; split; auto.
Qed.

Lemma deregister_hook_local_ok m h w :
  h ∈ hooks (gens w m) ->
  returns (deregister_hook_local m h) w
    (fun _ w1 => (forall j, gens w1 j = upd m (hook_removed h) (gens w) j)
                 /\ same_frame w w1 /\ next_addr w1 = next_addr w).
Proof.
  intros Hin. unfold deregister_hook_local.
  eapply (returns_bind (fun g w1 => g = gens w m /\ w1 = w));
    [apply returns_get_gen; auto|].
  intros g w1 [-> ->].
  destruct (forallb _ _) eqn:Hall.
  { apply not_registered_iff in Hall. contradiction. }
  eapply returns_bind; [apply returns_update_gen|].
  intros _ w2 (Hg2 & Hf2 & Hn2).
  eapply returns_weaken; [apply returns_update_gen|].
  intros _ w3 (Hg3 & Hf3 & Hn3). split; [|split].
  - intros j. rewrite Hg3. unfold upd in *. rewrite Hg2.
    case_decide; reflexivity.
  - eauto using same_frame_trans.
  - congruence.
Qed.

Lemma deregister_hook_local_raise m h (w : World) :
  h ∉ hooks (gens w m) ->
  deregister_hook_local (Val := Val) m h w
  = (Raise (ValueError "Hook was not registered."), w, []).
Proof.
  intros Hin. apply not_registered_iff in Hin.
  unfold deregister_hook_local, bind, get_gen, gets. rewrite Hin. reflexivity.
Qed.

(** *** The loop over the group *)

Lemma occ_pos j members : j ∈ members <-> 0 < occ j members.
Proof.
  induction members as [|m rest IH]; simpl.
  - split; [intros H; inversion H | lia].
  - rewrite elem_of_cons, IH. case_decide; subst; split; intros; auto; try lia.
Qed.

Lemma for_group_off self (body : GenRef -> WM unit) (w : World) :
  for_group self false body w = (Ok tt, w, []).
Proof. reflexivity. Qed.

Lemma for_group_no_group self b (body : GenRef -> WM unit) (w : World) :
  group (gens w self) = None ->
  for_group self b body w = (Ok tt, w, []).
Proof.
  intros Hg. unfold for_group, bind, get_gen, gets. rewrite Hg.
  destruct b; reflexivity.
Qed.

Lemma for_group_on self (body : GenRef -> WM unit) (w : World) name members :
  group (gens w self) = Some name ->
  groups w !! name = Some members ->
  for_group self true body w =
  for_each members (fun m => if decide (m = self) then ret tt else body m) w.
Proof.
  intros Hg Hm. unfold for_group, bind, get_gen, gets, get_group_by_name.
  rewrite Hg, Hm. destruct (for_each _ _ w) as [[r w1] l]. reflexivity.
Qed.

Lemma for_group_unregistered self (body : GenRef -> WM unit) (w : World) name :
  group (gens w self) = Some name ->
  groups w !! name = None ->
  for_group self true body w = (Raise (KeyError name), w, []).
Proof.
  intros Hg Hm. unfold for_group, bind, get_gen, gets, get_group_by_name.
  rewrite Hg, Hm. reflexivity.
Qed.

(** A loop whose body applies [F] to the member it is called on. *)
Lemma for_each_update self g0 (F : Generator -> Generator) (body : GenRef -> WM unit) members :
  (forall m w, m <> self -> gens w self = g0 ->
     returns (body m) w
       (fun _ w1 => (forall j, gens w1 j = upd m F (gens w) j) /\ same_frame w w1)) ->
  forall w, gens w self = g0 ->
    returns (for_each members (fun m => if decide (m = self) then ret tt else body m)) w
      (fun _ w1 =>
         (forall j, gens w1 j =
                    if decide (j = self) then gens w j
                    else Nat.iter (occ j members) F (gens w j))
         /\ same_frame w w1).
Proof.
  intros Hbody. induction members as [|m rest IH]; intros w Hself.
  - apply returns_ret. split; [|apply same_frame_refl].
    intros j. simpl. case_decide; reflexivity.
  - simpl for_each. destruct (decide (m = self)) as [->|Hne].
    + unfold returns. rewrite bind_ret_l. fold (returns (for_each rest
        (fun m => if decide (m = self) then ret tt else body m)) w).
      eapply returns_weaken; [apply (IH w Hself)|].
      intros _ w2 [Hg Hf]. split; [|exact Hf].
      intros j. rewrite Hg. simpl. repeat case_decide; subst; congruence.
    + eapply returns_bind; [apply (Hbody m w Hne Hself)|].
      intros _ w1 [Hg1 Hf1].
      assert (Hself1 : gens w1 self = g0).
      { rewrite Hg1, upd_other; auto. }
      eapply returns_weaken; [apply (IH w1 Hself1)|].
      intros _ w2 [Hg2 Hf2]. split; [|eauto using same_frame_trans].
      intros j. rewrite Hg2, Hg1. simpl. unfold upd.
      repeat case_decide; subst; try congruence.
      rewrite Nat.iter_succ_r. reflexivity.
Qed.

Lemma iter_strategy_set s n (g : Generator) :
  Nat.iter n (strategy_set s) g = if decide (n = 0) then g else strategy_set s g.
Proof.
  induction n as [|n IH]; [reflexivity|].
  simpl. rewrite IH. case_decide; reflexivity.
Qed.

Lemma iter_hooks_added (t : Hook) n (g : Generator) :
  hooks (Nat.iter n (hooks_added [t]) g) = hooks g ++ replicate n t
  /\ strategy (Nat.iter n (hooks_added [t]) g) = strategy g
  /\ group (Nat.iter n (hooks_added [t]) g) = group g
  /\ func (Nat.iter n (hooks_added [t]) g) = func g
  /\ _compiled_func (Nat.iter n (hooks_added [t]) g)
     = (if decide (n = 0) then _compiled_func g else None).
Proof.
  induction n as [|n (IH1 & IH2 & IH3 & IH4 & IH5)]; simpl.
  - rewrite app_nil_r. auto.
  - rewrite IH1, IH2, IH3, IH4. repeat split; auto.
    rewrite <- app_assoc. f_equal.
    change (replicate n t ++ [t] = replicate (S n) t).
    clear. induction n as [|k IHk]; simpl; [reflexivity|]. f_equal. apply IHk.
Qed.

(** *** [set_strategy] *)

Lemma set_strategy_effect self {arg} as_group {w : World} {name members s w0 l0} :
  group (gens w self) = Some name ->
  groups w !! name = Some members ->
  make_strategy arg w = (Ok s, w0, l0) ->
  returns (set_strategy self arg as_group) w
    (fun _ w1 =>
       gens w1 self = strategy_set s (gens w self) /\
       (forall j, j <> self ->
          gens w1 j = if as_group && bool_decide (j ∈ members)
                      then strategy_set s (gens w j) else gens w j) /\
       same_frame w w1).
Proof.
  intros Hgrp Hreg Hmk. unfold set_strategy.
  eapply returns_bind; [apply (set_strategy_local_ok self Hmk)|].
  intros _ w1 [Hg1 Hf1].
  assert (Hself1 : gens w1 self = strategy_set s (gens w self)).
  { rewrite Hg1. apply upd_same. }
  destruct as_group.
  - unfold returns. erewrite for_group_on; cycle 1.
    { rewrite Hself1. simpl. exact Hgrp. }
    { destruct Hf1 as [-> _]. exact Hreg. }
    eapply returns_weaken.
    { apply for_each_update with (g0 := gens w1 self) (F := strategy_set s);
        [|reflexivity].
      intros m w2 Hne Hself2.
      unfold returns. unfold bind at 1, get_gen, gets. rewrite Hself2, Hself1.
      destruct (set_strategy_local_ok m (make_strategy_instance s w2))
        as (a & w3 & Heq & HQ).
      exists a, w3. simpl strategy. rewrite Heq. auto. }
    intros _ w2 [Hg2 Hf2]. split; [|split].
    + rewrite Hg2, decide_True; auto.
    + intros j Hne. rewrite Hg2, decide_False by auto.
      rewrite iter_strategy_set, Hg1, upd_other by auto. simpl.
      case_bool_decide as Hin.
      * apply occ_pos in Hin. rewrite decide_False by lia. reflexivity.
      * rewrite decide_True; [reflexivity|].
        destruct (occ j members) eqn:E; [reflexivity|].
        exfalso. apply Hin, occ_pos. lia.
    + eauto using same_frame_trans.
  - unfold returns. rewrite for_group_off.
    exists tt, w1. split; [reflexivity|]. split; [exact Hself1|]. split; [|exact Hf1].
    intros j Hne. rewrite Hg1, upd_other by auto. reflexivity.
Qed.

(** C6: for a generator of a registered group, [set_strategy] with
    [as_group=True] gives every other member of the group the strategy
    instance it gives the target and clears each member's compiled
    function; with [as_group=False] the store of every other generator is
    unchanged.  In both cases the target gets the strategy and loses its
    compiled function, and no hook list or group changes. *)
Theorem set_strategy_group_propagation
    self arg as_group (w : World) name members s w0 l0 :
  group (gens w self) = Some name ->
  groups w !! name = Some members ->
  make_strategy arg w = (Ok s, w0, l0) ->
  exists w1,
    set_strategy self arg as_group w = (Ok tt, w1, []) /\
    strategy (gens w1 self) = s /\
    _compiled_func (gens w1 self) = None /\
    (as_group = true ->
       (forall m, m ∈ members ->
          strategy (gens w1 m) = s /\ _compiled_func (gens w1 m) = None) /\
       (forall j, j ∉ members -> j <> self -> gens w1 j = gens w j)) /\
    (as_group = false -> forall j, j <> self -> gens w1 j = gens w j) /\
    (forall j, hooks (gens w1 j) = hooks (gens w j) /\
               group (gens w1 j) = group (gens w j) /\
               func (gens w1 j) = func (gens w j)) /\
    groups w1 = groups w.
Proof.
  intros Hgrp Hreg Hmk.
  destruct (set_strategy_effect self as_group Hgrp Hreg Hmk)
    as ([] & w1 & Heq & Hself & Hoth & Hfr & _).
  exists w1. split; [exact Heq|].
  split; [rewrite Hself; reflexivity|].
  split; [rewrite Hself; reflexivity|].
  split; [|split; [|split]].
  - intros ->. split.
    + intros m Hin. destruct (decide (m = self)) as [->|Hne].
      * rewrite Hself. auto.
      * rewrite (Hoth m Hne). simpl. rewrite bool_decide_eq_true_2 by auto. auto.
    + intros j Hnin Hne. rewrite (Hoth j Hne). simpl.
      rewrite bool_decide_eq_false_2 by auto. reflexivity.
  - intros -> j Hne. rewrite (Hoth j Hne). reflexivity.
  - intros j. destruct (decide (j = self)) as [->|Hne].
    + rewrite Hself. auto.
    + rewrite (Hoth j Hne). destruct (as_group && _); auto.
  - exact Hfr.
Qed.

(** When the strategy argument is rejected nothing is changed. *)
Lemma set_strategy_rejected self {arg} as_group {w : World} {e w0 l0} :
  make_strategy arg w = (Raise e, w0, l0) ->
  set_strategy self arg as_group w = (Raise e, w, []).
Proof.
  intros Hmk. unfold set_strategy.
  apply bind_raise. exact (set_strategy_local_raise self Hmk).
Qed.

(** *** [deregister_hook] *)

Lemma same_hook_refl (h : Hook) : same_hook h h = true.
Proof. unfold same_hook. rewrite bool_decide_eq_true_2 by reflexivity. reflexivity. Qed.

Lemma same_hook_false (y h : Hook) : same_hook y h = false -> y <> h.
Proof. intros Hf ->. rewrite same_hook_refl in Hf. discriminate. Qed.

Lemma removals_pos (h : Hook) l : h ∈ l <-> 0 < removals h l.
Proof.
  induction l as [|y l IH]; simpl.
  - split; [intros H; inversion H | lia].
  - destruct (same_hook y h) eqn:Hy.
    + case_bool_decide as Hin; split; intros; try assumption; try contradiction; lia.
    + rewrite elem_of_cons, IH. apply same_hook_false in Hy.
      split; [intros [->|H]; [congruence|exact H] | auto].
Qed.

Lemma removals_list_remove (h : Hook) l :
  removals h (list_remove h l) = pred (removals h l).
Proof.
  induction l as [|y l IH]; simpl; [reflexivity|].
  destruct (same_hook y h) eqn:Hy.
  - case_bool_decide as Hin; [reflexivity|]. simpl.
    destruct (removals h l) eqn:E; [reflexivity|]. exfalso. apply Hin.
    apply elem_of_cons. right. apply removals_pos. lia.
  - simpl. rewrite Hy. exact IH.
Qed.

(** Among hooks of which none but [h] itself is equal to [h], the
    registrations of [h] are counted. *)
Lemma removals_plain (h : Hook) l :
  (forall y, y ∈ l -> same_hook y h = true -> y = h) ->
  removals h l = hcount h l.
Proof.
  induction l as [|y l IH]; intros Hplain; simpl; [reflexivity|].
  assert (IH' : removals h l = hcount h l).
  { apply IH. intros z Hz. apply Hplain. apply elem_of_cons. auto. }
  destruct (same_hook y h) eqn:Hy.
  - assert (y = h) as -> by (apply Hplain; [apply elem_of_cons; auto | exact Hy]).
    rewrite bool_decide_eq_true_2 by (apply elem_of_cons; auto).
    rewrite decide_True by reflexivity. rewrite IH'. reflexivity.
  - apply same_hook_false in Hy. rewrite decide_False by exact Hy. exact IH'.
Qed.

(** No event. *)
Local Abbreviation silent := ([] : list (event Val)).

Local Abbreviation dereg_loop self h members :=
  (for_each members
     (fun m => if decide (m = self) then ret tt else deregister_hook_local m h)
   : WM unit).

Lemma deregister_loop_ok self h members :
  forall w : World,
    ~ short_of_hook self h members w ->
    returns (dereg_loop self h members) w
      (fun _ w1 =>
         (forall j, gens w1 j =
                    if decide (j = self) then gens w j
                    else Nat.iter (occ j members) (hook_removed h) (gens w j))
         /\ same_frame w w1).
Proof.
  induction members as [|m rest IH]; intros w Hns.
  - apply returns_ret. split; [|apply same_frame_refl].
    intros j. simpl. case_decide; reflexivity.
  - simpl for_each. destruct (decide (m = self)) as [->|Hne].
    + unfold returns. rewrite bind_ret_l.
      assert (Hns1 : ~ short_of_hook self h rest w).
      { intros (j & Hj & Hlt). apply Hns. exists j. split; [exact Hj|].
        simpl. rewrite decide_False by congruence. exact Hlt. }
      destruct (IH w Hns1) as (a & w2 & Heq & Hg & Hf).
      exists a, w2. split; [exact Heq|]. split; [|exact Hf].
      intros j. rewrite Hg. simpl. repeat case_decide; subst; congruence.
    + assert (Hin : h ∈ hooks (gens w m)).
      { apply removals_pos. destruct (removals h (hooks (gens w m))) eqn:E; [|lia].
        exfalso. apply Hns. exists m. split; [exact Hne|].
        rewrite E. simpl. rewrite decide_True by reflexivity. lia. }
      eapply returns_bind; [apply (deregister_hook_local_ok m h w Hin)|].
      intros _ w1 (Hg1 & Hf1 & _).
      assert (Hns1 : ~ short_of_hook self h rest w1).
      { intros (j & Hj & Hlt). apply Hns. exists j. split; [exact Hj|].
        rewrite Hg1 in Hlt. simpl.
        destruct (decide (j = m)) as [->|Hjm].
        - rewrite decide_True by reflexivity.
          rewrite upd_same in Hlt. simpl in Hlt.
          rewrite removals_list_remove in Hlt. lia.
        - rewrite decide_False by congruence.
          rewrite upd_other in Hlt by exact Hjm. exact Hlt. }
      eapply returns_weaken; [apply (IH w1 Hns1)|].
      intros _ w2 [Hg2 Hf2]. split; [|eauto using same_frame_trans].
      intros j. rewrite Hg2, Hg1. simpl. unfold upd.
      repeat case_decide; subst; try congruence.
      rewrite Nat.iter_succ_r. reflexivity.
Qed.

Lemma deregister_loop_raise self h members :
  forall w : World,
    short_of_hook self h members w ->
    exists w1, dereg_loop self h members w = (Raise not_registered, w1, []).
Proof.
  induction members as [|m rest IH]; intros w (j & Hj & Hlt).
  - simpl in Hlt. lia.
  - simpl for_each. destruct (decide (m = self)) as [->|Hne].
    + rewrite bind_ret_l. apply IH. exists j. split; [exact Hj|].
      simpl in Hlt. rewrite decide_False in Hlt by congruence. exact Hlt.
    + destruct (decide (h ∈ hooks (gens w m))) as [Hin|Hnin].
      * destruct (deregister_hook_local_ok m h w Hin) as ([] & w1 & Heq & Hg1 & Hf1 & _).
        destruct (IH w1) as (w2 & Heq2).
        { exists j. split; [exact Hj|]. rewrite Hg1.
          simpl in Hlt. destruct (decide (j = m)) as [->|Hjm].
          - rewrite decide_True in Hlt by reflexivity.
            rewrite upd_same. simpl. rewrite removals_list_remove.
            apply removals_pos in Hin. lia.
          - rewrite decide_False in Hlt by congruence.
            rewrite upd_other by exact Hjm. exact Hlt. }
        exists w2. rewrite (bind_ok _ Heq), Heq2. reflexivity.
      * exists w. apply bind_raise. apply deregister_hook_local_raise. exact Hnin.
Qed.

Lemma short_of_hook_dec self h members (w : World) :
  short_of_hook self h members w \/ ~ short_of_hook self h members w.
Proof.
  destruct (decide (Exists (fun m => m <> self /\
              removals h (hooks (gens w m)) < occ m members) members)) as [Hex|Hnex].
  - left. apply Exists_exists in Hex. destruct Hex as (m & _ & Hm). exists m. exact Hm.
  - right. intros (m & Hne & Hlt). apply Hnex, Exists_exists.
    exists m. split; [|auto]. apply occ_pos. lia.
Qed.

Lemma short_of_hook_ext self h members (w w1 : World) :
  (forall j, j <> self -> hooks (gens w1 j) = hooks (gens w j)) ->
  short_of_hook self h members w1 <-> short_of_hook self h members w.
Proof.
  intros Hsame. split; intros (m & Hne & Hlt); exists m; split; auto.
  - rewrite <- (Hsame m Hne). exact Hlt.
  - rewrite (Hsame m Hne). exact Hlt.
Qed.

(** When [deregister_hook] raises "Hook was not registered.". *)
Lemma deregister_hook_cases self h as_group (w : World) :
  ((h ∉ hooks (gens w self)) /\
   deregister_hook self h as_group w = (Raise not_registered, w, silent))
  \/
  ((h ∈ hooks (gens w self)) /\
   exists w0,
     (forall j, gens w0 j = upd self (hook_removed h) (gens w) j) /\
     same_frame w w0 /\
     match as_group, group (gens w self) with
     | true, Some name =>
         match groups w !! name with
         | Some members =>
             (short_of_hook self h members w /\
              exists w1, deregister_hook self h as_group w = (Raise not_registered, w1, silent))
             \/
             (~ short_of_hook self h members w /\
              exists w1, deregister_hook self h as_group w = (Ok tt, w1, silent) /\
                (forall j, gens w1 j =
                   if decide (j = self) then gens w0 j
                   else Nat.iter (occ j members) (hook_removed h) (gens w j)) /\
                same_frame w w1)
         | None => deregister_hook self h as_group w = (Raise (KeyError name), w0, silent)
         end
     | _, _ => deregister_hook self h as_group w = (Ok tt, w0, silent)
     end).
Proof.
  destruct (decide (h ∈ hooks (gens w self))) as [Hin|Hnin].
  2:{ left. split; [exact Hnin|]. unfold deregister_hook.
      apply bind_raise, deregister_hook_local_raise, Hnin. }
  right. split; [exact Hin|].
  destruct (deregister_hook_local_ok self h w Hin) as ([] & w0 & Heq & Hg0 & Hf0 & _).
  exists w0. split; [exact Hg0|]. split; [exact Hf0|].
  assert (Hgrp0 : group (gens w0 self) = group (gens w self)).
  { rewrite Hg0, upd_same. reflexivity. }
  assert (Hhooks0 : forall j, j <> self -> hooks (gens w0 j) = hooks (gens w j)).
  { intros j Hne. rewrite Hg0, upd_other by exact Hne. reflexivity. }
  unfold deregister_hook. rewrite (bind_ok _ Heq).
  destruct as_group; [|rewrite for_group_off; reflexivity].
  destruct (group (gens w self)) as [name|] eqn:Hgrp;
    [|rewrite for_group_no_group by congruence; reflexivity].
  destruct (groups w !! name) as [members|] eqn:Hreg.
  2:{ rewrite (for_group_unregistered _ _ _ name); [reflexivity|congruence|].
      destruct Hf0 as [-> _]. exact Hreg. }
  rewrite (for_group_on _ _ _ name members);
    [|congruence|destruct Hf0 as [-> _]; exact Hreg].
  destruct (short_of_hook_dec self h members w) as [Hs|Hns].
  - left. split; [exact Hs|].
    destruct (deregister_loop_raise self h members w0) as (w1 & Heq1).
    { apply (short_of_hook_ext self h members w w0 Hhooks0). exact Hs. }
    exists w1. rewrite Heq1. reflexivity.
  - right. split; [exact Hns|].
    destruct (deregister_loop_ok self h members w0) as ([] & w1 & Heq1 & Hg1 & Hf1).
    { rewrite (short_of_hook_ext self h members w w0 Hhooks0). exact Hns. }
    exists w1. rewrite Heq1. split; [reflexivity|]. split.
    + intros j. rewrite Hg1. case_decide as Hj; [reflexivity|].
      rewrite Hg0, upd_other by exact Hj. reflexivity.
    + eauto using same_frame_trans.
Qed.

(** C8, as the code has it: [g.deregister_hook(h)] raises
    [ValueError("Hook was not registered.")] exactly when [h] is not in
    [g]'s hook list, or the call propagates to the group and some other
    member of the group is listed more often than [h] can be
    deregistered from it (in particular, when another member does not
    have [h] at all; among hooks that compare by identity [h] can be
    deregistered as often as the member has it).  When [h]
    is not in [g]'s own list the error is raised before anything is
    changed.  Without propagation ([as_group=False], or [g] in no group)
    the call raises if and only if [h] is not in [g]'s hook list. *)
Theorem deregister_hook_error_iff self h as_group (w : World) :
  ((exists w1, deregister_hook self h as_group w = (Raise not_registered, w1, silent))
   <-> ((h ∉ hooks (gens w self)) \/
        (as_group = true /\
         exists name members,
           group (gens w self) = Some name /\
           groups w !! name = Some members /\
           short_of_hook self h members w)))
  /\ ((h ∉ hooks (gens w self)) ->
      deregister_hook self h as_group w = (Raise not_registered, w, silent))
  /\ ((as_group = false \/ group (gens w self) = None) ->
      ((exists e w1 (l : list (event Val)),
           deregister_hook self h as_group w = (Raise e, w1, l))
       <-> (h ∉ hooks (gens w self)))).
Proof.
  destruct (deregister_hook_cases self h as_group w)
    as [[Hnin Heq]|(Hin & w0 & Hg0 & Hf0 & Hcase)].
  - split; [|split].
    + split; [intros _; left; exact Hnin | intros _; exists w; exact Heq].
    + intros _. exact Heq.
    + intros _. split; [intros _; exact Hnin|].
      intros _. exists not_registered, w, silent. exact Heq.
  - split; [|split].
    + split.
      * intros (w1 & Heq). right.
        destruct as_group; [|rewrite Heq in Hcase; discriminate Hcase].
        split; [reflexivity|].
        destruct (group (gens w self)) as [name|];
          [|rewrite Heq in Hcase; discriminate Hcase].
        destruct (groups w !! name) as [members|] eqn:Hreg;
          [|rewrite Heq in Hcase; discriminate Hcase].
        exists name, members. split; [reflexivity|]. split; [exact Hreg|].
        destruct Hcase as [[Hs _]|(_ & w2 & Heq2 & _)]; [exact Hs|].
        rewrite Heq in Heq2. discriminate Heq2.
      * intros [Hnin|(-> & name & members & Hgrp & Hreg & Hs)]; [contradiction|].
        rewrite Hgrp, Hreg in Hcase.
        destruct Hcase as [[_ Hex]|[Hns _]]; [exact Hex | contradiction].
    + intros Hnin. contradiction.
    + intros Hlocal. split; [|intros Hnin; contradiction].
      intros (e & w1 & l & Heq). exfalso.
      destruct Hlocal as [->| Hnone].
      * rewrite Heq in Hcase. discriminate Hcase.
      * rewrite Hnone in Hcase. destruct as_group; rewrite Heq in Hcase; discriminate Hcase.
Qed.

(** *** The compiled function as a cache *)

Lemma invalidates_refl w : invalidates w w.
Proof. intros j. left. reflexivity. Qed.

Lemma invalidates_trans w1 w2 w3 :
  invalidates w1 w2 -> invalidates w2 w3 -> invalidates w1 w3.
Proof.
  intros H12 H23 j. destruct (H23 j) as [E|E]; [rewrite E; apply H12 | right; exact E].
Qed.

Lemma invalidates_upd (F : Generator -> Generator) m (w w1 : World) :
  (forall g, _compiled_func (F g) = None) ->
  (forall j, gens w1 j = upd m F (gens w) j) ->
  invalidates w w1.
Proof.
  intros HF Hg j. rewrite Hg. unfold upd. case_decide; [right; apply HF | left; reflexivity].
Qed.

Lemma set_strategy_local_invalidates m arg :
  preserves invalidates (set_strategy_local m arg : WM unit).
Proof.
  intros w r w1 l Heq.
  destruct (make_strategy arg w) as [[[s|e] w0] l0] eqn:Hmk.
  - destruct (set_strategy_local_ok m Hmk) as (a & w2 & Heq2 & Hg & _).
    rewrite Heq2 in Heq. inversion Heq; subst.
    eapply invalidates_upd; [|exact Hg]. reflexivity.
  - rewrite (set_strategy_local_raise m Hmk) in Heq. inversion Heq; subst.
    apply invalidates_refl.
Qed.

Lemma register_hooks_local_invalidates m hs :
  preserves invalidates (register_hooks_local m hs : WM unit).
Proof.
  intros w r w1 l Heq.
  destruct (register_hooks_local_ok m hs w) as (a & w2 & Heq2 & Hg & _).
  rewrite Heq2 in Heq. inversion Heq; subst.
  eapply invalidates_upd; [|exact Hg]. reflexivity.
Qed.

Lemma deregister_hook_local_invalidates m h :
  preserves invalidates (deregister_hook_local m h : WM unit).
Proof.
  intros w r w1 l Heq.
  destruct (decide (h ∈ hooks (gens w m))) as [Hin|Hnin].
  - destruct (deregister_hook_local_ok m h w Hin) as (a & w2 & Heq2 & Hg & _).
    rewrite Heq2 in Heq. inversion Heq; subst.
    eapply invalidates_upd; [|exact Hg]. reflexivity.
  - rewrite (deregister_hook_local_raise m h w Hnin) in Heq. inversion Heq; subst.
    apply invalidates_refl.
Qed.

Lemma get_group_by_name_preserves (R : World -> World -> Prop) name :
  (forall w, R w w) -> preserves R (get_group_by_name name : WM _).
Proof.
  intros Hrefl w r w1 l. unfold get_group_by_name.
  destruct (groups w !! name); intros Heq; inversion Heq; subst; apply Hrefl.
Qed.

Lemma for_group_preserves (R : World -> World -> Prop) self as_group (body : GenRef -> WM unit) :
  (forall w, R w w) -> (forall w1 w2 w3, R w1 w2 -> R w2 w3 -> R w1 w3) ->
  (forall m, m <> self -> preserves R (body m)) ->
  preserves R (for_group self as_group body).
Proof.
  intros Hrefl Htrans Hbody. unfold for_group.
  apply preserves_bind; [exact Htrans | apply preserves_gets; exact Hrefl |].
  intros g. destruct as_group; [|apply preserves_ret; exact Hrefl].
  destruct (group g) as [name|]; [|apply preserves_ret; exact Hrefl].
  apply preserves_bind; [exact Htrans | apply get_group_by_name_preserves; exact Hrefl |].
  intros members. apply preserves_for_each; [exact Hrefl | exact Htrans |].
  intros m. case_decide; [apply preserves_ret; exact Hrefl | apply Hbody; assumption].
Qed.

Lemma set_strategy_invalidates self arg as_group :
  preserves invalidates (set_strategy self arg as_group : WM unit).
Proof.
  unfold set_strategy.
  apply preserves_bind; [exact invalidates_trans | apply set_strategy_local_invalidates |].
  intros _. apply for_group_preserves;
    [exact invalidates_refl | exact invalidates_trans |].
  intros m _. apply preserves_bind;
    [exact invalidates_trans | apply preserves_gets; exact invalidates_refl |].
  intros me. apply set_strategy_local_invalidates.
Qed.

Lemma register_hooks_invalidates self hs as_group :
  preserves invalidates (register_hooks self hs as_group : WM unit).
Proof.
  unfold register_hooks.
  apply preserves_bind; [exact invalidates_trans | apply register_hooks_local_invalidates |].
  intros _. apply for_group_preserves;
    [exact invalidates_refl | exact invalidates_trans |].
  intros m _. apply register_hooks_local_invalidates.
Qed.

Lemma deregister_hook_invalidates self h as_group :
  preserves invalidates (deregister_hook self h as_group : WM unit).
Proof.
  unfold deregister_hook.
  apply preserves_bind; [exact invalidates_trans | apply deregister_hook_local_invalidates |].
  intros _. apply for_group_preserves;
    [exact invalidates_refl | exact invalidates_trans |].
  intros m _. apply deregister_hook_local_invalidates.
Qed.

(** A successful call of a mutator leaves its target without a compiled
    function. *)
Lemma mutator_clears_target (local : WM unit) self as_group (body : GenRef -> WM unit)
    (w w1 : World) l :
  preserves invalidates local ->
  (forall w w0 l0, local w = (Ok tt, w0, l0) -> _compiled_func (gens w0 self) = None) ->
  (forall m, m <> self -> preserves invalidates (body m)) ->
  bind local (fun _ => for_group self as_group body) w = (Ok tt, w1, l) ->
  _compiled_func (gens w1 self) = None.
Proof.
  intros Hloc Hclear Hbody Heq.
  apply bind_inv_ok in Heq. destruct Heq as ([] & w0 & l1 & l2 & Hl & Hg & _).
  pose proof (Hclear _ _ _ Hl) as Hnone.
  assert (Hinv : invalidates w0 w1).
  { eapply (for_group_preserves invalidates self as_group body
              invalidates_refl invalidates_trans Hbody). exact Hg. }
  destruct (Hinv self) as [E|E]; [rewrite E; exact Hnone | exact E].
Qed.

End Store.

(** ** [generate] *)

Section Enumeration.

Context {Val St : Type} {EXT : Externals Val St}.

Local Abbreviation World := (World St).
Local Abbreviation WM := (WM Val St).
Local Abbreviation Generator := (Generator St).
Local Abbreviation event := (event Val).
Local Abbreviation silent := ([] : list event).
Local Abbreviation Iter := (Iter Val).
Local Abbreviation outcome := (outcome Val).
Local Abbreviation loop_exit := (loop_exit Val).
Local Abbreviation finish_run_events := (finish_run_events (Val := Val)).
Local Abbreviation finish_events := (finish_events (Val := Val)).
Local Abbreviation compiles_only := (compiles_only (St := St)).
Local Abbreviation prepend := (prepend (Val := Val) (St := St)).
Local Abbreviation next_result := (next_result (Val := Val) (St := St)).
Local Abbreviation bracketed_runs := (bracketed_runs (Val := Val)).

Lemma bind_prepend {A B} (m : WM A) (f : A -> WM B) w a w1 l1 :
  m w = (Ok a, w1, l1) -> bind m f w = prepend l1 (f a w1).
Proof. intros H. rewrite (bind_ok _ H). destruct (f a w1) as [[r s2] l2]. reflexivity. Qed.

Lemma prepend_nil {A} (x : A * World * list event) : prepend [] x = x.
Proof. destruct x as [[r w] l]. reflexivity. Qed.

Lemma prepend_prepend {A} l1 l2 (x : A * World * list event) :
  prepend l1 (prepend l2 x) = prepend (l1 ++ l2) x.
Proof. destruct x as [[r w] l]. simpl. rewrite app_assoc. reflexivity. Qed.

Lemma hooks_call_eq self (ev : Hook -> event) (w : World) :
  hooks_call self ev w = (Ok tt, w, map ev (hooks (gens w self))).
Proof.
  unfold hooks_call. rewrite (bind_prepend _ _ _ _ _ _ (eq_refl : get_gen self w = (Ok _, w, []))).
  rewrite for_each_emit. reflexivity.
Qed.

Lemma self_strategy_call_eq self f (ev : nat -> event) (w : World) :
  self_strategy_call self f ev w =
  (Ok tt, set_heap (f (methods_of w self) (heap w)) w, [ev (addr_of w self)]).
Proof. reflexivity. Qed.

Lemma self_is_finished_eq self (w : World) :
  self_is_finished self w = (Ok (m_is_finished (methods_of w self) (heap w)), w, silent).
Proof. reflexivity. Qed.

Lemma after_run_eq self (w : World) :
  after_run self w =
  (Ok tt, set_heap (m_finish_run (methods_of w self) (heap w)) w,
   finish_run_events (hooks (gens w self)) (addr_of w self)).
Proof.
  unfold after_run. rewrite (bind_prepend _ _ _ _ _ _ (self_strategy_call_eq _ _ _ _)).
  rewrite hooks_call_eq. reflexivity.
Qed.

(** The call of the compiled function only moves the strategy state. *)
Lemma invoke_compiled_eq self args (w : World) :
  invoke_compiled self args w =
  match _compiled_func (gens w self) with
  | Some c =>
      match call_compiled c args (heap w) with
      | (r, s, l) => (r, set_heap s w, map OpEvent l)
      end
  | None => (Raise (TypeError "'NoneType' object is not callable"), w, silent)
  end.
Proof.
  unfold invoke_compiled.
  rewrite (bind_prepend _ _ _ _ _ _ (eq_refl : get_gen self w = (Ok _, w, []))).
  destruct (_compiled_func (gens w self)) as [c|]; [|reflexivity].
  unfold lift_op. destruct (call_compiled c args (heap w)) as [[r s] l]. reflexivity.
Qed.

Lemma invoke_compiled_gens {self args} {w : World} {r w1 l} :
  invoke_compiled self args w = (r, w1, l) ->
  gens w1 = gens w /\ groups w1 = groups w /\ next_addr w1 = next_addr w.
Proof.
  rewrite invoke_compiled_eq. destruct (_compiled_func (gens w self)) as [c|].
  - destruct (call_compiled c args (heap w)) as [[r0 s] l0].
    intros Heq. inversion Heq; subst. auto.
  - intros Heq. inversion Heq; subst. auto.
Qed.

(** One turn of the loop of [generate]. *)
Lemma generate_loop_step self args k (w : World) :
  generate_loop self args (S k) w =
  let hs := hooks (gens w self) in
  let a := addr_of w self in
  let ms := methods_of w self in
  if m_is_finished ms (heap w) then
    (Ok LStop, set_heap (m_finish ms (heap w)) w, finish_events hs a)
  else
    match invoke_compiled self args (set_heap (m_init_run ms (heap w)) w) with
    | (Ok v, w2, l) => (Ok (LYield v), w2, init_run_events hs a args ++ l)
    | (Raise e, w2, l) =>
        if is_continue e then
          prepend (init_run_events hs a args ++ l ++ finish_run_events hs a)
            (generate_loop self args k (set_heap (m_finish_run ms (heap w2)) w2))
        else (Raise e, w2, init_run_events hs a args ++ l)
    end.
Proof.
  cbv zeta. simpl generate_loop.
  rewrite (bind_prepend _ _ _ _ _ _ (self_is_finished_eq self w)), prepend_nil.
  destruct (m_is_finished (methods_of w self) (heap w)).
  - rewrite (bind_prepend _ _ _ _ _ _ (self_strategy_call_eq _ _ _ _)).
    rewrite (bind_prepend _ _ _ _ _ _ (hooks_call_eq _ _ _)).
    unfold ret, prepend, finish_events. rewrite app_nil_r. reflexivity.
  - rewrite (bind_prepend _ _ _ _ _ _ (hooks_call_eq _ _ _)).
    rewrite (bind_prepend _ _ _ _ _ _ (self_strategy_call_eq _ _ _ _)).
    rewrite prepend_prepend. fold (init_run_events (hooks (gens w self)) (addr_of w self) args).
    set (w1 := set_heap _ w).
    change (hooks (gens w self)) with (hooks (gens w1 self)) at 1.
    destruct (invoke_compiled self args w1) as [[[v|e] w2] l] eqn:Hinv.
    + assert (Hex : except_continue (invoke_compiled self args) w1 = (Ok (Some v), w2, l)).
      { unfold except_continue. rewrite Hinv. reflexivity. }
      rewrite (bind_prepend _ _ _ _ _ _ Hex).
      unfold ret, prepend. rewrite app_nil_r. reflexivity.
    + destruct (invoke_compiled_gens Hinv) as (Hg & _).
      destruct (is_continue e) eqn:Hc.
      * assert (Hex : except_continue (invoke_compiled self args) w1 = (Ok None, w2, l)).
        { unfold except_continue. rewrite Hinv, Hc. reflexivity. }
        rewrite (bind_prepend _ _ _ _ _ _ Hex).
        rewrite (bind_prepend _ _ _ _ _ _ (after_run_eq self w2)).
        rewrite !prepend_prepend.
        unfold methods_of, addr_of, strategy_of. rewrite Hg.
        rewrite <- !app_assoc. reflexivity.
      * assert (Hex : except_continue (invoke_compiled self args) w1 = (Raise e, w2, l)).
        { unfold except_continue. rewrite Hinv, Hc. reflexivity. }
        rewrite (bind_raise _ Hex). reflexivity.
Qed.

(** *** A [next] up to the end of its first run *)

Lemma generate_body_resume fuel it (w : World) :
  it_pc it <> PDone ->
  generate_body fuel it w =
  match generate_resume it w with
  | (Ok _, w0, l0) => prepend l0 (generate_loop (it_self it) (it_args it) fuel w0)
  | (Raise e, w0, l0) => (Raise e, w0, l0)
  end.
Proof.
  intros Hpc. unfold generate_body.
  destruct (generate_resume it w) as [[[[]|e] w0] l0] eqn:Hres;
    destruct (it_pc it); try congruence;
    first [rewrite (bind_prepend _ _ _ _ _ _ Hres) | rewrite (bind_raise _ Hres)];
    reflexivity.
Qed.

Lemma generate_next_done fuel it (w : World) :
  it_pc it = PDone ->
  generate_next fuel it w = (StopIteration, set_pc PDone it, w, silent).
Proof. intros Hpc. unfold generate_next, generate_body. rewrite Hpc. reflexivity. Qed.

Lemma generate_next_result fuel it (w : World) :
  generate_next fuel it w = next_result it (generate_body fuel it w).
Proof.
  unfold generate_next, next_result.
  destruct (generate_body fuel it w) as [[[[v| |]|e] w1] l]; reflexivity.
Qed.

Lemma next_result_prepend it l0 x o it1 w1 l1 :
  o <> OutOfFuel ->
  next_result (set_pc PSuspended it) x = (o, it1, w1, l1) ->
  next_result it (prepend l0 x) = (o, it1, w1, l0 ++ l1).
Proof.
  destruct x as [[[[v| |]|e] w2] l]; simpl; intros Ho Heq;
    inversion Heq; subst; try congruence; reflexivity.
Qed.

Lemma is_continue_true e : is_continue e = true <-> e = ExceptionAsContinue.
Proof. destruct e; simpl; split; congruence. Qed.

Lemma is_continue_false e : is_continue e = false <-> e <> ExceptionAsContinue.
Proof. destruct e; simpl; split; congruence. Qed.

(** No exception that leaves the loop of [generate] is the skip signal. *)
Lemma generate_loop_never_raises_continue self args fuel :
  forall (w : World) e w1 l,
    generate_loop self args fuel w = (Raise e, w1, l) -> e <> ExceptionAsContinue.
Proof.
  induction fuel as [|k IH]; intros w e w1 l.
  - simpl. unfold ret. discriminate.
  - rewrite generate_loop_step. cbv zeta.
    destruct (m_is_finished _ _); [discriminate|].
    destruct (invoke_compiled _ _ _) as [[[v|e0] w2] l2]; [discriminate|].
    destruct (is_continue e0) eqn:Hc.
    + destruct (generate_loop self args k _) as [[r3 w3] l3] eqn:Hloop.
      simpl. intros Heq. inversion Heq; subst. eapply IH; eauto.
    + intros Heq. inversion Heq; subst. apply is_continue_false. exact Hc.
Qed.

Lemma after_run_gens self (w : World) r w1 (l : list event) :
  after_run self w = (r, w1, l) ->
  r = Ok tt /\ gens w1 = gens w /\ groups w1 = groups w /\ next_addr w1 = next_addr w.
Proof. rewrite after_run_eq. intros Heq. inversion Heq; subst. auto. Qed.

Lemma generate_body_at_run fuel {it} {w w0 : World} {l0 r w2 l} :
  run_at it w w0 l0 r w2 l ->
  generate_body (S fuel) it w =
  match r with
  | Ok v => (Ok (LYield v), w2, run_events it w0 l0 l)
  | Raise e =>
      if is_continue e then
        prepend (run_events it w0 l0 l
                 ++ finish_run_events (hooks (gens w0 (it_self it))) (addr_of w0 (it_self it)))
          (generate_loop (it_self it) (it_args it) fuel
             (set_heap (m_finish_run (methods_of w0 (it_self it)) (heap w2)) w2))
      else (Raise e, w2, run_events it w0 l0 l)
  end.
Proof.
  intros (Hpc & Hres & Hfin & Hinv).
  rewrite (generate_body_resume _ _ _ Hpc), Hres, generate_loop_step. cbv zeta.
  rewrite Hfin, Hinv. unfold run_events.
  destruct r as [v|e]; [reflexivity|].
  destruct (is_continue e); [|reflexivity].
  rewrite prepend_prepend. rewrite <- !app_assoc. reflexivity.
Qed.

(** Resuming a suspended iterator in the store a run left. *)
Lemma generate_body_suspended fuel it (w0 w2 : World) :
  gens w2 = gens w0 ->
  generate_body fuel (set_pc PSuspended it) w2 =
  prepend (finish_run_events (hooks (gens w0 (it_self it))) (addr_of w0 (it_self it)))
    (generate_loop (it_self it) (it_args it) fuel
       (set_heap (m_finish_run (methods_of w0 (it_self it)) (heap w2)) w2)).
Proof.
  intros Hg. rewrite generate_body_resume by (simpl; congruence).
  change (generate_resume (set_pc PSuspended it))
    with (after_run (it_self it) : WM unit).
  rewrite after_run_eq. simpl it_self. simpl it_args.
  unfold methods_of, addr_of, strategy_of. rewrite Hg. reflexivity.
Qed.

(** *** What [generate] leaves alone *)

Lemma generate_loop_gens self args fuel :
  forall (w : World) r w1 l,
    generate_loop self args fuel w = (r, w1, l) ->
    gens w1 = gens w /\ groups w1 = groups w /\ next_addr w1 = next_addr w.
Proof.
  induction fuel as [|k IH]; intros w r w1 l.
  - simpl. unfold ret. intros Heq. inversion Heq; subst. auto.
  - rewrite generate_loop_step. cbv zeta.
    destruct (m_is_finished _ _).
    { intros Heq. inversion Heq; subst. auto. }
    destruct (invoke_compiled _ _ _) as [[[v|e0] w2] l2] eqn:Hinv;
      destruct (invoke_compiled_gens Hinv) as (Hg & Hr & Hn); simpl in Hg, Hr, Hn.
    { intros Heq. inversion Heq; subst. auto. }
    destruct (is_continue e0).
    + destruct (generate_loop self args k _) as [[r3 w3] l3] eqn:Hloop.
      simpl. intros Heq. inversion Heq; subst.
      destruct (IH _ _ _ _ Hloop) as (Hg3 & Hr3 & Hn3). simpl in Hg3, Hr3, Hn3.
      repeat split; congruence.
    + intros Heq. inversion Heq; subst. auto.
Qed.

Lemma ensure_compiled_eq self (w : World) :
  ensure_compiled self w =
  match _compiled_func (gens w self) with
  | Some _ => (Ok tt, w, silent)
  | None =>
      match compile_error (func (gens w self)) (strategy (gens w self)) with
      | Some e => (Raise e, w, silent)
      | None =>
          (Ok tt,
           set_gens (upd self (with_compiled_func (Some (compiled_now w self))) (gens w)) w,
           silent)
      end
  end.
Proof.
  unfold ensure_compiled, bind, get_gen, gets, compile_func.
  destruct (_compiled_func (gens w self)); [reflexivity|].
  destruct (compile_error _ _); reflexivity.
Qed.

Lemma compiles_only_same self (w w1 : World) :
  gens w1 = gens w -> groups w1 = groups w -> next_addr w1 = next_addr w ->
  compiles_only self w w1.
Proof. intros Hg Hr Hn. repeat split; auto. intros j. left. rewrite Hg. reflexivity. Qed.

Lemma generate_resume_frame it (w : World) r w0 l0 :
  generate_resume it w = (r, w0, l0) -> compiles_only (it_self it) w w0.
Proof.
  unfold generate_resume. destruct (it_pc it).
  - unfold generate_prologue. unfold bind at 1. rewrite ensure_compiled_eq.
    destruct (_compiled_func (gens w (it_self it))) eqn:Hc.
    + rewrite (bind_prepend _ _ _ _ _ _ (hooks_call_eq _ _ _)), self_strategy_call_eq.
      simpl. intros Heq. inversion Heq; subst. apply compiles_only_same; reflexivity.
    + destruct (compile_error _ _).
      * intros Heq. inversion Heq; subst. apply compiles_only_same; reflexivity.
      * rewrite (bind_prepend _ _ _ _ _ _ (hooks_call_eq _ _ _)), self_strategy_call_eq.
        simpl. intros Heq. inversion Heq; subst.
        repeat split; auto. intros j. simpl. unfold upd.
        case_decide; [subst j; right; auto | left; reflexivity].
  - intros Heq. destruct (after_run_gens _ _ _ _ _ Heq) as (_ & Hg & Hr & Hn).
    apply compiles_only_same; assumption.
  - unfold ret. intros Heq. inversion Heq; subst. apply compiles_only_same; reflexivity.
Qed.

Lemma generate_next_frame fuel it (w : World) o it1 w1 l :
  generate_next fuel it w = (o, it1, w1, l) ->
  compiles_only (it_self it) w w1 /\ it_self it1 = it_self it /\ it_args it1 = it_args it.
Proof.
  rewrite generate_next_result.
  assert (Hcases : it_pc it = PDone \/ it_pc it <> PDone)
    by (destruct (it_pc it); auto; right; discriminate).
  destruct Hcases as [Hd|Hpc].
  { unfold generate_body. rewrite Hd. unfold ret. simpl. intros Heq. inversion Heq; subst.
    split; [apply compiles_only_same; reflexivity | auto]. }
  rewrite (generate_body_resume _ _ _ Hpc).
  destruct (generate_resume it w) as [[[[]|e] w0] l0] eqn:Hres;
    pose proof (generate_resume_frame _ _ _ _ _ Hres) as Hfr.
  - destruct (generate_loop (it_self it) (it_args it) fuel w0) as [[r w2] l2] eqn:Hloop.
    destruct (generate_loop_gens _ _ _ _ _ _ _ Hloop) as (Hg & Hr & Hn).
    assert (Hfr2 : compiles_only (it_self it) w w2).
    { destruct Hfr as (Hr0 & Hn0 & Hg0). repeat split; try congruence.
      intros j. rewrite Hg. apply Hg0. }
    destruct r as [[v| |]|e]; simpl; intros Heq; inversion Heq; subst; auto.
  - simpl. intros Heq. inversion Heq; subst. auto.
Qed.

(** *** Runs that raise *)

Lemma invoke_compiled_events {self args} {w : World} {r w2 l} :
  invoke_compiled self args w = (r, w2, l) ->
  exists ops : list (op_event Val), l = map OpEvent ops.
Proof.
  rewrite invoke_compiled_eq. destruct (_compiled_func (gens w self)) as [c|].
  - destruct (call_compiled c args (heap w)) as [[r0 s] l0].
    intros Heq. inversion Heq; subst. exists l0. reflexivity.
  - intros Heq. inversion Heq; subst. exists []. reflexivity.
Qed.

Lemma failed_run_aborts
    fuel {it} {w w0 : World} {l0 e w2 l} :
  run_at it w w0 l0 (Raise e) w2 l ->
  e <> ExceptionAsContinue ->
  generate_next (S fuel) it w
  = (Raised (out_of_generator e), set_pc PDone it, w2, run_events it w0 l0 l)
  /\ (forall fuel1 (w3 : World),
        generate_next fuel1 (set_pc PDone it) w3
        = (StopIteration, set_pc PDone it, w3, silent)).
Proof.
  intros Hrun Hne. pose proof (generate_body_at_run fuel Hrun) as Hbody.
  cbv beta iota in Hbody. apply is_continue_false in Hne. rewrite Hne in Hbody.
  split.
  - rewrite generate_next_result, Hbody. reflexivity.
  - intros fuel1 w3. rewrite generate_next_done by reflexivity. reflexivity.
Qed.

(** C9: when a run raises the skip signal, the [next] in progress goes on
    with [strategy.finish_run()] and every hook's [finish_run()], in that
    order, before it returns to the loop test; when a run raises anything
    else, that [next] ends with the exception, as it leaves the generator,
    right after the events of the run (no [finish_run] and no [finish] is
    called, the strategy state is the one the run left), and every later
    [next] stops at once without calling anything. *)
Theorem skipped_run_is_closed_and_failed_run_is_not
    fuel it (w w0 : World) l0 e w2 l :
  run_at it w w0 l0 (Raise e) w2 l ->
  let self := it_self it in
  let hs := hooks (gens w0 self) in
  let a := addr_of w0 self in
  (e = ExceptionAsContinue ->
     generate_body (S fuel) it w =
     prepend (run_events it w0 l0 l ++ StrategyFinishRun a :: map HookFinishRun hs)
       (generate_loop self (it_args it) fuel
          (set_heap (m_finish_run (methods_of w0 self) (heap w2)) w2)))
  /\
  (e <> ExceptionAsContinue ->
     generate_next (S fuel) it w
     = (Raised (out_of_generator e), set_pc PDone it, w2, run_events it w0 l0 l)
     /\ (exists ops : list (op_event Val), l = map OpEvent ops)
     /\ (forall fuel1 (w3 : World),
           generate_next fuel1 (set_pc PDone it) w3
           = (StopIteration, set_pc PDone it, w3, silent))).
Proof.
  intros Hrun. cbv zeta. pose proof (generate_body_at_run fuel Hrun) as Hbody.
  cbv beta iota in Hbody. split.
  - intros ->. exact Hbody.
  - intros Hne. apply is_continue_false in Hne. rewrite Hne in Hbody.
    split; [|split].
    + rewrite generate_next_result, Hbody. reflexivity.
    + destruct Hrun as (_ & _ & _ & Hinv). exact (invoke_compiled_events Hinv).
    + intros fuel1 w3. rewrite generate_next_done by reflexivity. reflexivity.
Qed.

(** The skip signal of a run is handled inside the [next] that made the
    run: that [next] ends as the [next] of an iterator suspended in the
    store the run left ends, with the events of the skipped run in front. *)
Lemma skipped_run_continues fuel {it} {w w0 : World} {l0 e w2 l} :
  run_at it w w0 l0 (Raise e) w2 l ->
  e = ExceptionAsContinue ->
  forall o it1 w3 l3,
    o <> OutOfFuel ->
    generate_next fuel (set_pc PSuspended it) w2 = (o, it1, w3, l3) ->
    generate_next (S fuel) it w = (o, it1, w3, run_events it w0 l0 l ++ l3).
Proof.
  intros Hrun -> o it1 w3 l3 Ho.
  pose proof (generate_body_at_run fuel Hrun) as Hbody. simpl is_continue in Hbody.
  cbv beta iota in Hbody.
  destruct Hrun as (_ & _ & _ & Hinv).
  destruct (invoke_compiled_gens Hinv) as (Hg & _). simpl in Hg.
  rewrite !generate_next_result, Hbody, (generate_body_suspended fuel it w0 w2 Hg).
  rewrite <- prepend_prepend.
  apply next_result_prepend. exact Ho.
Qed.

(** A run that returns suspends the iterator in the store the run left. *)
Lemma returned_run_yields fuel it (w w0 : World) l0 v w2 l :
  run_at it w w0 l0 (Ok v) w2 l ->
  generate_next (S fuel) it w = (Yield v, set_pc PSuspended it, w2, run_events it w0 l0 l).
Proof.
  intros Hrun. rewrite generate_next_result, (generate_body_at_run fuel Hrun). reflexivity.
Qed.

(** *** The events of a whole enumeration *)

Lemma bracketed_runs_app hs a args r1 r2 :
  bracketed_runs hs a args (r1 ++ r2)
  = bracketed_runs hs a args r1 ++ bracketed_runs hs a args r2.
Proof. unfold bracketed_runs. rewrite map_app, concat_app. reflexivity. Qed.

Lemma bracketed_runs_cons hs a args ops runs :
  bracketed_runs hs a args (ops :: runs)
  = (init_run_events hs a args ++ map OpEvent ops ++ finish_run_events hs a)
    ++ bracketed_runs hs a args runs.
Proof. reflexivity. Qed.

(** What the loop has emitted when it leaves: closed runs, then either the
    final calls or a run that is still open at its [yield]; closed runs
    only when it has not left within the given number of turns. *)
Lemma generate_loop_shape self args fuel :
  forall (w : World) x w1 l,
    generate_loop self args fuel w = (Ok x, w1, l) ->
    let hs := hooks (gens w self) in
    let a := addr_of w self in
    match x with
    | LStop =>
        exists runs, l = bracketed_runs hs a args runs ++ finish_events hs a
    | LYield v =>
        exists runs ops,
          l = bracketed_runs hs a args runs ++ init_run_events hs a args ++ map OpEvent ops
    | LFuel => exists runs, l = bracketed_runs hs a args runs
    end.
Proof.
  induction fuel as [|k IH]; intros w x w1 l.
  - simpl. unfold ret. intros Heq. inversion Heq; subst. exists []. reflexivity.
  - rewrite generate_loop_step. cbv zeta.
    destruct (m_is_finished _ _).
    { intros Heq. inversion Heq; subst. exists []. reflexivity. }
    destruct (invoke_compiled _ _ _) as [[[v|e0] w2] l2] eqn:Hinv;
      destruct (invoke_compiled_gens Hinv) as (Hg & _); simpl in Hg;
      destruct (invoke_compiled_events Hinv) as (ops & ->).
    { intros Heq. inversion Heq; subst. exists [], ops. reflexivity. }
    destruct (is_continue e0); [|discriminate].
    destruct (generate_loop self args k _) as [[r3 w3] l3] eqn:Hloop.
    simpl. intros Heq. inversion Heq; subst.
    pose proof (IH _ _ _ _ Hloop) as Hsh. cbv zeta in Hsh.
    unfold addr_of, strategy_of in Hsh. simpl gens in Hsh. rewrite Hg in Hsh.
    simpl gens in Hsh. fold (strategy_of w self) in Hsh. fold (addr_of w self) in Hsh.
    destruct x as [v| |].
    + destruct Hsh as (runs & ops2 & ->). exists (ops :: runs), ops2.
      rewrite bracketed_runs_cons, <- !app_assoc. reflexivity.
    + destruct Hsh as (runs & ->). exists (ops :: runs).
      rewrite bracketed_runs_cons, <- !app_assoc. reflexivity.
    + destruct Hsh as (runs & ->). exists (ops :: runs).
      rewrite bracketed_runs_cons, <- !app_assoc. reflexivity.
Qed.

Lemma generate_loop_shape_raise self args fuel :
  forall (w : World) e w1 l,
    generate_loop self args fuel w = (Raise e, w1, l) ->
    exists runs ops,
      l = bracketed_runs (hooks (gens w self)) (addr_of w self) args runs
          ++ init_run_events (hooks (gens w self)) (addr_of w self) args
          ++ map OpEvent ops.
Proof.
  induction fuel as [|k IH]; intros w e w1 l.
  - simpl. unfold ret. discriminate.
  - rewrite generate_loop_step. cbv zeta.
    destruct (m_is_finished _ _); [discriminate|].
    destruct (invoke_compiled _ _ _) as [[[v|e0] w2] l2] eqn:Hinv;
      destruct (invoke_compiled_gens Hinv) as (Hg & _); simpl in Hg;
      destruct (invoke_compiled_events Hinv) as (ops & ->); [discriminate|].
    destruct (is_continue e0).
    + destruct (generate_loop self args k _) as [[r3 w3] l3] eqn:Hloop.
      simpl. intros Heq. inversion Heq; subst.
      destruct (IH _ _ _ _ Hloop) as (runs & ops2 & ->).
      unfold addr_of, strategy_of. simpl gens. rewrite Hg. simpl gens.
      fold (strategy_of w self). fold (addr_of w self).
      exists (ops :: runs), ops2.
      rewrite bracketed_runs_cons, <- !app_assoc. reflexivity.
    + intros Heq. inversion Heq; subst. exists [], ops. reflexivity.
Qed.

Lemma compiles_only_config self (w w1 : World) :
  compiles_only self w w1 ->
  hooks (gens w1 self) = hooks (gens w self) /\
  strategy (gens w1 self) = strategy (gens w self).
Proof.
  intros (_ & _ & Hg). destruct (Hg self) as [->|(_ & _ & ->)]; auto.
Qed.

Lemma set_pc_suspended_id (it : Iter) :
  it_pc it = PSuspended -> set_pc PSuspended it = it.
Proof. destruct it as [s a p]. simpl. intros ->. reflexivity. Qed.

Lemma drain_suspended_shape {fuel pulls} :
  forall {it : Iter} {w : World} {vals ex it1 w1 evs},
    it_pc it = PSuspended ->
    drain (generate_next fuel) pulls it w = (vals, ex, it1, w1, evs) ->
    let hs := hooks (gens w (it_self it)) in
    let a := addr_of w (it_self it) in
    match ex with
    | DStop =>
        exists runs,
          evs = finish_run_events hs a ++ bracketed_runs hs a (it_args it) runs
                ++ finish_events hs a
          /\ length vals <= length runs
    | DRaised _ =>
        exists runs ops,
          evs = finish_run_events hs a ++ bracketed_runs hs a (it_args it) runs
                ++ init_run_events hs a (it_args it) ++ map OpEvent ops
    | DFuel =>
        (pulls = 0 /\ vals = [] /\ evs = [])
        \/
        (length vals = pulls /\
         exists runs ops,
           evs = finish_run_events hs a ++ bracketed_runs hs a (it_args it) runs
                 ++ init_run_events hs a (it_args it) ++ map OpEvent ops
           /\ length vals <= S (length runs))
        \/
        (length vals < pulls /\
         exists runs,
           evs = finish_run_events hs a ++ bracketed_runs hs a (it_args it) runs
           /\ length vals <= length runs)
    end.
Proof.
  induction pulls as [|p IH]; intros it w vals ex it1 w1 evs Hpc.
  { simpl. intros Heq. inversion Heq; subst. left. auto. }
  simpl drain. cbv zeta.
  rewrite generate_next_result, <- (set_pc_suspended_id it Hpc).
  rewrite (generate_body_suspended fuel it w w eq_refl).
  rewrite (set_pc_suspended_id it Hpc).
  destruct (generate_loop _ _ fuel _) as [[[[v| |]|e] w2] l] eqn:Hloop; simpl.
  - pose proof (generate_loop_shape _ _ _ _ _ _ _ Hloop) as (runs & ops & ->).
    destruct (generate_loop_gens _ _ _ _ _ _ _ Hloop) as (Hg & _). simpl in Hg.
    destruct (drain (generate_next fuel) p (set_pc PSuspended it) w2)
      as [[[[vs ex3] it2] w3] l2] eqn:Hdrain.
    intros Heq. inversion Heq; subst.
    pose proof (IH (set_pc PSuspended it) _ _ _ _ _ _ eq_refl Hdrain) as Hrest.
    cbv zeta in Hrest. simpl it_self in Hrest. simpl it_args in Hrest.
    unfold addr_of, strategy_of in Hrest. rewrite Hg in Hrest.
    simpl gens in *. fold (strategy_of w (it_self it)) in Hrest.
    fold (addr_of w (it_self it)) in Hrest.
    destruct ex.
    + destruct Hrest as (runs2 & -> & Hlen).
      exists (runs ++ ops :: runs2). split.
      * rewrite bracketed_runs_app, bracketed_runs_cons.
        rewrite <- !app_assoc. reflexivity.
      * rewrite length_app. simpl. lia.
    + destruct Hrest as (runs2 & ops2 & ->).
      exists (runs ++ ops :: runs2), ops2.
      rewrite bracketed_runs_app, bracketed_runs_cons.
      rewrite <- !app_assoc. reflexivity.
    + destruct Hrest as [(-> & -> & ->)|[(Hlv & runs2 & ops2 & -> & Hlen)
                                        |(Hlv & runs2 & -> & Hlen)]].
      * right. left. split; [reflexivity|]. exists runs, ops.
        rewrite app_nil_r. split; [reflexivity | simpl; lia].
      * right. left. split; [simpl; lia|]. exists (runs ++ ops :: runs2), ops2. split.
        -- rewrite bracketed_runs_app, bracketed_runs_cons.
           rewrite <- !app_assoc. reflexivity.
        -- rewrite length_app. simpl. lia.
      * right. right. split; [simpl; lia|]. exists (runs ++ ops :: runs2). split.
        -- rewrite bracketed_runs_app, bracketed_runs_cons.
           rewrite <- !app_assoc. reflexivity.
        -- rewrite length_app. simpl. lia.
  - pose proof (generate_loop_shape _ _ _ _ _ _ _ Hloop) as (runs & ->).
    intros Heq. inversion Heq; subst.
    exists runs. split; [|simpl; lia].
    simpl gens. reflexivity.
  - pose proof (generate_loop_shape _ _ _ _ _ _ _ Hloop) as (runs & ->).
    intros Heq. inversion Heq; subst.
    right. right. split; [simpl; lia|]. exists runs. split; [|simpl; lia].
    simpl gens. reflexivity.
  - destruct (generate_loop_shape_raise _ _ _ _ _ _ _ Hloop) as (runs & ops & ->).
    intros Heq. inversion Heq; subst.
    exists runs, ops. simpl gens. reflexivity.
Qed.

Lemma generate_prologue_eq self args (w : World) :
  generate_prologue self args w =
  match ensure_compiled self w with
  | (Ok _, w0, _) =>
      (Ok tt, set_heap (m_init (methods_of w self) (heap w)) w0,
       init_events (hooks (gens w self)) (addr_of w self) args)
  | (Raise e, w0, _) => (Raise e, w, silent)
  end.
Proof.
  unfold generate_prologue. unfold bind at 1.
  destruct (ensure_compiled self w) as [[[[]|e] w0] l0] eqn:Hens.
  - pose proof Hens as Hens2. rewrite ensure_compiled_eq in Hens2.
    assert (Hw0 : l0 = [] /\ heap w0 = heap w /\
                  hooks (gens w0 self) = hooks (gens w self) /\
                  strategy (gens w0 self) = strategy (gens w self)).
    { destruct (_compiled_func (gens w self)).
      - inversion Hens2; subst. auto.
      - destruct (compile_error _ _); inversion Hens2; subst.
        simpl. rewrite upd_same. auto. }
    destruct Hw0 as (-> & Hh & Hhs & Hst).
    rewrite (bind_prepend _ _ _ _ _ _ (hooks_call_eq _ _ _)), self_strategy_call_eq.
    unfold methods_of, addr_of, strategy_of, init_events. rewrite Hhs, Hst, Hh.
    reflexivity.
  - rewrite ensure_compiled_eq in Hens.
    destruct (_compiled_func (gens w self)); [discriminate|].
    destruct (compile_error _ _); inversion Hens; subst. reflexivity.
Qed.

Lemma ensure_compiled_config self (w : World) r w0 (l0 : list event) :
  ensure_compiled self w = (r, w0, l0) ->
  hooks (gens w0 self) = hooks (gens w self) /\
  strategy (gens w0 self) = strategy (gens w self) /\
  heap w0 = heap w.
Proof.
  rewrite ensure_compiled_eq. destruct (_compiled_func (gens w self)).
  - intros Heq. inversion Heq; subst. auto.
  - destruct (compile_error _ _); intros Heq; inversion Heq; subst; auto.
    simpl. rewrite upd_same. auto.
Qed.

(** C2, as the code has it: in an enumeration that is consumed to its end
    ([StopIteration]), every hook's [init] and then [strategy.init] are
    called once before any run; every run, whether it returned a value or
    was skipped, is bracketed by the hooks' and the strategy's [init_run]
    before it and by the strategy's and the hooks' [finish_run] after it;
    [strategy.finish] and then every hook's [finish] are called once, at
    the end.  When [is_finished] holds right after [init] there is no run,
    no [init_run] and no value.  In an enumeration that a run ends with an
    exception, the runs before that one are bracketed in the same way, the
    failed run has its [init_run] calls only, and no [finish] is called.
    An enumeration that the consumer leaves after the values it asked for
    (the only way out under a strategy that never finishes) has made the
    [init] calls once and has bracketed every run but the one that gave
    the last value, which has its [init_run] calls and is closed only
    when the next value is asked for; a [next] that has not returned yet
    has made the [init] calls and closed runs only.  In both cases no
    [finish] has been called. *)
Theorem generate_lifecycle fuel pulls self args (w : World) vals ex it1 w1 evs :
  drain (generate_next fuel) pulls (generate self args) w = (vals, ex, it1, w1, evs) ->
  let hs := hooks (gens w self) in
  let a := addr_of w self in
  let ms := methods_of w self in
  match ex with
  | DStop =>
      exists runs : list (list (op_event Val)),
        evs = init_events hs a args ++ bracketed_runs hs a args runs ++ finish_events hs a
        /\ length vals <= length runs
        /\ (m_is_finished ms (m_init ms (heap w)) = true -> runs = [] /\ vals = [])
  | DRaised _ =>
      (evs = [] /\ vals = []) \/
      exists (runs : list (list (op_event Val))) ops,
        evs = init_events hs a args ++ bracketed_runs hs a args runs
              ++ init_run_events hs a args ++ map OpEvent ops
  | DFuel =>
      (pulls = 0 /\ vals = [] /\ evs = [])
      \/
      (length vals = pulls /\
       exists (runs : list (list (op_event Val))) ops,
         evs = init_events hs a args ++ bracketed_runs hs a args runs
               ++ init_run_events hs a args ++ map OpEvent ops
         /\ length vals <= S (length runs))
      \/
      (length vals < pulls /\
       exists runs : list (list (op_event Val)),
         evs = init_events hs a args ++ bracketed_runs hs a args runs
         /\ length vals <= length runs
         /\ (m_is_finished ms (m_init ms (heap w)) = true -> runs = []))
  end.
Proof.
  destruct pulls as [|p].
  { simpl. intros Heq. inversion Heq; subst. left. auto. }
  simpl drain. cbv zeta.
  rewrite generate_next_result, generate_body_resume by discriminate.
  change (generate_resume (generate self args))
    with (generate_prologue self args : WM unit).
  rewrite generate_prologue_eq.
  destruct (ensure_compiled self w) as [[[[]|e] w0] l0] eqn:Hens.
  2:{ simpl. intros Heq. inversion Heq; subst. left. auto. }
  destruct (ensure_compiled_config _ _ _ _ _ Hens) as (Hhs & Hst & Hheap).
  set (w0' := set_heap _ w0).
  assert (Hhs' : hooks (gens w0' self) = hooks (gens w self)) by exact Hhs.
  assert (Ha' : addr_of w0' self = addr_of w self)
    by (unfold addr_of, strategy_of; simpl; rewrite Hst; reflexivity).
  assert (Hms' : methods_of w0' self = methods_of w self)
    by (unfold methods_of, strategy_of; simpl; rewrite Hst; reflexivity).
  simpl it_self. simpl it_args.
  destruct (m_is_finished (methods_of w self) (m_init (methods_of w self) (heap w)))
    eqn:Hfin.
  - (* exhausted right after [init] *)
    destruct fuel as [|k].
    { simpl. intros Heq. inversion Heq; subst. right. right.
      split; [simpl; lia|]. exists [].
      split; [reflexivity|]. split; [simpl; lia | reflexivity]. }
    rewrite generate_loop_step. cbv zeta. rewrite Hms'.
    change (heap w0') with (m_init (methods_of w self) (heap w)). rewrite Hfin.
    simpl. intros Heq. inversion Heq; subst.
    exists []. rewrite ?Hhs', ?Hhs, ?Ha'. simpl. auto.
  - destruct (generate_loop self args fuel w0') as [[[[v| |]|e] w2] l] eqn:Hloop; simpl.
    + pose proof (generate_loop_shape _ _ _ _ _ _ _ Hloop) as (runs & ops & ->).
      destruct (generate_loop_gens _ _ _ _ _ _ _ Hloop) as (Hg & _).
      destruct (drain (generate_next fuel) p _ w2) as [[[[vs ex3] it2] w3] l2] eqn:Hdrain.
      intros Heq. inversion Heq; subst.
      pose proof (drain_suspended_shape (it := set_pc PSuspended (generate self args))
                    eq_refl Hdrain) as Hrest.
      assert (Hhs2 : hooks (gens w2 self) = hooks (gens w self))
        by (rewrite Hg; exact Hhs).
      assert (Ha2 : addr_of w2 self = addr_of w self)
        by (unfold addr_of, strategy_of; rewrite Hg; exact Ha').
      cbv zeta in Hrest. simpl it_self in Hrest. simpl it_args in Hrest.
      rewrite ?Hhs2, ?Ha2 in Hrest. rewrite ?Hhs', ?Hhs, ?Ha'.
      destruct ex.
      * destruct Hrest as (runs2 & -> & Hlen).
        exists (runs ++ ops :: runs2). split; [|split].
        -- rewrite bracketed_runs_app, bracketed_runs_cons.
           rewrite <- !app_assoc. reflexivity.
        -- rewrite length_app. simpl. lia.
        -- discriminate.
      * destruct Hrest as (runs2 & ops2 & ->). right.
        exists (runs ++ ops :: runs2), ops2.
        rewrite bracketed_runs_app, bracketed_runs_cons.
        rewrite <- !app_assoc. reflexivity.
      * destruct Hrest as [(-> & -> & ->)|[(Hlv & runs2 & ops2 & -> & Hlen)
                                          |(Hlv & runs2 & -> & Hlen)]].
        -- right. left. split; [reflexivity|]. exists runs, ops.
           rewrite app_nil_r. split; [reflexivity | simpl; lia].
        -- right. left. split; [simpl; lia|].
           exists (runs ++ ops :: runs2), ops2. split.
           ++ rewrite bracketed_runs_app, bracketed_runs_cons.
              rewrite <- !app_assoc. reflexivity.
           ++ rewrite length_app. simpl. lia.
        -- right. right. split; [simpl; lia|].
           exists (runs ++ ops :: runs2). split; [|split].
           ++ rewrite bracketed_runs_app, bracketed_runs_cons.
              rewrite <- !app_assoc. reflexivity.
           ++ rewrite length_app. simpl. lia.
           ++ discriminate.
    + pose proof (generate_loop_shape _ _ _ _ _ _ _ Hloop) as (runs & ->).
      intros Heq. inversion Heq; subst.
      exists runs. rewrite ?Hhs', ?Hhs, ?Ha'.
      split; [reflexivity|]. split; [simpl; lia|discriminate].
    + pose proof (generate_loop_shape _ _ _ _ _ _ _ Hloop) as (runs & ->).
      intros Heq. inversion Heq; subst.
      right. right. split; [simpl; lia|]. exists runs. rewrite ?Hhs', ?Hhs, ?Ha'.
      split; [reflexivity|]. split; [simpl; lia|discriminate].
    + destruct (generate_loop_shape_raise _ _ _ _ _ _ _ Hloop) as (runs & ops & ->).
      intros Heq. inversion Heq; subst. right.
      exists runs, ops. rewrite ?Hhs', ?Hhs, ?Ha'. reflexivity.
Qed.

End Enumeration.

(** ** [trace] *)

Section Tracing.

Context {Val St : Type} {EXT : Externals Val St}.

Local Abbreviation World := (World St).
Local Abbreviation WM := (WM Val St).
Local Abbreviation Generator := (Generator St).
Local Abbreviation event := (event Val).
Local Abbreviation silent := ([] : list event).
Local Abbreviation Iter := (Iter Val).
Local Abbreviation TraceIter := (TraceIter Val).
Local Abbreviation returns := (returns (Val := Val) (St := St)).
Local Abbreviation unlike_all := (unlike_all (Val := Val) (St := St)).
Local Abbreviation deregister_hook := (deregister_hook (Val := Val) (St := St)).

Lemma list_remove_app_fresh (t : Hook) l r :
  (forall y, y ∈ l -> same_hook y t = false) ->
  list_remove t (l ++ t :: r) = l ++ r.
Proof.
  induction l as [|x l IH]; simpl; intros Hun.
  - rewrite same_hook_refl. reflexivity.
  - rewrite (Hun x) by (apply elem_of_cons; auto).
    rewrite IH; [reflexivity|]. intros y Hy. apply Hun. apply elem_of_cons. auto.
Qed.

Lemma removals_app_replicate (t : Hook) l n :
  (forall y, y ∈ l -> same_hook y t = false) ->
  removals t (l ++ replicate n t) = n.
Proof.
  induction l as [|x l IH]; simpl; intros Hun.
  - induction n as [|n IHn]; simpl; [reflexivity|].
    rewrite same_hook_refl, bool_decide_eq_true_2 by (apply elem_of_cons; auto).
    rewrite IHn. reflexivity.
  - rewrite (Hun x) by (apply elem_of_cons; auto).
    apply IH. intros y Hy. apply Hun. apply elem_of_cons. auto.
Qed.

Lemma iter_hook_removed (t : Hook) n (g : Generator) l :
  (forall y, y ∈ l -> same_hook y t = false) ->
  hooks g = l ++ replicate n t ->
  hooks (Nat.iter n (hook_removed t) g) = l
  /\ _compiled_func (Nat.iter n (hook_removed t) g)
     = (if decide (n = 0) then _compiled_func g else None).
Proof.
  intros Hun. revert g. induction n as [|n IH]; intros g Hg.
  - simpl in *. rewrite app_nil_r in Hg. auto.
  - rewrite Nat.iter_succ_r.
    destruct (IH (hook_removed t g)) as [Hh Hc].
    { simpl. rewrite Hg. simpl. rewrite list_remove_app_fresh by exact Hun. reflexivity. }
    split; [exact Hh|]. rewrite Hc. simpl. case_decide; reflexivity.
Qed.

(** [register_hooks] with propagation, for a generator of a registered
    group. *)
Lemma register_hooks_group_effect self (t : Hook) (w : World) name members :
  group (gens w self) = Some name ->
  groups w !! name = Some members ->
  returns (register_hooks self [t] true : WM unit) w
    (fun _ w1 =>
       tracing self t name members w w1 /\
       (forall j, j ∈ members \/ j = self -> _compiled_func (gens w1 j) = None) /\
       (forall j, strategy (gens w1 j) = strategy (gens w j) /\
                  func (gens w1 j) = func (gens w j)) /\
       (forall j, j ∉ members -> j <> self -> gens w1 j = gens w j)).
Proof.
  intros Hgrp Hreg. unfold register_hooks.
  eapply returns_bind; [apply register_hooks_local_ok|].
  intros _ w0 (Hg0 & Hf0 & Hn0).
  assert (Hself0 : gens w0 self = hooks_added [t] (gens w self)).
  { rewrite Hg0. apply upd_same. }
  unfold returns. erewrite for_group_on; cycle 1.
  { rewrite Hself0. exact Hgrp. }
  { destruct Hf0 as [-> _]. exact Hreg. }
  assert (Hbody : forall m (w2 : World), m <> self -> gens w2 self = gens w0 self ->
            returns (register_hooks_local m [t] : WM unit) w2
              (fun _ w3 => (forall j, gens w3 j = upd m (hooks_added [t]) (gens w2) j)
                           /\ same_frame w2 w3)).
  { intros m w2 _ _. eapply returns_weaken; [apply register_hooks_local_ok|].
    intros _ w3 (? & ? & _). auto. }
  destruct (for_each_update self (gens w0 self) (hooks_added [t]) _ members Hbody
              w0 eq_refl) as ([] & w1 & Heq & Hg1 & Hf1).
  exists tt, w1. split; [exact Heq|].
  assert (Hall : forall j, gens w1 j
           = Nat.iter (tracer_copies self members j) (hooks_added [t]) (gens w j)).
  { intros j. rewrite Hg1. unfold tracer_copies. case_decide as Hj.
    - subst j. exact Hself0.
    - rewrite Hg0, upd_other by exact Hj. reflexivity. }
  split; [|split; [|split]].
  - split; [|split].
    + intros j. rewrite Hall. apply iter_hooks_added.
    + rewrite Hall. destruct (iter_hooks_added t (tracer_copies self members self)
                                (gens w self)) as (_ & _ & -> & _). exact Hgrp.
    + destruct Hf1 as [-> _]. destruct Hf0 as [-> _]. exact Hreg.
  - intros j Hj. rewrite Hall.
    destruct (iter_hooks_added t (tracer_copies self members j) (gens w j))
      as (_ & _ & _ & _ & ->).
    rewrite decide_False; [reflexivity|].
    unfold tracer_copies. case_decide as Hjs; [lia|].
    destruct Hj as [Hj|Hj]; [|contradiction]. apply occ_pos in Hj. lia.
  - intros j. rewrite Hall.
    destruct (iter_hooks_added t (tracer_copies self members j) (gens w j))
      as (_ & -> & _ & -> & _). auto.
  - intros j Hnin Hne. rewrite Hall. unfold tracer_copies.
    rewrite decide_False by exact Hne.
    destruct (occ j members) eqn:E; [reflexivity|].
    exfalso. apply Hnin, occ_pos. lia.
Qed.

Lemma tracing_has_tracer {self t name members} {w w1 : World} {m} :
  tracing self t name members w w1 ->
  m ∈ members \/ m = self -> t ∈ hooks (gens w1 m).
Proof.
  intros (Hh & _) Hm. rewrite Hh. apply elem_of_app. right.
  assert (Hpos : 0 < tracer_copies self members m).
  { unfold tracer_copies. case_decide as Hs; [lia|].
    destruct Hm as [Hm|Hm]; [apply occ_pos; exact Hm | contradiction]. }
  destruct (tracer_copies self members m); [lia|]. simpl. apply elem_of_cons. auto.
Qed.



(** When no hook of the store is or equals the tracer, the closing
    [deregister_hook] returns and puts every hook list back. *)
Lemma deregister_tracer {self t name members} {w w1 : World} :
  unlike_all t w ->
  tracing self t name members w w1 ->
  exists w2, deregister_hook self t true w1 = (Ok tt, w2, silent) /\
             restored self members w w2.
Proof.
  intros Hun Htr. pose proof Htr as (Hh & Hgrp & Hreg).
  destruct (deregister_hook_cases (Val := Val) self t true w1)
    as [[Hnin _]|(_ & w0 & Hg0 & _ & Hcase)].
  { exfalso. apply Hnin. eapply tracing_has_tracer; eauto. }
  rewrite Hgrp, Hreg in Hcase.
  destruct Hcase as [[(m & Hne & Hlt) _]|(_ & w2 & Heq & Hg2 & _)].
  { exfalso. rewrite Hh, removals_app_replicate in Hlt by apply Hun.
    unfold tracer_copies in Hlt. rewrite decide_False in Hlt by exact Hne. lia. }
  exists w2. split; [exact Heq|].
  intros j. rewrite Hg2. case_decide as Hj.
  - subst j. rewrite Hg0, upd_same. simpl. rewrite Hh.
    unfold tracer_copies. rewrite decide_True by reflexivity. simpl.
    rewrite list_remove_app_fresh by apply Hun. rewrite app_nil_r. auto.
  - destruct (iter_hook_removed t (occ j members) (gens w1 j) (hooks (gens w j)))
      as [Hr Hc].
    { apply Hun. }
    { rewrite Hh. unfold tracer_copies. rewrite decide_False by exact Hj. reflexivity. }
    split; [exact Hr|]. intros [Hin|Heq']; [|contradiction].
    rewrite Hc. rewrite decide_False; [reflexivity|]. apply occ_pos in Hin. lia.
Qed.


Lemma deregister_hook_silent self h b (w : World) r w1 (l : list event) :
  deregister_hook self h b w = (r, w1, l) -> l = [].
Proof.
  intros Heq.
  destruct (deregister_hook_cases (Val := Val) self h b w)
    as [[_ Hr]|(_ & w0 & _ & _ & Hcase)].
  { rewrite Hr in Heq. inversion Heq; reflexivity. }
  destruct b; [|rewrite Hcase in Heq; inversion Heq; reflexivity].
  destruct (group (gens w self)) as [name|];
    [|rewrite Hcase in Heq; inversion Heq; reflexivity].
  destruct (groups w !! name) as [members|].
  - destruct Hcase as [(_ & w2 & Hr)|(_ & w2 & Hr & _)];
      rewrite Hr in Heq; inversion Heq; reflexivity.
  - rewrite Hcase in Heq. inversion Heq; reflexivity.
Qed.

Lemma deregister_hook_exceptions {self h b} {w : World} {e w1} {l : list event} :
  deregister_hook self h b w = (Raise e, w1, l) ->
  e <> ExceptionAsContinue.
Proof.
  intros Heq.
  destruct (deregister_hook_cases (Val := Val) self h b w)
    as [[_ Hr]|(_ & w0 & _ & _ & Hcase)].
  { rewrite Hr in Heq. inversion Heq; subst. discriminate. }
  destruct b; [|rewrite Hcase in Heq; discriminate].
  destruct (group (gens w self)) as [name|]; [|rewrite Hcase in Heq; discriminate].
  destruct (groups w !! name) as [members|].
  - destruct Hcase as [(_ & w2 & Hr)|(_ & w2 & Hr & _)];
      rewrite Hr in Heq; inversion Heq; subst; discriminate.
  - rewrite Hcase in Heq. inversion Heq; subst. discriminate.
Qed.

(** *** Exceptions that leave a generator *)

Lemma out_of_generator_other e : e <> StopIterationExc -> out_of_generator e = e.
Proof. destruct e; simpl; congruence. Qed.

Lemma out_of_generator_idem e : out_of_generator (out_of_generator e) = out_of_generator e.
Proof. destruct e; reflexivity. Qed.

Lemma out_of_generator_continue e :
  out_of_generator e = ExceptionAsContinue <-> e = ExceptionAsContinue.
Proof. destruct e; simpl; split; congruence. Qed.

(** What a [next] of [generate] raises has left a generator already. *)
Lemma generate_next_raised fuel (it : Iter) (w : World) e it1 w1 (l : list event) :
  generate_next fuel it w = (Raised e, it1, w1, l) -> out_of_generator e = e.
Proof.
  unfold generate_next.
  destruct (generate_body fuel it w) as [[[[v| |]|e0] w2] l2];
    intros Heq; inversion Heq; subst. apply out_of_generator_idem.
Qed.

(** *** A trace follows the enumeration it consumes *)

Lemma trace_pull_follows fuel (it : TraceIter) t inner (w : World) o inner1 w1 l1 :
  generate_next fuel inner w = (o, inner1, w1, l1) ->
  trace_pull fuel it t inner w [] =
  match o with
  | Yield v =>
      (Yield (traced_value t (v, l1)), set_trace_pc (TRunning t inner1) it, w1, l1)
  | StopIteration =>
      match deregister_hook (tr_self it) t true w1 with
      | (Ok _, w2, _) => (StopIteration, set_trace_pc TDone it, w2, l1)
      | (Raise e, w2, _) => (Raised (out_of_generator e), set_trace_pc TDone it, w2, l1)
      end
  | Raised e => (Raised e, set_trace_pc TDone it, w1, l1)
  | OutOfFuel => (OutOfFuel, it, w1, l1)
  end.
Proof.
  intros Hnext. unfold trace_pull. rewrite Hnext. simpl.
  destruct o as [v| |e|]; try reflexivity.
  - destruct (deregister_hook (tr_self it) t true w1) as [[r2 w2] l2] eqn:Hd.
    rewrite (deregister_hook_silent _ _ _ _ _ _ _ Hd), app_nil_r.
    destruct r2; reflexivity.
  - rewrite (generate_next_raised _ _ _ _ _ _ _ Hnext). reflexivity.
Qed.

(** How a trace that has pulled [inner] so far goes on, given how the
    enumeration [inner] goes on. *)
Lemma trace_running_follows fuel t self :
  forall pulls (it : TraceIter) inner (w : World) vals ex inner' w1 evs,
    tr_pc it = TRunning t inner ->
    tr_self it = self ->
    drain (generate_next fuel) pulls inner w = (vals, ex, inner', w1, evs) ->
    exists ex' it' w2,
      drain (trace_next fuel) pulls it w
      = (map (traced_value t) (drain_log (generate_next fuel) pulls inner w),
         ex', it', w2, evs) /\
      match ex with
      | DStop =>
          exists r, deregister_hook self t true w1 = (r, w2, silent) /\
                    ex' = match r with
                          | Ok _ => DStop
                          | Raise e => DRaised (out_of_generator e)
                          end
      | _ => ex' = ex /\ w2 = w1
      end.
Proof.
  induction pulls as [|p IH]; intros it inner w vals ex inner' w1 evs Hpc Hself.
  - simpl. intros Heq. inversion Heq; subst.
    exists DFuel, it, w1. split; [reflexivity|]. auto.
  - simpl drain. simpl drain_log. unfold trace_next at 1. rewrite Hpc.
    destruct (generate_next fuel inner w) as [[[o inner1] w2] l1] eqn:Hnext.
    rewrite (trace_pull_follows fuel it t inner w o inner1 w2 l1 Hnext).
    destruct o as [v| |e|].
    + destruct (drain (generate_next fuel) p inner1 w2) as [[[[vs ex3] in3] w3] l3] eqn:Hd.
      intros Heq. inversion Heq; subst.
      destruct (IH (set_trace_pc (TRunning t inner1) it) inner1 w2 _ _ _ _ _
                  eq_refl eq_refl Hd) as (ex' & it' & w4 & Hd' & Hex).
      rewrite Hd'. exists ex', it', w4. split; [reflexivity | exact Hex].
    + intros Heq. inversion Heq; subst.
      destruct (deregister_hook (tr_self it) t true w1) as [[r2 w3] l2] eqn:Hd.
      pose proof (deregister_hook_silent _ _ _ _ _ _ _ Hd) as ->.
      destruct r2 as [[]|e2].
      * exists DStop, (set_trace_pc TDone it), w3. split; [reflexivity|].
        exists (Ok tt). auto.
      * exists (DRaised (out_of_generator e2)), (set_trace_pc TDone it), w3.
        split; [reflexivity|]. exists (Raise e2). auto.
    + intros Heq. inversion Heq; subst.
      exists (DRaised e), (set_trace_pc TDone it), w1. split; [reflexivity|]. auto.
    + intros Heq. inversion Heq; subst.
      exists DFuel, it, w1. split; [reflexivity|]. auto.
Qed.

(** The same from the first [next] on, once the tracer is registered. *)
Lemma trace_follows_generate
    fuel pulls self args (w : World) tracer wr vals ex it1 w1 evs :
  trace_prologue self w = (Ok tracer, wr, silent) ->
  drain (generate_next fuel) (S pulls) (generate self args) wr = (vals, ex, it1, w1, evs) ->
  exists ex' tit w2,
    drain (trace_next fuel) (S pulls) (trace self args) w
    = (map (traced_value tracer)
         (drain_log (generate_next fuel) (S pulls) (generate self args) wr),
       ex', tit, w2, evs) /\
    match ex with
    | DStop =>
        exists r, deregister_hook self tracer true w1 = (r, w2, silent) /\
                  ex' = match r with
                        | Ok _ => DStop
                        | Raise e => DRaised (out_of_generator e)
                        end
    | _ => ex' = ex /\ w2 = w1
    end.
Proof.
  intros Hpro. simpl drain. simpl drain_log. unfold trace_next at 1. simpl tr_pc. cbv iota.
  simpl tr_self. rewrite Hpro. simpl tr_args.
  destruct (generate_next fuel (generate self args) wr) as [[[o inner1] w2] l1] eqn:Hnext.
  rewrite (trace_pull_follows fuel (trace self args) tracer (generate self args)
             wr o inner1 w2 l1 Hnext).
  destruct o as [v| |e|].
  - destruct (drain (generate_next fuel) pulls inner1 w2) as [[[[vs ex3] in3] w3] l3] eqn:Hd.
    intros Heq. inversion Heq; subst.
    destruct (trace_running_follows fuel tracer self pulls
                (set_trace_pc (TRunning tracer inner1) (trace self args)) inner1 w2
                _ _ _ _ _ eq_refl eq_refl Hd) as (ex' & it' & w4 & Hd' & Hex).
    rewrite Hd'. exists ex', it', w4. split; [reflexivity | exact Hex].
  - intros Heq. inversion Heq; subst. simpl tr_self.
    destruct (deregister_hook self tracer true w1) as [[r2 w3] l2] eqn:Hd.
    pose proof (deregister_hook_silent _ _ _ _ _ _ _ Hd) as ->.
    destruct r2 as [[]|e2].
    + exists DStop, (set_trace_pc TDone (trace self args)), w3. split; [reflexivity|].
      exists (Ok tt). auto.
    + exists (DRaised (out_of_generator e2)), (set_trace_pc TDone (trace self args)), w3.
      split; [reflexivity|]. exists (Raise e2). auto.
  - intros Heq. inversion Heq; subst.
    exists (DRaised e), (set_trace_pc TDone (trace self args)), w1.
    split; [reflexivity|]. auto.
  - intros Heq. inversion Heq; subst.
    exists DFuel, (trace self args), w1. split; [reflexivity|]. auto.
Qed.

Lemma drain_log_values {I : Type}
    (next : I -> World -> outcome Val * I * World * list event) :
  forall pulls it (w : World) vals ex it1 w1 evs,
    drain next pulls it w = (vals, ex, it1, w1, evs) ->
    map fst (drain_log next pulls it w) = vals.
Proof.
  induction pulls as [|p IH]; intros it w vals ex it1 w1 evs.
  - simpl. intros Heq. inversion Heq; reflexivity.
  - simpl. destruct (next it w) as [[[o it2] w2] l2].
    destruct o as [v| |e|]; try (intros Heq; inversion Heq; reflexivity).
    destruct (drain next p it2 w2) as [[[[vs ex3] it3] w3] l3] eqn:Hd.
    intros Heq. inversion Heq; subst. simpl. f_equal. exact (IH _ _ _ _ _ _ _ Hd).
Qed.

Lemma drain_log_events {I : Type}
    (next : I -> World -> outcome Val * I * World * list event) :
  forall pulls it (w : World) vals ex it1 w1 evs,
    drain next pulls it w = (vals, ex, it1, w1, evs) ->
    concat (map snd (drain_log next pulls it w)) `prefix_of` evs.
Proof.
  induction pulls as [|p IH]; intros it w vals ex it1 w1 evs.
  - simpl. intros Heq. inversion Heq. apply prefix_nil.
  - simpl. destruct (next it w) as [[[o it2] w2] l2].
    destruct o as [v| |e|]; try (intros Heq; inversion Heq; apply prefix_nil).
    destruct (drain next p it2 w2) as [[[[vs ex3] it3] w3] l3] eqn:Hd.
    intros Heq. inversion Heq; subst. simpl.
    apply prefix_app. exact (IH _ _ _ _ _ _ _ Hd).
Qed.


(** C1, as the code has it: a run of the compiled function that raises
    the skip signal is absorbed by the [next] that made it: that [next]
    yields nothing for the run and ends exactly as the [next] of an
    iterator suspended in the store the run left, that is, as after a run
    that returned; it never ends with the skip signal, and neither does
    the [next] of a trace around it.  A run that raises anything else ends
    the [next] with an exception, no value is produced, and the iterator
    is finished: consuming it gives no value and ends with the exception,
    every later [next] stops at once, and a trace around it ends with the
    same exception.  The exception that reaches the caller is the one the
    run raised, unless the run raised [StopIteration]: that one reaches
    the caller as [RuntimeError("generator raised StopIteration")]. *)
Theorem skip_signal_is_confined_to_its_run fuel (it : Iter) (w w0 : World) l0 e w2 l :
  run_at it w w0 l0 (Raise e) w2 l ->
  (e = ExceptionAsContinue ->
     (forall o it1 w3 l3,
        o <> OutOfFuel ->
        generate_next fuel (set_pc PSuspended it) w2 = (o, it1, w3, l3) ->
        generate_next (S fuel) it w = (o, it1, w3, run_events it w0 l0 l ++ l3))
     /\
     (forall e1 it1 w3 l3,
        generate_next (S fuel) it w = (Raised e1, it1, w3, l3) ->
        e1 <> ExceptionAsContinue)
     /\
     (forall (tit : TraceIter) tracer l1 e1 tit1 w3 l3,
        trace_pull (S fuel) tit tracer it w l1 = (Raised e1, tit1, w3, l3) ->
        e1 <> ExceptionAsContinue))
  /\
  (e <> ExceptionAsContinue ->
     let arriving :=
       match e with
       | StopIterationExc => RuntimeError "generator raised StopIteration"
       | _ => e
       end in
     generate_next (S fuel) it w
     = (Raised arriving, set_pc PDone it, w2, run_events it w0 l0 l)
     /\
     (forall pulls,
        drain (generate_next (S fuel)) (S pulls) it w
        = ([], DRaised arriving, set_pc PDone it, w2, run_events it w0 l0 l))
     /\
     (forall fuel1 (w3 : World),
        generate_next fuel1 (set_pc PDone it) w3
        = (StopIteration, set_pc PDone it, w3, silent))
     /\
     (forall (tit : TraceIter) tracer l1,
        trace_pull (S fuel) tit tracer it w l1
        = (Raised arriving, set_trace_pc TDone tit, w2, l1 ++ run_events it w0 l0 l))).
Proof.
  intros Hrun.
  assert (Hnever : e = ExceptionAsContinue ->
            forall e1 it1 w3 l3,
              generate_next (S fuel) it w = (Raised e1, it1, w3, l3) ->
              e1 <> ExceptionAsContinue).
  { intros -> e1 it1 w3 l3.
    rewrite generate_next_result, (generate_body_at_run fuel Hrun). simpl is_continue.
    cbv iota.
    destruct (generate_loop _ _ fuel _) as [[[[v| |]|e2] w4] l4] eqn:Hloop;
      simpl; try discriminate.
    intros Heq. inversion Heq; subst. intros Hc.
    apply (proj1 (out_of_generator_continue _)) in Hc.
    exact (generate_loop_never_raises_continue _ _ _ _ _ _ _ Hloop Hc). }
  split.
  - intros He. pose proof (Hnever He) as Hn1. split; [|split].
    + exact (skipped_run_continues fuel Hrun He).
    + exact Hn1.
    + intros tit tracer l1 e1 tit1 w3 l3. unfold trace_pull.
      destruct (generate_next (S fuel) it w) as [[[o it2] w4] l4] eqn:Hnext.
      destruct o as [v| |e2|].
      * discriminate.
      * destruct (deregister_hook _ _ _ w4) as [[[[]|e3] w5] l5] eqn:Hd; [discriminate|].
        intros Heq. inversion Heq; subst. intros Hc.
        apply (proj1 (out_of_generator_continue _)) in Hc.
        exact (deregister_hook_exceptions Hd Hc).
      * intros Heq. inversion Heq; subst. intros Hc.
        apply (proj1 (out_of_generator_continue _)) in Hc. exact (Hn1 _ _ _ _ eq_refl Hc).
      * discriminate.
  - intros Hne. cbv zeta.
    change (match e with
            | StopIterationExc => RuntimeError "generator raised StopIteration"
            | _ => e
            end) with (out_of_generator e).
    destruct (failed_run_aborts fuel Hrun Hne) as (Hn & Hd).
    split; [exact Hn|]. split; [|split; [exact Hd|]].
    + intros pulls. simpl drain. rewrite Hn. reflexivity.
    + intros tit tracer l1. unfold trace_pull. rewrite Hn, out_of_generator_idem.
      reflexivity.
Qed.

End Tracing.

(** ** The compiled function over a history of calls *)

Section Cache.

Context {Val St : Type} {EXT : Externals Val St}.

Local Abbreviation World := (World St).
Local Abbreviation WM := (WM Val St).
Local Abbreviation event := (event Val).
Local Abbreviation silent := ([] : list event).

Lemma Generator_call_eq self args (w : World) :
  __call__ self args w =
  match ensure_compiled self w with
  | (Ok _, w0, _) => invoke_compiled self args w0
  | (Raise e, w0, _) => (Raise e, w0, silent)
  end.
Proof.
  unfold __call__, bind.
  destruct (ensure_compiled self w) as [[[[]|e] w0] l0] eqn:Hens.
  - rewrite ensure_compiled_eq in Hens.
    assert (l0 = []) as ->.
    { destruct (_compiled_func (gens w self)); [inversion Hens; reflexivity|].
      destruct (compile_error _ _); inversion Hens; reflexivity. }
    destruct (invoke_compiled self args w0) as [[r w1] l1]. reflexivity.
  - rewrite ensure_compiled_eq in Hens.
    destruct (_compiled_func (gens w self)); [discriminate|].
    destruct (compile_error _ _); inversion Hens; reflexivity.
Qed.

Lemma ensure_compiled_other self (w : World) r w0 (l0 : list event) j :
  ensure_compiled self w = (r, w0, l0) -> j <> self -> gens w0 j = gens w j.
Proof.
  rewrite ensure_compiled_eq. destruct (_compiled_func (gens w self)).
  - intros Heq _. inversion Heq; subst. reflexivity.
  - destruct (compile_error _ _); intros Heq Hj; inversion Heq; subst; [reflexivity|].
    simpl. apply upd_other. exact Hj.
Qed.

Lemma generate_next_not_first fuel (it : Iter Val) (w : World) o it1 w1 l :
  it_pc it <> PStart ->
  generate_next fuel it w = (o, it1, w1, l) -> gens w1 = gens w.
Proof.
  intros Hpc. rewrite generate_next_result. unfold generate_body, generate_resume.
  destruct (it_pc it) eqn:Hp; [congruence| |].
  - rewrite (bind_prepend _ _ _ _ _ _ (after_run_eq _ _)).
    destruct (generate_loop _ _ fuel _) as [[r w2] l2] eqn:Hloop.
    destruct (generate_loop_gens _ _ _ _ _ _ _ Hloop) as (Hg & _). simpl in Hg.
    destruct r as [[v| |]|e]; simpl; intros Heq; inversion Heq; subst; exact Hg.
  - unfold ret. simpl. intros Heq. inversion Heq; subst. reflexivity.
Qed.

(** A call that does not compile [g] leaves [g] as it is or without a
    compiled function. *)
Lemma exec_keeps_or_clears c (w : World) g :
  ~ compiles g c ->
  gens (snd (exec c w)) g = gens w g \/ _compiled_func (gens (snd (exec c w)) g) = None.
Proof.
  intros Hnc. destruct c as [self arg b|self hs b|self h b|self args|fuel it]; simpl.
  - destruct (set_strategy self arg b w) as [[r w1] l] eqn:Heq.
    exact (set_strategy_invalidates self arg b _ _ _ _ Heq g).
  - destruct (register_hooks self hs b w) as [[r w1] l] eqn:Heq.
    exact (register_hooks_invalidates self hs b _ _ _ _ Heq g).
  - destruct (deregister_hook self h b w) as [[r w1] l] eqn:Heq.
    exact (deregister_hook_invalidates self h b _ _ _ _ Heq g).
  - left. simpl in Hnc. rewrite Generator_call_eq.
    destruct (ensure_compiled self w) as [[[[]|e] w0] l0] eqn:Hens.
    + destruct (invoke_compiled self args w0) as [[r w1] l1] eqn:Hinv.
      destruct (invoke_compiled_gens Hinv) as (Hg & _). simpl. rewrite Hg.
      eapply ensure_compiled_other; eauto.
    + simpl. eapply ensure_compiled_other; eauto.
  - left. simpl in Hnc.
    destruct (generate_next fuel it w) as [[[o it1] w1] l] eqn:Hnext.
    assert (Hw1 : snd (match o with
                       | Raised _ => (false, w1) | _ => (true, w1) end) = w1)
      by (destruct o; reflexivity).
    rewrite Hw1.
    destruct (generate_next_frame _ _ _ _ _ _ _ Hnext) as ((_ & _ & Hg) & _).
    destruct (Hg g) as [E|(Hj & _)]; [exact E|].
    assert (Hpc : it_pc it <> PStart) by (intros Hp; apply Hnc; auto).
    rewrite (generate_next_not_first _ _ _ _ _ _ _ Hpc Hnext). reflexivity.
Qed.

Lemma set_strategy_local_clears self arg (w w0 : World) (l0 : list event) :
  set_strategy_local self arg w = (Ok tt, w0, l0) -> _compiled_func (gens w0 self) = None.
Proof.
  intros Heq. destruct (make_strategy arg w) as [[[s|e] w1] l1] eqn:Hmk.
  - destruct (set_strategy_local_ok self Hmk) as (a & w2 & Heq2 & Hg & _).
    rewrite Heq2 in Heq. inversion Heq; subst. rewrite Hg, upd_same. reflexivity.
  - rewrite (set_strategy_local_raise self Hmk) in Heq. discriminate.
Qed.

Lemma register_hooks_local_clears self hs (w w0 : World) (l0 : list event) :
  register_hooks_local self hs w = (Ok tt, w0, l0) -> _compiled_func (gens w0 self) = None.
Proof.
  intros Heq. destruct (register_hooks_local_ok (Val := Val) self hs w)
    as (a & w2 & Heq2 & Hg & _).
  rewrite Heq2 in Heq. inversion Heq; subst. rewrite Hg, upd_same. reflexivity.
Qed.

Lemma deregister_hook_local_clears self h (w w0 : World) (l0 : list event) :
  deregister_hook_local self h w = (Ok tt, w0, l0) -> _compiled_func (gens w0 self) = None.
Proof.
  intros Heq. destruct (decide (h ∈ hooks (gens w self))) as [Hin|Hnin].
  - destruct (deregister_hook_local_ok (Val := Val) self h w Hin)
      as (a & w2 & Heq2 & Hg & _).
    rewrite Heq2 in Heq. inversion Heq; subst. rewrite Hg, upd_same. reflexivity.
  - rewrite (deregister_hook_local_raise self h w Hnin) in Heq. discriminate.
Qed.

Lemma succeeded_ok (x : result unit * World * list event) :
  succeeded x = true -> x = (Ok tt, store_of x, snd x).
Proof. destruct x as [[[[]|e] w] l]; simpl; [reflexivity|discriminate]. Qed.

(** A successful mutator leaves its target without a compiled function. *)
Lemma exec_mutator_clears c (w : World) g :
  mutates g c -> fst (exec c w) = true ->
  _compiled_func (gens (snd (exec c w)) g) = None.
Proof.
  destruct c as [self arg b|self hs b|self h b|self args|fuel it]; simpl;
    try contradiction; intros -> Hok; apply succeeded_ok in Hok.
  - eapply mutator_clears_target; [apply set_strategy_local_invalidates | | | exact Hok].
    + intros w2 w0 l0. apply set_strategy_local_clears.
    + intros m _. apply preserves_bind;
        [exact invalidates_trans | apply preserves_gets; exact invalidates_refl |].
      intros me. apply set_strategy_local_invalidates.
  - eapply mutator_clears_target; [apply register_hooks_local_invalidates | | | exact Hok].
    + intros w2 w0 l0. apply register_hooks_local_clears.
    + intros m _. apply register_hooks_local_invalidates.
  - eapply mutator_clears_target; [apply deregister_hook_local_invalidates | | | exact Hok].
    + intros w2 w0 l0. apply deregister_hook_local_clears.
    + intros m _. apply deregister_hook_local_invalidates.
Qed.

Lemma exec_all_keeps_cleared post :
  forall (w : World) g,
    Forall (fun c => ~ compiles g c) post ->
    _compiled_func (gens w g) = None ->
    _compiled_func (gens (exec_all post w) g) = None.
Proof.
  induction post as [|c post IH]; intros w g Hall Hnone; [exact Hnone|].
  inversion Hall as [|? ? Hc Hrest]; subst. simpl.
  apply IH; [exact Hrest|].
  destruct (exec_keeps_or_clears c w g Hc) as [E|E]; [rewrite E; exact Hnone | exact E].
Qed.

(** C3: once [set_strategy], [register_hooks] or [deregister_hook] has
    succeeded on a generator, its compiled function is null and stays null
    through any calls, on any generators, until something compiles it again
    ([__call__] or the first [next] of a [generate] on that generator); no
    other call changes a generator without clearing its compiled function;
    and a [__call__] or a [generate] that finds no compiled function
    compiles against the strategy and the hook list the generator has at
    that moment, and runs that closure. *)
Theorem compiled_function_is_a_valid_cache :
  (forall c post (w : World) g,
     mutates g c -> fst (exec c w) = true ->
     Forall (fun c1 => ~ compiles g c1) post ->
     _compiled_func (gens (exec_all post (snd (exec c w))) g) = None)
  /\
  (forall c (w : World) g,
     ~ compiles g c ->
     gens (snd (exec c w)) g = gens w g \/
     _compiled_func (gens (snd (exec c w)) g) = None)
  /\
  (forall self args (w : World),
     _compiled_func (gens w self) = None ->
     compile_error (func (gens w self)) (strategy (gens w self)) = None ->
     let c := compiled_now w self in
     let w0 := set_gens (upd self (with_compiled_func (Some c)) (gens w)) w in
     __call__ self args w
     = (match call_compiled c args (heap w) with
        | (r, s, l) => (r, set_heap s w0, map OpEvent l)
        end)
     /\ _compiled_func (gens (snd (exec (CCall self args) w)) self) = Some c
     /\ forall fuel,
          _compiled_func (gens (snd (exec (CNext fuel (generate self args)) w)) self)
          = Some c).
Proof.
  split; [|split].
  - intros c post w g Hm Hok Hall.
    apply exec_all_keeps_cleared; [exact Hall|]. apply exec_mutator_clears; assumption.
  - intros c w g. apply exec_keeps_or_clears.
  - intros self args w Hnone Hce. cbv zeta.
    assert (Hens : ensure_compiled self w
                   = (Ok tt, set_gens (upd self (with_compiled_func
                                 (Some (compiled_now w self))) (gens w)) w, silent)).
    { rewrite ensure_compiled_eq, Hnone, Hce. reflexivity. }
    assert (Hcall : __call__ self args w
              = (match call_compiled (compiled_now w self) args (heap w) with
                 | (r, s, l) =>
                     (r, set_heap s (set_gens (upd self (with_compiled_func
                            (Some (compiled_now w self))) (gens w)) w), map OpEvent l)
                 end)).
    { rewrite Generator_call_eq, Hens, invoke_compiled_eq. simpl. rewrite upd_same.
      reflexivity. }
    split; [exact Hcall|]. split.
    + simpl. rewrite Hcall.
      destruct (call_compiled _ args (heap w)) as [[r s1] l]. simpl.
      rewrite upd_same. reflexivity.
    + intros fuel. simpl.
      destruct (generate_next fuel (generate self args) w) as [[[o it1] w1] l] eqn:Hnext.
      assert (Hw1 : snd (match o with
                         | Raised _ => (false, w1) | _ => (true, w1) end) = w1)
        by (destruct o; reflexivity).
      rewrite Hw1. clear Hw1.
      rewrite generate_next_result, generate_body_resume in Hnext by discriminate.
      change (generate_resume (generate self args))
        with (generate_prologue self args : WM unit) in Hnext.
      rewrite generate_prologue_eq, Hens in Hnext. simpl it_self in Hnext.
      destruct (generate_loop self (it_args (generate self args)) fuel _)
        as [[r w2] l2] eqn:Hloop.
      destruct (generate_loop_gens _ _ _ _ _ _ _ Hloop) as (Hg & _). simpl in Hg.
      assert (Hw : w1 = w2).
      { destruct r as [[v| |]|e]; simpl in Hnext; inversion Hnext; reflexivity. }
      rewrite Hw, Hg, upd_same. reflexivity.
Qed.

End Cache.

(** ** [RandStrategy] *)

Section RandomFacts.

Context {Val St : Type} {EXT : Externals Val St}.
Context `{!EqDecision Val}.
Context {Rng : Type} (randbelow : Rng -> nat -> nat * Rng).

Local Abbreviation World := (World St).
Local Abbreviation event := (event Val).

Lemma hits_shift (v : Val) (l : list Val) :
  forall k,
    List.length (List.filter (fun i => bool_decide (l !! (i - k) = Some v))
                   (seq k (List.length l)))
    = List.length (occurrences l v).
Proof.
  induction l as [|x l IH]; intros k; [reflexivity|].
  simpl seq. simpl List.filter. rewrite Nat.sub_diag. simpl lookup.
  assert (Htail : List.filter (fun i => bool_decide ((x :: l) !! (i - k) = Some v))
                    (seq (S k) (List.length l))
                  = List.filter (fun i => bool_decide (l !! (i - S k) = Some v))
                      (seq (S k) (List.length l))).
  { apply List.filter_ext_in. intros i Hi. apply in_seq in Hi.
    replace (i - k) with (S (i - S k)) by lia. reflexivity. }
  rewrite Htail. unfold occurrences. simpl List.filter. fold (occurrences l v).
  destruct (decide (x = v)) as [->|Hne].
  - rewrite !bool_decide_eq_true_2 by reflexivity. simpl. rewrite IH. reflexivity.
  - rewrite !bool_decide_eq_false_2 by congruence. apply IH.
Qed.

Lemma hits_count (domain : list Val) (v : Val) :
  List.length (hits domain v) = List.length (occurrences domain v).
Proof.
  unfold hits. rewrite <- (hits_shift v domain 0).
  f_equal. apply List.filter_ext. intros i. rewrite Nat.sub_0_r. reflexivity.
Qed.

Lemma rand_loop_never_stops self args addr fuel :
  forall (w : World) r w1 (l : list event),
    strategy (gens w self) = RandStrategy addr ->
    generate_loop self args fuel w = (r, w1, l) -> r <> Ok LStop.
Proof.
  induction fuel as [|k IH]; intros w r w1 l Hs.
  - simpl. unfold ret. intros Heq. inversion Heq; subst. discriminate.
  - rewrite generate_loop_step. cbv zeta.
    unfold methods_of at 1, strategy_of. rewrite Hs. simpl m_is_finished.
    unfold RandStrategy_is_finished.
    destruct (invoke_compiled _ _ _) as [[[v|e0] w2] l2] eqn:Hinv.
    { intros Heq. inversion Heq; subst. discriminate. }
    destruct (invoke_compiled_gens Hinv) as (Hg & _). simpl in Hg.
    destruct (is_continue e0).
    + destruct (generate_loop self args k _) as [[r3 w3] l3] eqn:Hloop.
      simpl. intros Heq. inversion Heq; subst.
      eapply IH; [|exact Hloop]. simpl. rewrite Hg. exact Hs.
    + intros Heq. inversion Heq; subst. discriminate.
Qed.

(** C7: [RandStrategy.is_finished] is always false, so no [next] of an
    enumeration under a [RandStrategy] ends with [StopIteration]; and on a
    non-empty domain [Select] returns the element at the index drawn by
    [randbelow(len(domain))], an element of the domain, each value being
    returned for as many of the [len(domain)] indices as it has
    occurrences in the domain. *)
Theorem RandStrategy_never_finishes_and_selects_from_domain :
  (forall addr (s : St), m_is_finished (s_methods (RandStrategy addr)) s = false)
  /\
  (forall fuel (it : Iter Val) (w : World) addr o it1 w1 (l : list event),
     it_pc it <> PDone ->
     strategy (gens w (it_self it)) = RandStrategy addr ->
     generate_next fuel it w = (o, it1, w1, l) ->
     o <> StopIteration)
  /\
  (forall (domain : list Val) (r : Rng),
     domain <> [] ->
     (forall n, 0 < n -> fst (randbelow r n) < n) ->
     exists i v,
       i = fst (randbelow r (List.length domain)) /\
       i < List.length domain /\
       domain !! i = Some v /\
       Select randbelow domain r = (Ok v, snd (randbelow r (List.length domain))) /\
       v ∈ domain)
  /\
  (forall (domain : list Val) (v : Val),
     List.length (hits domain v) = List.length (occurrences domain v)).
Proof.
  split; [|split; [|split]].
  - reflexivity.
  - intros fuel it w addr o it1 w1 l Hpc Hs.
    rewrite generate_next_result, generate_body_resume by exact Hpc.
    destruct (generate_resume it w) as [[[[]|e] w0] l0] eqn:Hres.
    + pose proof (generate_resume_frame _ _ _ _ _ Hres) as Hfr.
      destruct (compiles_only_config _ _ _ Hfr) as (_ & Hst).
      destruct (generate_loop (it_self it) (it_args it) fuel w0) as [[r w2] l2] eqn:Hloop.
      assert (Hr : r <> Ok LStop).
      { eapply rand_loop_never_stops; [|exact Hloop]. rewrite Hst. exact Hs. }
      destruct r as [[v| |]|e]; simpl; intros Heq; inversion Heq; subst;
        congruence.
    + simpl. intros Heq. inversion Heq; subst. discriminate.
  - intros domain r Hne Hlt. unfold Select, random_choice.
    destruct domain as [|x rest]; [congruence|].
    set (dom := x :: rest) in *.
    destruct (randbelow r (List.length dom)) as [i r1] eqn:Hrb.
    assert (Hi : i < List.length dom).
    { specialize (Hlt (List.length dom)). rewrite Hrb in Hlt. apply Hlt. simpl. lia. }
    destruct (lookup_lt_is_Some_2 dom i Hi) as [v Hv].
    exists i, v. unfold subscript. rewrite Hv. simpl.
    repeat split; auto. eapply list_elem_of_lookup_2; eauto.
  - intros domain v. apply hits_count.
Qed.

End RandomFacts.

(** ** Construction, groups and hooks *)

Section Construction.

Context {Val St : Type} {EXT : Externals Val St}.

Local Abbreviation World := (World St).
Local Abbreviation WM := (WM Val St).
Local Abbreviation Generator := (Generator St).
Local Abbreviation event := (event Val).
Local Abbreviation silent := ([] : list event).
Local Abbreviation returns := (returns (Val := Val) (St := St)).
Local Abbreviation consistent_groups := (consistent_groups (St := St)).
Local Abbreviation keeps_configuration := (keeps_configuration (St := St)).
Local Abbreviation grows := (grows (St := St)).
Local Abbreviation unlike_all := (unlike_all (Val := Val) (St := St)).
Local Abbreviation only_itself := (only_itself (Val := Val) (St := St)).
Local Abbreviation deregister_hook := (deregister_hook (Val := Val) (St := St)).

Lemma make_strategy_unrecognized name (w : World) :
  name <> "randomized" -> name <> "dfs" ->
  make_strategy (ByName name) w = (Raise (unrecognized name), w, silent).
Proof.
  intros H1 H2. unfold make_strategy.
  rewrite decide_False by exact H1. rewrite decide_False by exact H2. reflexivity.
Qed.

Lemma make_strategy_recognized arg (w : World) :
  recognized arg ->
  exists w0, make_strategy arg w = (Ok (made arg (next_addr w)), w0, silent) /\
             gens w0 = gens w /\ groups w0 = groups w /\ heap w0 = heap w /\
             next_addr w <= next_addr w0.
Proof.
  destruct arg as [name|s]; simpl.
  - intros [->| ->].
    + rewrite decide_True by reflexivity. eexists. split; [reflexivity|]. simpl.
      repeat split; lia.
    + rewrite decide_False by discriminate. rewrite decide_True by reflexivity.
      rewrite decide_False by discriminate.
      eexists. split; [reflexivity|]. simpl. repeat split; lia.
  - intros _. exists w. repeat split; lia.
Qed.

Lemma recognized_dec (arg : strategy_arg St) :
  recognized arg \/ exists name, arg = ByName name /\ name <> "randomized" /\ name <> "dfs".
Proof.
  destruct arg as [name|s]; [|left; exact I].
  destruct (decide (name = "randomized")) as [->|H1]; [left; left; reflexivity|].
  destruct (decide (name = "dfs")) as [->|H2]; [left; right; reflexivity|].
  right. exists name. auto.
Qed.

Ltac init_unfold :=
  unfold update_gen, modify, bind, ret, except_KeyError, get_group_by_name, first_of,
    get_gen, gets, register_group, raise.

Lemma init_in_group f arg name (first : GenRef) (rest : list GenRef) (w : World) :
  recognized arg ->
  groups w !! name = Some (first :: rest) ->
  first <> next_addr w ->
  exists w1,
    __init__ f arg (Some name) w = (Ok (next_addr w), w1, silent) /\
    gens w1 (next_addr w)
    = {| func := f; strategy := strategy (gens w first); _compiled_func := None;
         group := Some name; hooks := [] |} /\
    groups w1 = <[name := (first :: rest) ++ [next_addr w]]> (groups w) /\
    (forall j, j <> next_addr w -> gens w1 j = gens w j) /\
    heap w1 = heap w /\
    next_addr w < next_addr w1.
Proof.
  intros Hrec Hreg Hne.
  destruct (make_strategy_recognized arg
              {| gens := gens w; groups := groups w; next_addr := S (next_addr w);
                 heap := heap w |} Hrec) as (w0 & Hmk & Hg & Hr & Hh & Hn).
  simpl in Hmk, Hg, Hr, Hh, Hn.
  unfold __init__.
  unfold bind at 1. unfold alloc at 1. unfold bind at 1. rewrite Hmk.
  init_unfold. simpl. rewrite Hr, Hreg. simpl.
  eexists. split; [reflexivity|]. simpl. rewrite Hr, Hreg, Hh, Hg. simpl.
  split; [|split; [reflexivity|split; [|split; [reflexivity|lia]]]].
  - rewrite !upd_same. simpl. rewrite !upd_other by exact Hne. reflexivity.
  - intros j Hj. rewrite !upd_other by exact Hj. reflexivity.
Qed.

Lemma init_alone f arg group0 (w : World) :
  recognized arg ->
  match group0 with Some name => groups w !! name = None | None => True end ->
  exists w1,
    __init__ f arg group0 w = (Ok (next_addr w), w1, silent) /\
    gens w1 (next_addr w)
    = {| func := f; strategy := made arg (S (next_addr w)); _compiled_func := None;
         group := group0; hooks := [] |} /\
    groups w1 = match group0 with
                | Some name => <[name := [next_addr w]]> (groups w)
                | None => groups w
                end /\
    (forall j, j <> next_addr w -> gens w1 j = gens w j) /\
    heap w1 = heap w /\
    next_addr w < next_addr w1.
Proof.
  intros Hrec Hreg.
  destruct (make_strategy_recognized arg
              {| gens := gens w; groups := groups w; next_addr := S (next_addr w);
                 heap := heap w |} Hrec) as (w0 & Hmk & Hg & Hr & Hh & Hn).
  simpl in Hmk, Hg, Hr, Hh, Hn.
  unfold __init__.
  unfold bind at 1. unfold alloc at 1. unfold bind at 1. rewrite Hmk.
  init_unfold. destruct group0 as [name|]; simpl.
  - rewrite Hr, Hreg. simpl.
    eexists. split; [reflexivity|]. simpl. rewrite Hr, Hreg, Hh, Hg. simpl.
    split; [|split; [reflexivity|split; [|split; [reflexivity|lia]]]].
    + rewrite !upd_same. reflexivity.
    + intros j Hj. rewrite !upd_other by exact Hj. reflexivity.
  - eexists. split; [reflexivity|]. simpl. rewrite Hr, Hh, Hg.
    split; [|split; [reflexivity|split; [|split; [reflexivity|lia]]]].
    + rewrite !upd_same. reflexivity.
    + intros j Hj. rewrite !upd_other by exact Hj. reflexivity.
Qed.

Lemma init_rejected f name group0 (w : World) :
  name <> "randomized" -> name <> "dfs" ->
  __init__ f (ByName name) group0 w
  = (Raise (unrecognized name),
     {| gens := gens w; groups := groups w; next_addr := S (next_addr w);
        heap := heap w |}, silent).
Proof.
  intros H1 H2. unfold __init__.
  unfold bind at 1. unfold alloc at 1. unfold bind at 1.
  rewrite (make_strategy_unrecognized name _ H1 H2). reflexivity.
Qed.

(** X1: [set_strategy] with a name that is neither ['randomized'] nor
    ['dfs'] raises [Exception("Unrecognized strategy - <name>")] and
    changes nothing: the generator keeps its strategy and its compiled
    function, and no member of its group is touched. *)
Theorem set_strategy_unrecognized_name self name as_group (w : World) :
  name <> "randomized" -> name <> "dfs" ->
  set_strategy self (ByName name) as_group w = (Raise (unrecognized name), w, silent).
Proof.
  intros H1 H2.
  exact (set_strategy_rejected self as_group (make_strategy_unrecognized name w H1 H2)).
Qed.

(** X2: a generator created in a group that has members takes the
    strategy object of the first member, whatever strategy it was given;
    it starts with no hook and no compiled function, is added at the end
    of the member list, and no other generator is changed. *)
Theorem init_shares_the_strategy_of_the_group
    f arg name (first : GenRef) (rest : list GenRef) (w : World) :
  recognized arg ->
  groups w !! name = Some (first :: rest) ->
  first <> next_addr w ->
  exists w1,
    __init__ f arg (Some name) w = (Ok (next_addr w), w1, silent) /\
    gens w1 (next_addr w)
    = {| func := f; strategy := strategy (gens w first); _compiled_func := None;
         group := Some name; hooks := [] |} /\
    groups w1 = <[name := (first :: rest) ++ [next_addr w]]> (groups w) /\
    (forall j, j <> next_addr w -> gens w1 j = gens w j) /\
    heap w1 = heap w.
Proof.
  intros Hrec Hreg Hne.
  destruct (init_in_group f arg name first rest w Hrec Hreg Hne)
    as (w1 & H1 & H2 & H3 & H4 & H5 & _).
  exists w1. auto.
Qed.

(** X3: a generator created in no group, or in a group that is not in the
    registry yet, has the strategy made from its argument (the instance
    itself, or a new object for a name); a new group is registered with
    the generator as its only member, and no other generator is changed. *)
Theorem init_outside_an_existing_group f arg group0 (w : World) :
  recognized arg ->
  match group0 with Some name => groups w !! name = None | None => True end ->
  exists w1,
    __init__ f arg group0 w = (Ok (next_addr w), w1, silent) /\
    gens w1 (next_addr w)
    = {| func := f; strategy := made arg (S (next_addr w)); _compiled_func := None;
         group := group0; hooks := [] |} /\
    groups w1 = match group0 with
                | Some name => <[name := [next_addr w]]> (groups w)
                | None => groups w
                end /\
    (forall j, j <> next_addr w -> gens w1 j = gens w j) /\
    heap w1 = heap w.
Proof.
  intros Hrec Hreg.
  destruct (init_alone f arg group0 w Hrec Hreg) as (w1 & H1 & H2 & H3 & H4 & H5 & _).
  exists w1. auto.
Qed.

(** X4: creating a generator with an unknown strategy name raises
    [Exception("Unrecognized strategy - <name>")] before the generator is
    registered: the registry and all generators are as before, also when
    the group exists and its strategy would have replaced the argument. *)
Theorem init_refuses_unknown_strategy f name group0 (w : World) :
  name <> "randomized" -> name <> "dfs" ->
  exists w1,
    __init__ f (ByName name) group0 w = (Raise (unrecognized name), w1, silent) /\
    gens w1 = gens w /\ groups w1 = groups w /\ heap w1 = heap w.
Proof.
  intros H1 H2. rewrite (init_rejected f name group0 w H1 H2).
  eexists. split; [reflexivity|]. auto.
Qed.

(** *** The groups stay consistent *)

Lemma keeps_configuration_refl (w : World) : keeps_configuration w w.
Proof. split; [reflexivity|]. split; [lia|]. auto. Qed.

Lemma keeps_configuration_trans (w1 w2 w3 : World) :
  keeps_configuration w1 w2 -> keeps_configuration w2 w3 -> keeps_configuration w1 w3.
Proof.
  intros (Hr1 & Hn1 & Hg1) (Hr2 & Hn2 & Hg2). split; [congruence|]. split; [lia|].
  intros j. destruct (Hg1 j) as [? ?]. destruct (Hg2 j) as [? ?]. split; congruence.
Qed.

Lemma consistent_groups_kept (w w1 : World) :
  keeps_configuration w w1 -> consistent_groups w -> consistent_groups w1.
Proof.
  intros (Hr & Hn & Hg) (H1 & H2 & H3). split; [|split].
  - intros name members Hm. rewrite Hr in Hm.
    destruct (H1 name members Hm) as (Hne & Hnd & Hmem).
    split; [exact Hne|]. split; [exact Hnd|].
    intros m Hin. destruct (Hmem m Hin) as [Hlt Hgrp].
    destruct (Hg m) as [-> _]. split; [lia | exact Hgrp].
  - intros g name Hgrp. destruct (Hg g) as [Hgg _]. rewrite Hgg in Hgrp.
    rewrite Hr. exact (H2 g name Hgrp).
  - intros name members m1 m2 Hm Hi1 Hi2. rewrite Hr in Hm.
    destruct (Hg m1) as [_ ->]. destruct (Hg m2) as [_ ->].
    exact (H3 name members m1 m2 Hm Hi1 Hi2).
Qed.

Lemma update_gen_keeps m (F : Generator -> Generator) :
  (forall g, group (F g) = group g /\ strategy (F g) = strategy g) ->
  preserves keeps_configuration (update_gen m F : WM unit).
Proof.
  intros HF w r w1 l Heq. unfold update_gen, modify in Heq. inversion Heq; subst.
  split; [reflexivity|]. split; [simpl; lia|].
  intros j. simpl. unfold upd. case_decide; [apply HF | auto].
Qed.

Lemma register_hooks_local_keeps m hs :
  preserves keeps_configuration (register_hooks_local m hs : WM unit).
Proof.
  unfold register_hooks_local.
  apply preserves_bind; [exact keeps_configuration_trans | |intros _];
    apply update_gen_keeps; intros g; split; reflexivity.
Qed.

Lemma deregister_hook_local_keeps m h :
  preserves keeps_configuration (deregister_hook_local m h : WM unit).
Proof.
  unfold deregister_hook_local.
  apply preserves_bind;
    [exact keeps_configuration_trans
    | apply preserves_gets; exact keeps_configuration_refl |].
  intros g. destruct (forallb _ _).
  - apply preserves_raise. exact keeps_configuration_refl.
  - apply preserves_bind; [exact keeps_configuration_trans | |intros _];
      apply update_gen_keeps; intros g1; split; reflexivity.
Qed.

Lemma register_hooks_keeps self hs as_group :
  preserves keeps_configuration (register_hooks self hs as_group : WM unit).
Proof.
  unfold register_hooks.
  apply preserves_bind;
    [exact keeps_configuration_trans | apply register_hooks_local_keeps |].
  intros _. apply for_group_preserves;
    [exact keeps_configuration_refl | exact keeps_configuration_trans |].
  intros m _. apply register_hooks_local_keeps.
Qed.

Lemma deregister_hook_keeps self h as_group :
  preserves keeps_configuration (deregister_hook self h as_group : WM unit).
Proof.
  unfold deregister_hook.
  apply preserves_bind;
    [exact keeps_configuration_trans | apply deregister_hook_local_keeps |].
  intros _. apply for_group_preserves;
    [exact keeps_configuration_refl | exact keeps_configuration_trans |].
  intros m _. apply deregister_hook_local_keeps.
Qed.

Lemma set_strategy_grows self arg as_group :
  preserves grows (set_strategy self arg as_group : WM unit).
Proof.
  assert (Hrefl : forall w : World, grows w w) by (intros w; unfold grows; lia).
  assert (Htrans : forall w1 w2 w3 : World, grows w1 w2 -> grows w2 w3 -> grows w1 w3)
    by (unfold grows; intros; lia).
  assert (Hupd : forall m (F : Generator -> Generator),
            preserves grows (update_gen m F : WM unit)).
  { intros m F w r w1 l Heq. unfold update_gen, modify in Heq. inversion Heq; subst.
    unfold grows. simpl. lia. }
  assert (Hmk : forall a, preserves grows (make_strategy a : WM _)).
  { intros a w r w1 l. unfold make_strategy. destruct a as [name|s].
    - repeat case_decide; intros Heq; inversion Heq; subst; unfold grows; simpl; lia.
    - intros Heq. inversion Heq; subst. apply Hrefl. }
  assert (Hloc : forall m a, preserves grows (set_strategy_local m a : WM unit)).
  { intros m a. unfold set_strategy_local.
    apply preserves_bind; [exact Htrans | apply Hmk |]. intros s.
    apply preserves_bind; [exact Htrans | apply Hupd |]. intros _. apply Hupd. }
  unfold set_strategy.
  apply preserves_bind; [exact Htrans | apply Hloc |].
  intros _. apply for_group_preserves; [exact Hrefl | exact Htrans |].
  intros m _. apply preserves_bind; [exact Htrans | apply preserves_gets; exact Hrefl |].
  intros me. apply Hloc.
Qed.


Lemma set_strategy_no_group self arg as_group (w : World) s w0 (l0 : list event) :
  group (gens w self) = None ->
  make_strategy arg w = (Ok s, w0, l0) ->
  returns (set_strategy self arg as_group) w
    (fun _ w1 => (forall j, gens w1 j = upd self (strategy_set s) (gens w) j)
                 /\ groups w1 = groups w).
Proof.
  intros Hgrp Hmk. unfold set_strategy.
  destruct (set_strategy_local_ok self Hmk) as ([] & w1 & Heq & Hg & Hf & _).
  exists tt, w1. rewrite (bind_ok _ Heq).
  rewrite for_group_no_group.
  - split; [reflexivity|]. auto.
  - rewrite Hg, upd_same. exact Hgrp.
Qed.

Lemma strategy_set_consistent (w w1 : World) s (members : list GenRef) self :
  groups w1 = groups w ->
  next_addr w <= next_addr w1 ->
  gens w1 self = strategy_set s (gens w self) ->
  (forall j, j <> self ->
     gens w1 j = if bool_decide (j ∈ members) then strategy_set s (gens w j) else gens w j) ->
  (forall name, group (gens w self) = Some name -> groups w !! name = Some members) ->
  (group (gens w self) = None -> members = []) ->
  consistent_groups w -> consistent_groups w1.
Proof.
  intros Hr Hn Hself Hoth Hreg Hnone (H1 & H2 & H3).
  assert (Hgrp : forall j, group (gens w1 j) = group (gens w j)).
  { intros j. destruct (decide (j = self)) as [->|Hj]; [rewrite Hself; reflexivity|].
    rewrite (Hoth j Hj). case_bool_decide; reflexivity. }
  assert (Hin : forall name m, groups w !! name = Some members -> m ∈ members ->
            group (gens w self) = Some name ->
            strategy (gens w1 m) = s).
  { intros name m Hm Hi _. destruct (decide (m = self)) as [->|Hj];
      [rewrite Hself; reflexivity|].
    rewrite (Hoth m Hj). rewrite bool_decide_true by exact Hi. reflexivity. }
  assert (Hout : forall name (members' : list GenRef) m,
            groups w !! name = Some members' -> m ∈ members' ->
            group (gens w self) <> Some name -> gens w1 m = gens w m).
  { intros name members' m Hm Hi Hne.
    destruct (H1 name members' Hm) as (_ & _ & Hmem).
    destruct (Hmem m Hi) as [_ Hg].
    assert (Hms : m <> self) by (intros ->; congruence).
    rewrite (Hoth m Hms). case_bool_decide as Hd; [|reflexivity].
    exfalso. destruct (group (gens w self)) as [name0|] eqn:Hgs.
    - pose proof (Hreg name0 eq_refl) as Hm0.
      destruct (H1 name0 members Hm0) as (_ & _ & Hmem0).
      destruct (Hmem0 m Hd) as [_ Hg0]. congruence.
    - rewrite (Hnone eq_refl) in Hd. inversion Hd. }
  split; [|split].
  - intros name members' Hm. rewrite Hr in Hm.
    destruct (H1 name members' Hm) as (Hne & Hnd & Hmem).
    split; [exact Hne|]. split; [exact Hnd|].
    intros m Hi. destruct (Hmem m Hi) as [Hlt Hg]. rewrite Hgrp. split; [lia|exact Hg].
  - intros g name Hg. rewrite Hgrp in Hg. rewrite Hr. exact (H2 g name Hg).
  - intros name members' m1 m2 Hm Hi1 Hi2. rewrite Hr in Hm.
    destruct (decide (group (gens w self) = Some name)) as [Hs|Hs].
    + pose proof (Hreg name Hs) as Hm0. rewrite Hm0 in Hm. inversion Hm; subst members'.
      rewrite (Hin name m1 Hm0 Hi1 Hs), (Hin name m2 Hm0 Hi2 Hs). reflexivity.
    + rewrite (Hout name members' m1 Hm Hi1 Hs), (Hout name members' m2 Hm Hi2 Hs).
      exact (H3 name members' m1 m2 Hm Hi1 Hi2).
Qed.

Lemma set_strategy_consistent self arg (w : World) r w1 (l : list event) :
  set_strategy self arg true w = (r, w1, l) ->
  consistent_groups w -> consistent_groups w1.
Proof.
  intros Heq Hc. pose proof (set_strategy_grows self arg true w r w1 l Heq) as Hgrow.
  destruct (make_strategy arg w) as [[[s|e] w0] l0] eqn:Hmk.
  2:{ rewrite (set_strategy_rejected self true Hmk) in Heq. inversion Heq; subst. exact Hc. }
  destruct (group (gens w self)) as [name|] eqn:Hgrp.
  - destruct Hc as (H1 & H2 & H3).
    destruct (H2 self name Hgrp) as (members & Hreg & Hin).
    destruct (set_strategy_effect self true Hgrp Hreg Hmk)
      as ([] & w2 & Heq2 & Hself & Hoth & Hf & _).
    rewrite Heq2 in Heq. inversion Heq; subst.
    apply (strategy_set_consistent w w1 s members self); auto.
    + intros name0 Hn0. rewrite Hgrp in Hn0. inversion Hn0; subst. exact Hreg.
    + rewrite Hgrp. discriminate.
    + split; [exact H1|]. split; [exact H2|exact H3].
  - destruct (set_strategy_no_group self arg true w s w0 l0 Hgrp Hmk)
      as ([] & w2 & Heq2 & Hg & Hr).
    rewrite Heq2 in Heq. inversion Heq; subst.
    apply (strategy_set_consistent w w1 s [] self); auto.
    + rewrite Hg, upd_same. reflexivity.
    + intros j Hj. rewrite Hg, upd_other by exact Hj.
      rewrite bool_decide_false by apply not_elem_of_nil. reflexivity.
    + intros name0 Hn0. rewrite Hgrp in Hn0. discriminate.
Qed.

Lemma init_consistent f arg group0 (w : World) r w1 (l : list event) :
  __init__ f arg group0 w = (r, w1, l) ->
  consistent_groups w -> consistent_groups w1.
Proof.
  intros Heq Hc.
  destruct (recognized_dec arg) as [Hrec|(name & -> & Hn1 & Hn2)].
  2:{ rewrite (init_rejected f name group0 w Hn1 Hn2) in Heq. inversion Heq; subst.
      apply (consistent_groups_kept w); [|exact Hc].
      split; [reflexivity|]. split; [simpl; lia|]. auto. }
  pose proof Hc as (H1 & H2 & H3).
  assert (Hfresh : forall name (members : list GenRef) m,
            groups w !! name = Some members -> m ∈ members -> m <> next_addr w).
  { intros name members m Hm Hi. destruct (H1 name members Hm) as (_ & _ & Hmem).
    destruct (Hmem m Hi) as [Hlt _]. lia. }
  destruct group0 as [name|].
  - destruct (groups w !! name) as [[|first rest]|] eqn:Hreg.
    + destruct (H1 name [] Hreg) as (Hne & _). congruence.
    + assert (Hfirst : first <> next_addr w).
      { apply (Hfresh name (first :: rest)); [exact Hreg | apply elem_of_cons; auto]. }
      destruct (init_in_group f arg name first rest w Hrec Hreg Hfirst)
        as (w2 & Heq2 & Hself & Hr & Hoth & _ & Hn).
      rewrite Heq2 in Heq. inversion Heq; subst. clear Heq.
      set (members := first :: rest) in *.
      split; [|split].
      * intros name' members' Hm. rewrite Hr in Hm.
        apply lookup_insert_Some in Hm. destruct Hm as [[<- <-]|[Hne Hm]].
        -- split; [destruct members; discriminate|]. split.
           ++ apply NoDup_app. destruct (H1 name members Hreg) as (_ & Hnd & _).
              split; [exact Hnd|]. split; [|apply NoDup_singleton].
              intros x Hx Hx1. apply list_elem_of_singleton in Hx1.
              exact (Hfresh name members x Hreg Hx Hx1).
           ++ intros m Hi. apply elem_of_app in Hi. destruct Hi as [Hi|Hi].
              ** destruct (H1 name members Hreg) as (_ & _ & Hmem).
                 destruct (Hmem m Hi) as [Hlt Hg].
                 rewrite (Hoth m) by (apply (Hfresh name members m Hreg Hi)).
                 split; [lia|exact Hg].
              ** apply list_elem_of_singleton in Hi. subst m. rewrite Hself.
                 split; [lia|reflexivity].
        -- destruct (H1 name' members' Hm) as (Hne' & Hnd & Hmem).
           split; [exact Hne'|]. split; [exact Hnd|].
           intros m Hi. destruct (Hmem m Hi) as [Hlt Hg].
           rewrite (Hoth m) by (apply (Hfresh name' members' m Hm Hi)).
           split; [lia|exact Hg].
      * intros g name' Hg. rewrite Hr.
        destruct (decide (g = next_addr w)) as [->|Hgne].
        -- rewrite Hself in Hg. simpl in Hg. inversion Hg; subst name'.
           exists (members ++ [next_addr w]). split.
           ++ apply lookup_insert_Some. left. auto.
           ++ apply elem_of_app. right. apply list_elem_of_singleton. reflexivity.
        -- rewrite (Hoth g Hgne) in Hg.
           destruct (H2 g name' Hg) as (members' & Hm & Hi).
           destruct (decide (name = name')) as [<-|Hnn].
           ++ exists (members ++ [next_addr w]). split.
              ** apply lookup_insert_Some. left. auto.
              ** rewrite Hreg in Hm. inversion Hm; subst members'.
                 apply elem_of_app. left. exact Hi.
           ++ exists members'. split; [|exact Hi].
              apply lookup_insert_Some. right. auto.
      * assert (Hall : forall m, m ∈ members ++ [next_addr w] ->
                  strategy (gens w1 m) = strategy (gens w first)).
        { intros m Hi. apply elem_of_app in Hi. destruct Hi as [Hi|Hi].
          - rewrite (Hoth m) by (apply (Hfresh name members m Hreg Hi)).
            apply (H3 name members m first Hreg Hi). apply elem_of_cons. auto.
          - apply list_elem_of_singleton in Hi. subst m. rewrite Hself. reflexivity. }
        intros name' members' m1 m2 Hm Hi1 Hi2. rewrite Hr in Hm.
        apply lookup_insert_Some in Hm. destruct Hm as [[<- <-]|[Hne Hm]].
        -- rewrite (Hall m1 Hi1), (Hall m2 Hi2). reflexivity.
        -- rewrite (Hoth m1) by (apply (Hfresh name' members' m1 Hm Hi1)).
           rewrite (Hoth m2) by (apply (Hfresh name' members' m2 Hm Hi2)).
           exact (H3 name' members' m1 m2 Hm Hi1 Hi2).
    + destruct (init_alone f arg (Some name) w Hrec Hreg)
        as (w2 & Heq2 & Hself & Hr & Hoth & _ & Hn).
      rewrite Heq2 in Heq. inversion Heq; subst. clear Heq.
      split; [|split].
      * intros name' members' Hm. rewrite Hr in Hm.
        apply lookup_insert_Some in Hm. destruct Hm as [[<- <-]|[Hne Hm]].
        -- split; [discriminate|]. split; [apply NoDup_singleton|].
           intros m Hi. apply list_elem_of_singleton in Hi. subst m. rewrite Hself.
           split; [lia|reflexivity].
        -- destruct (H1 name' members' Hm) as (Hne' & Hnd & Hmem).
           split; [exact Hne'|]. split; [exact Hnd|].
           intros m Hi. destruct (Hmem m Hi) as [Hlt Hg].
           rewrite (Hoth m) by (apply (Hfresh name' members' m Hm Hi)).
           split; [lia|exact Hg].
      * intros g name' Hg. rewrite Hr.
        destruct (decide (g = next_addr w)) as [->|Hgne].
        -- rewrite Hself in Hg. simpl in Hg. inversion Hg; subst name'.
           exists [next_addr w]. split.
           ++ apply lookup_insert_Some. left. auto.
           ++ apply list_elem_of_singleton. reflexivity.
        -- rewrite (Hoth g Hgne) in Hg.
           destruct (H2 g name' Hg) as (members' & Hm & Hi).
           exists members'. split; [|exact Hi].
           apply lookup_insert_Some. right. split; [|exact Hm].
           intros <-. congruence.
      * intros name' members' m1 m2 Hm Hi1 Hi2. rewrite Hr in Hm.
        apply lookup_insert_Some in Hm. destruct Hm as [[<- <-]|[Hne Hm]].
        -- apply list_elem_of_singleton in Hi1, Hi2. subst. reflexivity.
        -- rewrite (Hoth m1) by (apply (Hfresh name' members' m1 Hm Hi1)).
           rewrite (Hoth m2) by (apply (Hfresh name' members' m2 Hm Hi2)).
           exact (H3 name' members' m1 m2 Hm Hi1 Hi2).
  - destruct (init_alone f arg None w Hrec I)
      as (w2 & Heq2 & Hself & Hr & Hoth & _ & Hn).
    rewrite Heq2 in Heq. inversion Heq; subst. clear Heq.
    split; [|split].
    + intros name' members' Hm. rewrite Hr in Hm.
      destruct (H1 name' members' Hm) as (Hne' & Hnd & Hmem).
      split; [exact Hne'|]. split; [exact Hnd|].
      intros m Hi. destruct (Hmem m Hi) as [Hlt Hg].
      rewrite (Hoth m) by (apply (Hfresh name' members' m Hm Hi)).
      split; [lia|exact Hg].
    + intros g name' Hg. rewrite Hr.
      destruct (decide (g = next_addr w)) as [->|Hgne].
      * rewrite Hself in Hg. discriminate.
      * rewrite (Hoth g Hgne) in Hg. exact (H2 g name' Hg).
    + intros name' members' m1 m2 Hm Hi1 Hi2. rewrite Hr in Hm.
      rewrite (Hoth m1) by (apply (Hfresh name' members' m1 Hm Hi1)).
      rewrite (Hoth m2) by (apply (Hfresh name' members' m2 Hm Hi2)).
      exact (H3 name' members' m1 m2 Hm Hi1 Hi2).
Qed.


(** X5: the groups stay consistent under the calls that configure
    generators.  Creating a generator, every call of [set_strategy] that
    propagates to the group, and every call of [register_hooks] and
    [deregister_hook], whether it returns or raises, takes a store in
    which the members of each group are distinct generators that carry
    the group's name and share one strategy object to a store of the same
    kind. *)
Theorem groups_stay_consistent :
  (forall f arg group0 (w : World) r w1 (l : list event),
     __init__ f arg group0 w = (r, w1, l) ->
     consistent_groups w -> consistent_groups w1)
  /\
  (forall c (w : World),
     configures c ->
     consistent_groups w -> consistent_groups (snd (exec c w))).
Proof.
  split; [exact init_consistent|].
  intros c w Hd Hc. destruct c as [self arg b|self hs b|self h b|self args|fuel it];
    simpl in *; try contradiction.
  - subst b. destruct (set_strategy self arg true w) as [[r w1] l] eqn:Heq.
    exact (set_strategy_consistent self arg w r w1 l Heq Hc).
  - destruct (register_hooks self hs b w) as [[r w1] l] eqn:Heq.
    exact (consistent_groups_kept w w1 (register_hooks_keeps _ _ _ _ _ _ _ Heq) Hc).
  - destruct (deregister_hook self h b w) as [[r w1] l] eqn:Heq.
    exact (consistent_groups_kept w w1 (deregister_hook_keeps _ _ _ _ _ _ _ Heq) Hc).
Qed.


(** *** Hooks *)

Lemma occ_NoDup (j : GenRef) (members : list GenRef) :
  NoDup members -> occ j members = if bool_decide (j ∈ members) then 1 else 0.
Proof.
  induction 1 as [|m rest Hnin Hnd IH].
  - case_bool_decide as Hj; [inversion Hj | reflexivity].
  - simpl occ. rewrite IH. destruct (decide (m = j)) as [Hm|Hm].
    + subst m. rewrite (bool_decide_false _ Hnin).
      rewrite bool_decide_true by (apply elem_of_cons; auto). reflexivity.
    + case_bool_decide as Hj.
      * rewrite bool_decide_true by (apply elem_of_cons; auto). reflexivity.
      * rewrite bool_decide_false; [reflexivity|].
        intros Hc. apply elem_of_cons in Hc. destruct Hc; congruence.
Qed.

Lemma register_hooks_effect self hs as_group (w : World) :
  group_registered w self ->
  returns (register_hooks self hs as_group : WM unit) w
    (fun _ w1 =>
       (forall j, gens w1 j =
          if decide (j = self) then hooks_added hs (gens w j)
          else match group (gens w self) with
               | Some name =>
                   if as_group
                   then Nat.iter (occ j (default [] (groups w !! name)))
                          (hooks_added hs) (gens w j)
                   else gens w j
               | None => gens w j
               end) /\
       same_frame w w1).
Proof.
  intros Hreg. unfold register_hooks.
  destruct (register_hooks_local_ok (Val := Val) self hs w) as ([] & w0 & Heq0 & Hg0 & Hf0 & _).
  assert (Hself0 : gens w0 self = hooks_added hs (gens w self)).
  { rewrite Hg0. apply upd_same. }
  assert (Hoth0 : forall j, j <> self -> gens w0 j = gens w j).
  { intros j Hj. rewrite Hg0. apply upd_other. exact Hj. }
  unfold returns. rewrite (bind_ok _ Heq0).
  destruct as_group.
  2:{ rewrite for_group_off. exists tt, w0. split; [reflexivity|]. split; [|exact Hf0].
      intros j. case_decide as Hj; [subst; exact Hself0|].
      rewrite (Hoth0 j Hj). destruct (group (gens w self)); reflexivity. }
  unfold group_registered in Hreg.
  destruct (group (gens w self)) as [name|] eqn:Hgrp.
  2:{ rewrite for_group_no_group by (rewrite Hself0; exact Hgrp).
      exists tt, w0. split; [reflexivity|]. split; [|exact Hf0].
      intros j. case_decide as Hj; [subst; exact Hself0|]. exact (Hoth0 j Hj). }
  destruct Hreg as [members Hm]. rewrite Hm. simpl.
  erewrite for_group_on; cycle 1.
  { rewrite Hself0. exact Hgrp. }
  { destruct Hf0 as [-> _]. exact Hm. }
  assert (Hbody : forall m (w2 : World), m <> self -> gens w2 self = gens w0 self ->
            returns (register_hooks_local m hs : WM unit) w2
              (fun _ w3 => (forall j, gens w3 j = upd m (hooks_added hs) (gens w2) j)
                           /\ same_frame w2 w3)).
  { intros m w2 _ _. eapply returns_weaken; [apply register_hooks_local_ok|].
    intros _ w3 (? & ? & _). auto. }
  destruct (for_each_update self (gens w0 self) (hooks_added hs) _ members Hbody
              w0 eq_refl) as ([] & w1 & Heq & Hg1 & Hf1).
  exists tt, w1. rewrite Heq. split; [reflexivity|].
  split; [|eauto using same_frame_trans].
  intros j. rewrite Hg1. case_decide as Hj; [subst; exact Hself0|].
  rewrite (Hoth0 j Hj). reflexivity.
Qed.

(** X6: for a generator of a registered group whose members are
    distinct, [register_hooks] with propagation appends the given hooks,
    in the order given, to the hook list of the generator and of every
    member of its group, and clears their compiled functions (also when
    no hook is given); generators outside the group are left as they are.
    Without propagation only the generator itself is changed.  Strategy,
    group and function of every generator, the registry and the strategy
    state are never changed. *)
Theorem register_hooks_appends_for_the_group
    self hs as_group (w : World) name (members : list GenRef) :
  group (gens w self) = Some name ->
  groups w !! name = Some members ->
  NoDup members ->
  exists w1,
    register_hooks self hs as_group w = (Ok tt, w1, silent) /\
    (forall j, j = self \/ (as_group = true /\ j ∈ members) ->
       hooks (gens w1 j) = hooks (gens w j) ++ hs /\
       _compiled_func (gens w1 j) = None) /\
    (forall j, j <> self -> (as_group = false \/ j ∉ members) ->
       gens w1 j = gens w j) /\
    (forall j, strategy (gens w1 j) = strategy (gens w j) /\
               group (gens w1 j) = group (gens w j) /\
               func (gens w1 j) = func (gens w j)) /\
    groups w1 = groups w /\ heap w1 = heap w.
Proof.
  intros Hgrp Hm Hnd.
  destruct (register_hooks_effect self hs as_group w) as ([] & w1 & Heq & Hg & Hr & Hh).
  { unfold group_registered. rewrite Hgrp, Hm. eauto. }
  exists w1. split; [exact Heq|].
  assert (Hdesc : forall j, gens w1 j =
            if decide (j = self) then hooks_added hs (gens w j)
            else if as_group && bool_decide (j ∈ members)
                 then hooks_added hs (gens w j) else gens w j).
  { intros j. rewrite Hg. case_decide as Hj; [reflexivity|].
    rewrite Hgrp, Hm. simpl. destruct as_group; [|reflexivity]. simpl.
    rewrite (occ_NoDup j members Hnd). case_bool_decide; reflexivity. }
  split; [|split; [|split; [|split; [exact Hr|exact Hh]]]].
  - intros j Hj. rewrite Hdesc. case_decide as Hjs; [simpl; auto|].
    destruct Hj as [Hj|[-> Hj]]; [contradiction|].
    rewrite bool_decide_true by exact Hj. simpl. auto.
  - intros j Hjs Hj. rewrite Hdesc. rewrite decide_False by exact Hjs.
    destruct Hj as [->|Hj]; [reflexivity|].
    rewrite bool_decide_false by exact Hj. rewrite andb_false_r. reflexivity.
  - intros j. rewrite Hdesc. case_decide; [simpl; auto|].
    destruct (as_group && bool_decide (j ∈ members)); simpl; auto.
Qed.

(** [list.remove] takes the first hook equal to [h] out of the list. *)
Lemma list_remove_at (h x : Hook) pre post :
  (forall y, y ∈ pre -> same_hook y h = false) ->
  same_hook x h = true ->
  list_remove h (pre ++ x :: post) = pre ++ post.
Proof.
  intros Hpre Hx. induction pre as [|y pre IH]; simpl.
  - rewrite Hx. reflexivity.
  - rewrite (Hpre y) by (apply elem_of_cons; auto).
    rewrite IH; [reflexivity|]. intros z Hz. apply Hpre. apply elem_of_cons. auto.
Qed.

Lemma list_remove_length (h : Hook) l :
  h ∈ l -> S (length (list_remove h l)) = length l.
Proof.
  induction l as [|x l IH]; simpl; intros Hin.
  - inversion Hin.
  - destruct (same_hook x h) eqn:Hx; [reflexivity|].
    apply same_hook_false in Hx.
    apply elem_of_cons in Hin. destruct Hin as [->|Hin]; [congruence|].
    simpl. rewrite IH by exact Hin. reflexivity.
Qed.

Lemma hcount_list_remove_plain (h k : Hook) l :
  only_itself h l ->
  hcount k (list_remove h l) = hcount k l - (if decide (k = h) then 1 else 0).
Proof.
  induction l as [|x l IH]; intros Hplain; simpl; [reflexivity|].
  destruct (same_hook x h) eqn:Hx.
  - assert (x = h) as -> by (apply Hplain; [apply elem_of_cons; auto | exact Hx]).
    destruct (decide (h = k)) as [->|Hk].
    + rewrite decide_True by reflexivity. lia.
    + rewrite decide_False by congruence. lia.
  - apply same_hook_false in Hx. simpl.
    rewrite IH by (intros y Hy; apply Hplain; apply elem_of_cons; auto).
    destruct (decide (x = k)) as [->|Hk]; [|reflexivity].
    rewrite decide_False by exact Hx. lia.
Qed.

(** A list that is its own shift by one place repeats one element. *)
Lemma shifted_list (h x : Hook) post :
  post ++ [h] = x :: post -> x = h /\ forall y, y ∈ post -> y = h.
Proof.
  revert x. induction post as [|p ps IH]; intros x; simpl; intros Heq.
  - inversion Heq; subst. split; [reflexivity|]. intros y Hy. inversion Hy.
  - injection Heq as Hp Hps. subst p. destruct (IH x Hps) as [-> Hall].
    split; [reflexivity|]. intros y Hy. apply elem_of_cons in Hy.
    destruct Hy as [->|Hy]; [reflexivity | exact (Hall y Hy)].
Qed.

(** X7: registering a hook that no registered hook is or equals and
    deregistering it again, both with the same propagation, returns and
    leaves every hook list as it was; the compiled function of the
    generator is not restored. *)
Theorem register_then_deregister_restores self h as_group (w : World) :
  unlike_all h w ->
  group_registered w self ->
  exists w1 w2,
    register_hooks self [h] as_group w = (Ok tt, w1, silent) /\
    deregister_hook self h as_group w1 = (Ok tt, w2, silent) /\
    (forall j, hooks (gens w2 j) = hooks (gens w j)) /\
    _compiled_func (gens w2 self) = None.
Proof.
  intros Hun Hreg.
  assert (Hlocal : as_group = false \/ group (gens w self) = None ->
            exists w1 w2,
              register_hooks self [h] as_group w = (Ok tt, w1, silent) /\
              deregister_hook self h as_group w1 = (Ok tt, w2, silent) /\
              (forall j, hooks (gens w2 j) = hooks (gens w j)) /\
              _compiled_func (gens w2 self) = None).
  { intros Hl.
    destruct (register_hooks_effect self [h] as_group w Hreg)
      as ([] & w1 & Heq & Hg & _).
    assert (Hg1 : forall j, gens w1 j = upd self (hooks_added [h]) (gens w) j).
    { intros j. rewrite Hg. unfold upd. case_decide; [reflexivity|].
      destruct Hl as [->| ->]; [destruct (group (gens w self))|]; reflexivity. }
    exists w1.
    destruct (deregister_hook_cases (Val := Val) self h as_group w1)
      as [[Hnin _]|(_ & w0 & Hg0 & _ & Hcase)].
    { exfalso. apply Hnin. rewrite Hg1, upd_same. simpl.
      apply elem_of_app. right. apply list_elem_of_singleton. reflexivity. }
    assert (Hd : deregister_hook self h as_group w1 = (Ok tt, w0, silent)).
    { destruct Hl as [->|Hn]; [exact Hcase|].
      assert (Hn1 : group (gens w1 self) = None) by (rewrite Hg1, upd_same; exact Hn).
      rewrite Hn1 in Hcase. destruct as_group; exact Hcase. }
    exists w0. split; [exact Heq|]. split; [exact Hd|]. split.
    - intros j. rewrite Hg0. unfold upd. case_decide as Hj.
      + subst j. simpl. rewrite Hg1, upd_same. simpl.
        rewrite list_remove_app_fresh by apply Hun. apply app_nil_r.
      + rewrite Hg1, upd_other by exact Hj. reflexivity.
    - rewrite Hg0, upd_same. reflexivity. }
  destruct as_group; [|apply Hlocal; auto].
  destruct (group (gens w self)) as [name|] eqn:Hgrp; [|apply Hlocal; auto].
  unfold group_registered in Hreg. rewrite Hgrp in Hreg. destruct Hreg as [members Hm].
  destruct (register_hooks_group_effect (Val := Val) self h w name members Hgrp Hm)
    as ([] & w1 & Heq & Htr & _).
  destruct (deregister_tracer (Val := Val) Hun Htr) as (w2 & Hd & Hres).
  exists w1, w2. split; [exact Heq|]. split; [exact Hd|]. split.
  - intros j. apply Hres.
  - apply (Hres self). auto.
Qed.

(** X8: registering a hook and deregistering it again takes the first
    hook of the list that is equal to it (the hook itself, when the
    generator already had it) out of the list and leaves the hook at the
    end.  The hook list is not restored unless that place and all that
    follow it held the hook itself. *)
Theorem reregistered_hook_moves_to_the_end self h (w : World) pre x post :
  hooks (gens w self) = pre ++ x :: post ->
  (forall y, y ∈ pre -> same_hook y h = false) ->
  same_hook x h = true ->
  exists w1 w2,
    register_hooks self [h] false w = (Ok tt, w1, silent) /\
    deregister_hook self h false w1 = (Ok tt, w2, silent) /\
    hooks (gens w2 self) = pre ++ post ++ [h] /\
    ((exists y, y ∈ x :: post /\ y <> h) ->
     hooks (gens w2 self) <> hooks (gens w self)).
Proof.
  intros Hl Hpre Hx. unfold register_hooks, deregister_hook.
  destruct (register_hooks_local_ok (Val := Val) self [h] w) as ([] & w1 & Heq & Hg & _).
  assert (Hin1 : h ∈ hooks (gens w1 self)).
  { rewrite Hg, upd_same. simpl. apply elem_of_app. right.
    apply list_elem_of_singleton. reflexivity. }
  destruct (deregister_hook_local_ok (Val := Val) self h w1 Hin1)
    as ([] & w2 & Heq2 & Hg2 & _).
  exists w1, w2. rewrite (bind_ok _ Heq), (bind_ok _ Heq2), !for_group_off.
  split; [reflexivity|]. split; [reflexivity|].
  assert (Hh2 : hooks (gens w2 self) = pre ++ post ++ [h]).
  { rewrite Hg2, upd_same. simpl. rewrite Hg, upd_same. simpl. rewrite Hl.
    rewrite <- app_assoc. simpl. apply (list_remove_at h x pre (post ++ [h]) Hpre Hx). }
  split; [exact Hh2|].
  intros (y & Hy & Hne) Hsame. rewrite Hh2, Hl in Hsame.
  apply app_inv_head in Hsame. destruct (shifted_list h x post Hsame) as [-> Hall].
  apply elem_of_cons in Hy. destruct Hy as [->|Hy]; [congruence|].
  exact (Hne (Hall y Hy)).
Qed.

Lemma dereg_loop_keeps_self self h as_group :
  preserves (fun w w1 : World => gens w1 self = gens w self)
    (for_group self as_group (fun g => deregister_hook_local g h) : WM unit).
Proof.
  apply for_group_preserves; [reflexivity | intros; congruence |].
  intros m Hne w r w1 l Heq.
  destruct (decide (h ∈ hooks (gens w m))) as [Hin|Hnin].
  - destruct (deregister_hook_local_ok (Val := Val) m h w Hin) as ([] & w2 & Heq2 & Hg & _).
    rewrite Heq2 in Heq. inversion Heq; subst.
    rewrite Hg. apply upd_other. congruence.
  - rewrite (deregister_hook_local_raise m h w Hnin) in Heq. inversion Heq; subst.
    reflexivity.
Qed.

(** X9: a propagating [deregister_hook] that fails at a member of the
    group is not undone: when the generator has the hook but the hook
    cannot be deregistered from some other member of its group, the call
    raises [ValueError("Hook was not registered.")] and the generator has
    nevertheless lost a hook (the first of its list that is equal to the
    hook given) and its compiled function. *)
Theorem failed_deregistration_is_not_undone
    self h (w : World) name (members : list GenRef) :
  h ∈ hooks (gens w self) ->
  group (gens w self) = Some name ->
  groups w !! name = Some members ->
  short_of_hook self h members w ->
  exists w1,
    deregister_hook self h true w = (Raise not_registered, w1, silent) /\
    hooks (gens w1 self) = list_remove h (hooks (gens w self)) /\
    S (length (hooks (gens w1 self))) = length (hooks (gens w self)) /\
    _compiled_func (gens w1 self) = None.
Proof.
  intros Hin Hgrp Hm Hs.
  destruct (deregister_hook_cases (Val := Val) self h true w)
    as [[Hnin _]|(_ & w0 & Hg0 & _ & Hcase)]; [contradiction|].
  rewrite Hgrp, Hm in Hcase.
  destruct Hcase as [(_ & w1 & Heq)|(Hns & _)]; [|contradiction].
  exists w1. split; [exact Heq|].
  destruct (deregister_hook_local_ok (Val := Val) self h w Hin)
    as ([] & w0' & Heq0 & Hg0' & _).
  unfold deregister_hook in Heq. rewrite (bind_ok _ Heq0) in Heq.
  destruct (for_group self true (fun g => deregister_hook_local g h) w0')
    as [[r2 w2] l2] eqn:Hloop.
  inversion Heq; subst.
  rewrite (dereg_loop_keeps_self self h true _ _ _ _ Hloop).
  rewrite Hg0', upd_same. simpl.
  split; [reflexivity|]. split; [exact (list_remove_length h _ Hin) | reflexivity].
Qed.

(** X10: a [deregister_hook] that returns takes exactly one hook out of
    the list of the generator it is called on: the first that is equal to
    the hook given.  When no hook of the list but the hook itself
    compares equal to it, that is one registration of the hook and none
    of any other hook: a hook that was registered twice is still
    registered. *)
Theorem deregister_hook_removes_one_registration
    self h as_group (w : World) w1 (l : list event) :
  deregister_hook self h as_group w = (Ok tt, w1, l) ->
  hooks (gens w1 self) = list_remove h (hooks (gens w self)) /\
  S (length (hooks (gens w1 self))) = length (hooks (gens w self)) /\
  (only_itself h (hooks (gens w self)) ->
   forall k, hcount k (hooks (gens w1 self))
             = hcount k (hooks (gens w self)) - (if decide (k = h) then 1 else 0)).
Proof.
  intros Heq.
  destruct (decide (h ∈ hooks (gens w self))) as [Hin|Hnin].
  2:{ unfold deregister_hook in Heq.
      rewrite (bind_raise _ (deregister_hook_local_raise self h w Hnin)) in Heq.
      discriminate. }
  destruct (deregister_hook_local_ok (Val := Val) self h w Hin)
    as ([] & w0 & Heq0 & Hg0 & _).
  unfold deregister_hook in Heq. rewrite (bind_ok _ Heq0) in Heq.
  destruct (for_group self as_group (fun g => deregister_hook_local g h) w0)
    as [[r2 w2] l2] eqn:Hloop.
  inversion Heq; subst.
  rewrite (dereg_loop_keeps_self self h as_group _ _ _ _ Hloop).
  rewrite Hg0, upd_same. simpl.
  split; [reflexivity|]. split; [exact (list_remove_length h _ Hin)|].
  intros Hplain k. apply hcount_list_remove_plain. exact Hplain.
Qed.

End Construction.

(** ** More on enumerations *)

Section EnumerationFrame.

Context {Val St : Type} {EXT : Externals Val St}.

Local Abbreviation World := (World St).
Local Abbreviation WM := (WM Val St).
Local Abbreviation Generator := (Generator St).
Local Abbreviation event := (event Val).
Local Abbreviation silent := ([] : list event).
Local Abbreviation Iter := (Iter Val).
Local Abbreviation TraceIter := (TraceIter Val).
Local Abbreviation deregister_hook := (deregister_hook (Val := Val) (St := St)).
Local Abbreviation free_of := (free_of (Val := Val)).

(** X11: when the operator raises, in a call whose keyword arguments do
    not include [generator], [op_name] or [sid], the callable returned by
    [compile_op] raises the same exception, after the [before_op] of
    every hook and the operator's own effects; no [after_op] is called. *)
Theorem compile_op_propagates_the_operator_exception
    gen op_name sid (op : Operator Val St) hooks args kwargs s e s1 l :
  free_of before_op_keywords kwargs ->
  op args kwargs s = (Raise e, s1, l) ->
  compile_op gen op_name sid op hooks args kwargs s =
  (Raise e, s1, map (fun h => BeforeOp h args kwargs gen op_name sid) hooks ++ l).
Proof.
  intros Hfree Hop. exact (compile_op_operator_raises _ _ _ _ _ _ _ _ _ _ _ Hfree Hop).
Qed.

Lemma suspended_next_without_function fuel (it : Iter) (w : World) :
  it_pc it = PSuspended ->
  _compiled_func (gens w (it_self it)) = None ->
  let self := it_self it in
  let hs := hooks (gens w self) in
  let a := addr_of w self in
  let ms := methods_of w self in
  let st := m_finish_run ms (heap w) in
  generate_next (S fuel) it w =
  if m_is_finished ms st then
    (StopIteration, set_pc PDone it, set_heap (m_finish ms st) w,
     finish_run_events hs a ++ finish_events hs a)
  else
    (Raised (TypeError "'NoneType' object is not callable"), set_pc PDone it,
     set_heap (m_init_run ms st) w,
     finish_run_events hs a ++ init_run_events hs a (it_args it)).
Proof.
  intros Hpc Hnone. cbv zeta.
  rewrite generate_next_result, generate_body_resume by (rewrite Hpc; discriminate).
  unfold generate_resume. rewrite Hpc, after_run_eq.
  rewrite generate_loop_step. cbv zeta.
  change (methods_of (set_heap ?s w) ?x) with (methods_of w x).
  change (addr_of (set_heap ?s w) ?x) with (addr_of w x).
  change (gens (set_heap ?s w)) with (gens w).
  change (heap (set_heap ?s w)) with s.
  destruct (m_is_finished _ _).
  - reflexivity.
  - rewrite invoke_compiled_eq.
    change (set_heap ?s1 (set_heap ?s2 w)) with (set_heap s1 w).
    change (gens (set_heap ?s1 w)) with (gens w).
    rewrite Hnone. simpl. rewrite app_nil_r. reflexivity.
Qed.

(** X14: the compiled function is looked up at every run but compiled
    only at the first [next].  When [set_strategy], [register_hooks] or
    [deregister_hook] has returned on the generator of a suspended
    enumeration, the next [next] calls the [finish_run] of the strategy
    and of the hooks and then, unless the strategy is finished, the
    [init_run] of the hooks and of the strategy and raises
    [TypeError("'NoneType' object is not callable")]: no run is made and
    the iterator is finished.  If the strategy is finished the
    enumeration ends normally. *)
Theorem reconfigured_enumeration_fails fuel (it : Iter) c (w : World) :
  it_pc it = PSuspended ->
  mutates (it_self it) c ->
  fst (exec c w) = true ->
  let w1 := snd (exec c w) in
  let self := it_self it in
  let hs := hooks (gens w1 self) in
  let a := addr_of w1 self in
  let ms := methods_of w1 self in
  let st := m_finish_run ms (heap w1) in
  (m_is_finished ms st = false ->
     generate_next (S fuel) it w1 =
     (Raised (TypeError "'NoneType' object is not callable"), set_pc PDone it,
      set_heap (m_init_run ms st) w1,
      finish_run_events hs a ++ init_run_events hs a (it_args it)))
  /\
  (m_is_finished ms st = true ->
     generate_next (S fuel) it w1 =
     (StopIteration, set_pc PDone it, set_heap (m_finish ms st) w1,
      finish_run_events hs a ++ finish_events hs a)).
Proof.
  intros Hpc Hmut Hok. cbv zeta.
  pose proof (exec_mutator_clears c w (it_self it) Hmut Hok) as Hnone.
  pose proof (suspended_next_without_function fuel it (snd (exec c w)) Hpc Hnone) as Hn.
  cbv zeta in Hn.
  split; intros Hfin; rewrite Hfin in Hn; exact Hn.
Qed.

(** X15: a trace is the enumeration of the generator with the tracer
    registered.  When the tracer has been registered, consuming the trace
    makes the same calls on hooks and strategy as consuming [generate] in
    the store the registration left and yields one value for each value
    of the enumeration: that value paired with the record the tracer
    gives for the calls made during the [next] of the enumeration that
    returned the value.  The trace ends as the enumeration ends, in the
    same store, except that at the end of the enumeration the tracer is
    deregistered: the trace then ends in the store that call leaves, with
    its error if it raises. *)
Theorem trace_follows_the_enumeration
    fuel pulls self args (w : World) tracer wr vals ex it1 w1 evs :
  trace_prologue self w = (Ok tracer, wr, silent) ->
  drain (generate_next fuel) (S pulls) (generate self args) wr = (vals, ex, it1, w1, evs) ->
  let log := drain_log (generate_next fuel) (S pulls) (generate self args) wr in
  map fst log = vals /\
  concat (map snd log) `prefix_of` evs /\
  exists ex' tit w2,
    drain (trace_next fuel) (S pulls) (trace self args) w
    = (map (traced_value tracer) log, ex', tit, w2, evs) /\
    match ex with
    | DStop =>
        exists r, deregister_hook self tracer true w1 = (r, w2, silent) /\
                  ex' = match r with
                        | Ok _ => DStop
                        | Raise e => DRaised (out_of_generator e)
                        end
    | _ => ex' = ex /\ w2 = w1
    end.
Proof.
  intros Hpro Hd. cbv zeta.
  split; [exact (drain_log_values _ _ _ _ _ _ _ _ _ Hd)|].
  split; [exact (drain_log_events _ _ _ _ _ _ _ _ _ Hd)|].
  exact (trace_follows_generate fuel pulls self args w tracer wr vals ex it1 w1 evs Hpro Hd).
Qed.

End EnumerationFrame.

(** ** The syntax-directed parts of [compile_func] *)

Section SyntaxFacts.

Context (unparse : call -> string).

Lemma get_user_oid_from_none n_call kws :
  get_user_oid_from unparse n_call kws = Ok None <->
  (forall kw, kw ∈ kws -> kw_arg kw <> Some "oid").
Proof.
  induction kws as [|k rest IH]; simpl.
  - split; [intros _ kw Hin; inversion Hin | reflexivity].
  - case_decide as Hk.
    + split.
      * destruct (kw_value k); discriminate.
      * intros Hall. exfalso. apply (Hall k); [apply elem_of_cons; auto | exact Hk].
    + rewrite IH. split.
      * intros Hall kw Hin. apply elem_of_cons in Hin. destruct Hin as [->|Hin]; auto.
      * intros Hall kw Hin. apply Hall. apply elem_of_cons. auto.
Qed.

Lemma get_user_oid_from_skip n_call before rest :
  (forall k, k ∈ before -> kw_arg k <> Some "oid") ->
  get_user_oid_from unparse n_call (before ++ rest) = get_user_oid_from unparse n_call rest.
Proof.
  induction before as [|k before IH]; simpl; intros Hall; [reflexivity|].
  rewrite decide_False by (apply Hall; apply elem_of_cons; auto).
  apply IH. intros k' Hin. apply Hall. apply elem_of_cons. auto.
Qed.

(** X16: [get_user_oid] is decided by the first keyword named [oid]:
    it returns [None] exactly when the call has no such keyword;
    otherwise it returns the string of that keyword when its value is a
    string literal and raises [Exception("Value passed to 'oid' must be a
    string in <call>")] when it is anything else.  The keywords after the
    first [oid] are not looked at. *)
Theorem get_user_oid_first_keyword_decides :
  (forall n_call,
     get_user_oid unparse n_call = Ok None <->
     (forall kw, kw ∈ call_keywords n_call -> kw_arg kw <> Some "oid"))
  /\
  (forall f args before kw after,
     (forall k, k ∈ before -> kw_arg k <> Some "oid") ->
     kw_arg kw = Some "oid" ->
     get_user_oid unparse (mkCall f args (before ++ kw :: after)) =
     match kw_value kw with
     | ast_Str s => Ok (Some s)
     | _ => Raise (Exception (String.append "Value passed to 'oid' must be a string in "
                                (unparse (mkCall f args (before ++ kw :: after)))))
     end).
Proof.
  split.
  - intros n_call. apply get_user_oid_from_none.
  - intros f args before kw after Hbefore Hkw. unfold get_user_oid. simpl call_keywords.
    rewrite get_user_oid_from_skip by exact Hbefore.
    simpl. rewrite decide_True by exact Hkw. reflexivity.
Qed.

(** The three shapes of decorator that [compile_func] removes:
    [@generator], [@<value>.generator] and [@generator(...)]. *)
Lemma keeps_decorator_false d :
  keeps_decorator d = false <-> is_generator_decorator d.
Proof.
  unfold keeps_decorator, is_generator_decorator.
  destruct d as [s|id|v attr|[f args kws]|tag]; simpl;
    try (split; [discriminate | intros []]).
  - destruct (String.eqb_spec id "generator"); simpl; split; intros; congruence.
  - destruct (String.eqb_spec attr "generator"); simpl; split; intros; congruence.
  - destruct f as [s|id|v attr|c|tag]; simpl;
      try (split; [discriminate | intros []]).
    destruct (String.eqb_spec id "generator"); simpl; split; intros; congruence.
Qed.

(** X17: of the decorators of the function, [compile_func] removes
    exactly [@generator], [@<value>.generator] and [@generator(...)], and
    keeps the others in their order; a call through an attribute,
    [@<value>.generator(...)], is kept. *)
Theorem generator_decorators_removed decorator_list :
  (forall d, d ∈ remove_generator_decorator decorator_list <->
             d ∈ decorator_list /\ ~ is_generator_decorator d)
  /\ remove_generator_decorator decorator_list `sublist_of` decorator_list
  /\ (forall v args kws,
        ast_Call (mkCall (ast_Attribute v "generator") args kws) ∈ decorator_list ->
        ast_Call (mkCall (ast_Attribute v "generator") args kws)
          ∈ remove_generator_decorator decorator_list)
  /\ remove_generator_decorator (remove_generator_decorator decorator_list)
     = remove_generator_decorator decorator_list.
Proof.
  assert (Hiff : forall d, d ∈ remove_generator_decorator decorator_list <->
                           d ∈ decorator_list /\ ~ is_generator_decorator d).
  { intros d. unfold remove_generator_decorator.
    induction decorator_list as [|x ds IH]; simpl.
    - split; [intros Hin; inversion Hin | intros [Hin _]; inversion Hin].
    - destruct (keeps_decorator x) eqn:Hx.
      + rewrite !elem_of_cons, IH. split.
        * intros [->|[Hin Hn]]; [|auto]. split; [auto|].
          intros Hg. apply keeps_decorator_false in Hg. congruence.
        * intros [[->|Hin] Hn]; auto.
      + rewrite IH, elem_of_cons. split.
        * intros [Hin Hn]. auto.
        * intros [[->|Hin] Hn]; [|auto].
          exfalso. apply Hn. apply keeps_decorator_false. exact Hx. }
  split; [exact Hiff|]. split; [|split].
  - unfold remove_generator_decorator. clear Hiff.
    induction decorator_list as [|d ds IH]; simpl; [constructor|].
    destruct (keeps_decorator d); [apply sublist_skip | apply sublist_cons]; exact IH.
  - intros v args kws Hin. apply Hiff. split; [exact Hin|]. intros [].
  - unfold remove_generator_decorator. clear Hiff.
    induction decorator_list as [|d ds IH]; simpl; [reflexivity|].
    destruct (keeps_decorator d) eqn:Hd; simpl; [rewrite Hd|]; rewrite IH; reflexivity.
Qed.

End SyntaxFacts.

(** ** [RandStrategy.make_call] *)

(** X18: [make_call] returns the method written for the operator,
    [<op_kind>_<op_id>], when the strategy has one, and the method named
    [<op_kind>] otherwise; it fails exactly when the strategy has
    neither. *)
Theorem make_call_prefers_the_specific_operator
    {A : Type} (self : gmap string A) op_kind op_id :
  let specific := String.append (String.append op_kind "_") op_id in
  (forall m, self !! specific = Some m -> make_call self op_kind op_id = Some m) /\
  (self !! specific = None -> make_call self op_kind op_id = self !! op_kind) /\
  (make_call self op_kind op_id = None <->
   self !! specific = None /\ self !! op_kind = None).
Proof.
  cbv zeta. unfold make_call.
  destruct (self !! String.append (String.append op_kind "_") op_id) as [m|] eqn:Hs.
  - rewrite bool_decide_true by eauto. rewrite Hs.
    split; [auto|]. split; [discriminate|].
    split; [discriminate | intros [? _]; discriminate].
  - rewrite bool_decide_false by (intros [? ?]; discriminate).
    split; [discriminate|]. split; [auto|].
    split; [auto | intros [_ ?]; assumption].
Qed.

(** ** [Network.get_batch_iterator] *)

Section NetworkFacts.

Context {Node Batch : Type}.
Local Abbreviation Graph := (gmap string (list Node)).
Context (define_batch : list Graph -> bool -> Batch).

Local Abbreviation locals := (batch_locals (Node := Node)).
Local Abbreviation body := (batch_body define_batch).
Local Abbreviation batch := (batch_of define_batch).

Lemma batch_body_eq batch_size is_training (g : Graph) off (cur : list Graph) :
  body batch_size is_training g {| node_offset := off; cur_batch := cur |} =
  match g !! "nodes" with
  | None =>
      (Raise (KeyError "nodes"), {| node_offset := off; cur_batch := cur ++ [g] |}, [])
  | Some nodes =>
      if (batch_size <? Z.of_nat (off + List.length nodes))%Z then
        (Ok tt, {| node_offset := 0; cur_batch := cur ++ [g] |},
         [(List.length (cur ++ [g]), define_batch (cur ++ [g]) is_training)])
      else
        (Ok tt, {| node_offset := off + List.length nodes; cur_batch := cur ++ [g] |}, [])
  end.
Proof.
  unfold batch_body, getitem, bind, modify, gets, emit, ret, raise. simpl.
  destruct (g !! "nodes") as [nodes|]; simpl; [|reflexivity].
  destruct (batch_size <? Z.of_nat (off + List.length nodes))%Z; reflexivity.
Qed.

Lemma for_each_app {Sigma E A} (xs ys : list A) (f : A -> M Sigma E unit) s :
  for_each (xs ++ ys) f s =
  match for_each xs f s with
  | (Ok _, s1, l1) =>
      match for_each ys f s1 with (r, s2, l2) => (r, s2, l1 ++ l2) end
  | (Raise e, s1, l1) => (Raise e, s1, l1)
  end.
Proof.
  revert s. induction xs as [|x xs IH]; intros s; simpl.
  - destruct (for_each ys f s) as [[r s2] l2]. reflexivity.
  - unfold bind. destruct (f x s) as [[[[]|e] s1] l1]; [|reflexivity].
    rewrite IH. destruct (for_each xs f s1) as [[[[]|e] s2] l2]; [|reflexivity].
    destruct (for_each ys f s2) as [[r s3] l3]. rewrite app_assoc. reflexivity.
Qed.

(** The loop over graphs that all have nodes: it returns, the graphs
    are added to the batch, and the values are batches of more and more
    of the graphs. *)
Lemma batch_loop_ok batch_size is_training :
  forall (rest : list Graph) off (cur : list Graph),
    Forall has_nodes rest ->
    exists ks off',
      for_each rest (body batch_size is_training)
        {| node_offset := off; cur_batch := cur |}
      = (Ok tt, {| node_offset := off'; cur_batch := cur ++ rest |},
         map (batch (cur ++ rest) is_training) ks) /\
      increasing (List.length cur) ks /\
      Forall (fun k => k <= List.length (cur ++ rest)) ks.
Proof.
  induction rest as [|g rest IH]; intros off cur Hall.
  - exists [], off. rewrite app_nil_r. split; [reflexivity|].
    split; [exact I | constructor].
  - apply Forall_cons in Hall. destruct Hall as [[nodes Hg] Hall].
    simpl for_each. unfold bind at 1. rewrite batch_body_eq, Hg.
    assert (Happ : (cur ++ [g]) ++ rest = cur ++ g :: rest)
      by (rewrite <- app_assoc; reflexivity).
    assert (Hlen : List.length (cur ++ [g]) = S (List.length cur))
      by (rewrite length_app; simpl; lia).
    destruct (batch_size <? Z.of_nat (off + List.length nodes))%Z.
    + destruct (IH 0 (cur ++ [g]) Hall) as (ks & off' & Heq & Hs & Hb).
      rewrite Heq, Happ. exists (S (List.length cur) :: ks), off'.
      split; [|split].
      * assert (Htake : take (S (List.length cur)) (cur ++ g :: rest) = cur ++ [g])
          by (rewrite <- Happ, <- Hlen, take_app_length; reflexivity).
        simpl. unfold batch_of at 2. rewrite Htake, Hlen. reflexivity.
      * simpl. split; [lia|]. rewrite Hlen in Hs. exact Hs.
      * constructor.
        -- rewrite length_app. simpl. lia.
        -- rewrite Happ in Hb. exact Hb.
    + destruct (IH (off + List.length nodes) (cur ++ [g]) Hall)
        as (ks & off' & Heq & Hs & Hb).
      rewrite Heq, Happ. exists ks, off'. split; [reflexivity|]. split.
      * rewrite Hlen in Hs. destruct ks as [|k ks]; [exact I|].
        simpl in *. destruct Hs as [Hk Hs]. split; [lia|exact Hs].
      * rewrite Happ in Hb. exact Hb.
Qed.

Lemma batch_of_prefix (l1 l2 : list Graph) is_training ks :
  Forall (fun k => k <= List.length l1) ks ->
  map (batch (l1 ++ l2) is_training) ks = map (batch l1 is_training) ks.
Proof.
  induction 1 as [|k ks Hk _ IH]; simpl; [reflexivity|].
  rewrite IH. unfold batch_of at 1 3. rewrite take_app_le by exact Hk. reflexivity.
Qed.

Lemma batch_loop_raise batch_size is_training (before after : list Graph) (g : Graph)
    off (cur : list Graph) :
  Forall has_nodes before ->
  g !! "nodes" = None ->
  exists ks st',
    for_each (before ++ g :: after) (body batch_size is_training)
      {| node_offset := off; cur_batch := cur |}
    = (Raise (KeyError "nodes"), st',
       map (batch (cur ++ before ++ g :: after) is_training) ks) /\
    increasing (List.length cur) ks /\
    Forall (fun k => k <= List.length (cur ++ before)) ks.
Proof.
  intros Hall Hg.
  destruct (batch_loop_ok batch_size is_training before off cur Hall)
    as (ks & off' & Heq & Hs & Hb).
  exists ks. eexists. rewrite for_each_app, Heq. simpl for_each.
  unfold bind at 1. rewrite batch_body_eq, Hg.
  split; [|split; [exact Hs | exact Hb]].
  rewrite app_nil_r, (app_assoc cur before (g :: after)).
  rewrite (batch_of_prefix (cur ++ before) (g :: after)) by exact Hb. reflexivity.
Qed.

Lemma batch_loop_quiet batch_size is_training :
  forall (rest : list Graph) off (cur : list Graph),
    Forall has_nodes rest ->
    (Z.of_nat (off + sum_list (map node_count rest)) <= batch_size)%Z ->
    for_each rest (body batch_size is_training)
      {| node_offset := off; cur_batch := cur |}
    = (Ok tt, {| node_offset := off + sum_list (map node_count rest);
                 cur_batch := cur ++ rest |}, []).
Proof.
  induction rest as [|g rest IH]; intros off cur Hall Hle.
  - simpl. rewrite app_nil_r, Nat.add_0_r. reflexivity.
  - apply Forall_cons in Hall. destruct Hall as [[nodes Hg] Hall].
    simpl for_each. unfold bind at 1. rewrite batch_body_eq, Hg.
    simpl in Hle. unfold node_count in Hle at 1. rewrite Hg in Hle. simpl in Hle.
    destruct (Z.ltb_spec batch_size (Z.of_nat (off + List.length nodes))) as [Hlt|Hge];
      [lia|].
    rewrite IH; [|exact Hall|lia].
    simpl. unfold node_count at 2. rewrite Hg. simpl.
    rewrite <- app_assoc, Nat.add_assoc. reflexivity.
Qed.

Lemma batches_eq (graph_iter : list Graph) batch_size is_training :
  batches define_batch graph_iter batch_size is_training =
  match for_each graph_iter (body batch_size is_training)
          {| node_offset := 0; cur_batch := [] |} with
  | (Ok _, st, l) =>
      (l ++ (if Nat.ltb 0 (List.length (cur_batch st))
             then [(List.length (cur_batch st), define_batch (cur_batch st) is_training)]
             else []), None)
  | (Raise e, _, l) => (l, Some e)
  end.
Proof.
  unfold batches, get_batch_iterator, bind, modify, gets, emit, ret. simpl.
  destruct (for_each graph_iter _ _) as [[[[]|e] st] l]; [|reflexivity].
  destruct (Nat.ltb 0 (List.length (cur_batch st))); simpl; [reflexivity|].
  rewrite app_nil_r. reflexivity.
Qed.

Lemma batches_ok (graph_iter : list Graph) batch_size is_training :
  Forall has_nodes graph_iter ->
  exists ks,
    batches define_batch graph_iter batch_size is_training
    = (map (batch graph_iter is_training) ks
       ++ match graph_iter with
          | [] => []
          | _ :: _ => [(List.length graph_iter, define_batch graph_iter is_training)]
          end, None) /\
    increasing 0 ks /\
    Forall (fun k => k <= List.length graph_iter) ks /\
    ((Z.of_nat (sum_list (map node_count graph_iter)) <= batch_size)%Z -> ks = []).
Proof.
  intros Hall.
  destruct (Z_le_gt_dec (Z.of_nat (sum_list (map node_count graph_iter))) batch_size)
    as [Hle|Hgt].
  - exists []. rewrite batches_eq, batch_loop_quiet by (simpl; auto). simpl.
    split; [|split; [exact I|split; [constructor|reflexivity]]].
    destruct graph_iter; reflexivity.
  - destruct (batch_loop_ok batch_size is_training graph_iter 0 [] Hall)
      as (ks & off' & Heq & Hs & Hb).
    exists ks. rewrite batches_eq, Heq. simpl.
    split; [|split; [exact Hs|split; [exact Hb|lia]]].
    destruct graph_iter; reflexivity.
Qed.

(** X19: the batches are cumulative.  When every graph has nodes the
    iteration ends normally, and each value yielded in the loop is the
    number [k] of graphs read so far with [define_batch] of those [k]
    graphs, for strictly increasing [k]: the batch is never emptied.  After
    the loop one more value is yielded, with all the graphs, unless there
    was no graph at all, in which case nothing is yielded.  When the nodes
    of all graphs together do not exceed [batch_size], that final value is
    the only one. *)
Theorem batches_are_cumulative (graph_iter : list Graph) batch_size is_training :
  Forall has_nodes graph_iter ->
  exists ks,
    batches define_batch graph_iter batch_size is_training
    = (map (batch_of define_batch graph_iter is_training) ks
       ++ match graph_iter with
          | [] => []
          | _ :: _ => [(List.length graph_iter, define_batch graph_iter is_training)]
          end, None) /\
    increasing 0 ks /\
    Forall (fun k => k <= List.length graph_iter) ks /\
    ((Z.of_nat (sum_list (map node_count graph_iter)) <= batch_size)%Z -> ks = []).
Proof. exact (batches_ok graph_iter batch_size is_training). Qed.

(** X20: a graph that closes a batch at the very end is sent twice.
    When the last graph alone has more nodes than [batch_size], the loop
    yields the batch of all graphs at that graph and the statement after
    the loop yields it again. *)
Theorem last_batch_is_yielded_twice
    (init : list Graph) (g : Graph) nodes batch_size is_training :
  Forall has_nodes init ->
  g !! "nodes" = Some nodes ->
  (batch_size < Z.of_nat (List.length nodes))%Z ->
  exists ys,
    batches define_batch (init ++ [g]) batch_size is_training
    = (ys ++ [(List.length (init ++ [g]), define_batch (init ++ [g]) is_training);
              (List.length (init ++ [g]), define_batch (init ++ [g]) is_training)],
       None).
Proof.
  intros Hall Hg Hlt.
  destruct (batch_loop_ok batch_size is_training init 0 [] Hall)
    as (ks & off' & Heq & _).
  exists (map (batch init is_training) ks).
  rewrite batches_eq, for_each_app, Heq. simpl for_each.
  unfold bind at 1. rewrite batch_body_eq, Hg.
  destruct (Z.ltb_spec batch_size (Z.of_nat (off' + List.length nodes))) as [_|Hge];
    [|lia].
  simpl.
  assert (Hpos : Nat.ltb 0 (List.length (init ++ [g])) = true)
    by (apply Nat.ltb_lt; rewrite length_app; simpl; lia).
  rewrite Hpos, <- app_assoc. reflexivity.
Qed.

(** X21: a graph without the entry ['nodes'] ends the iteration with
    [KeyError('nodes')].  The values yielded before are batches of graphs
    that come before it; nothing is yielded for it or for the graphs after
    it, and the batch that was being filled is lost. *)
Theorem graph_without_nodes_ends_the_batches
    (before after : list Graph) (g : Graph) batch_size is_training :
  Forall has_nodes before ->
  g !! "nodes" = None ->
  exists ks,
    batches define_batch (before ++ g :: after) batch_size is_training
    = (map (batch_of define_batch before is_training) ks, Some (KeyError "nodes")) /\
    increasing 0 ks /\
    Forall (fun k => k <= List.length before) ks.
Proof.
  intros Hall Hg.
  destruct (batch_loop_raise batch_size is_training before after g 0 [] Hall Hg)
    as (ks & st' & Heq & Hs & Hb).
  exists ks. rewrite batches_eq, Heq. simpl in *.
  split; [|split; [exact Hs | exact Hb]].
  rewrite batch_of_prefix by exact Hb. reflexivity.
Qed.

Lemma sum_list_append (l1 l2 : list nat) :
  sum_list (l1 ++ l2) = sum_list l1 + sum_list l2.
Proof. induction l1 as [|x l1 IH]; simpl; [reflexivity|]. rewrite IH. lia. Qed.

Lemma increasing_sum low ks :
  increasing low ks -> List.length ks <= sum_list ks.
Proof.
  revert low. induction ks as [|k ks IH]; intros low; simpl; [lia|].
  intros [Hk Hs]. specialize (IH k Hs). lia.
Qed.

(** X24: the sizes of the batches add up to more than the graphs.
    When every graph has nodes, the numbers of graphs yielded with the
    batches sum to at least the number of graphs plus the number of
    batches less one: as soon as there are two batches, graphs are counted
    more than once. *)
Theorem batch_sizes_count_graphs_again (graph_iter : list Graph) batch_size is_training :
  Forall has_nodes graph_iter ->
  List.length graph_iter
  + List.length (fst (batches define_batch graph_iter batch_size is_training))
  <= sum_list (map fst (fst (batches define_batch graph_iter batch_size is_training))) + 1.
Proof.
  intros Hall.
  destruct (batches_ok graph_iter batch_size is_training Hall)
    as (ks & -> & Hs & Hb & _).
  simpl fst. rewrite length_app, map_app, sum_list_append, length_map, map_map. simpl.
  rewrite map_id. pose proof (increasing_sum 0 ks Hs) as Hsum.
  destruct graph_iter as [|g rest]; simpl; lia.
Qed.

End NetworkFacts.

(** ** [Network.train] *)

Section TrainFacts.

Context {Node Batch Op Num Session : Type}.

Local Abbreviation Graph := (gmap string (list Node)).

Context (define_batch : list Graph -> bool -> Batch).
Context (get_op : string -> Op).
Context (sess_run : list Op -> Batch -> Session -> Num * Num * Session).
Context (zero : Num) (plus : Num -> Num -> Num) (times : Num -> nat -> Num)
        (over : Num -> nat -> Num).
Context (params : gmap string Z).

Local Abbreviation run := (run_batches sess_run plus times over).
Local Abbreviation phase :=
  (train_phase define_batch sess_run zero plus times over params).
Local Abbreviation epoch :=
  (train_epoch define_batch get_op sess_run zero plus times over params).
Local Abbreviation run_epochs :=
  (train_epochs define_batch get_op sess_run zero plus times over params).
Local Abbreviation training :=
  (train define_batch get_op sess_run zero plus times over params).
Local Abbreviation no_batch := (ZeroDivisionError "division by zero").

Lemma increasing_above low ks : increasing low ks -> Forall (fun k => low < k) ks.
Proof.
  revert low. induction ks as [|k ks IH]; intros low; simpl; [constructor|].
  intros [Hk Hs]. constructor; [exact Hk|].
  eapply Forall_impl; [exact (IH k Hs)|]. simpl. intros. lia.
Qed.

Lemma print_totals_ok text (t : totals) ending :
  0 < total_graphs t ->
  exists line : printed, print_totals over text t ending = inl line.
Proof.
  intros Hpos. unfold print_totals, divide.
  destruct (Nat.eqb_spec (total_graphs t) 0) as [E|_]; [lia|]. eauto.
Qed.

Lemma run_batches_ok text fetch_list :
  forall (bs : list (nat * Batch)) (t : totals) (sess : Session),
    Forall (fun y => 0 < fst y) bs ->
    exists t' sess' out,
      run text fetch_list bs t sess = (None, t', sess', out) /\
      total_graphs t <= total_graphs t' /\
      (bs <> [] -> 0 < total_graphs t').
Proof.
  induction bs as [|[n b] bs IH]; intros t sess Hall.
  - exists t, sess, []. split; [reflexivity|]. split; [lia|congruence].
  - apply Forall_cons in Hall. destruct Hall as [Hn Hall]. simpl in Hn.
    simpl run_batches.
    destruct (sess_run fetch_list b sess) as [[bl ba] sess1].
    set (t1 := {| total_loss := _; total_acc := _; total_graphs := _ |}).
    destruct (print_totals_ok text t1 (String (Ascii.ascii_of_nat 13) EmptyString))
      as (line & ->); [simpl; lia|].
    destruct (IH t1 sess1 Hall) as (t' & sess' & out & -> & Hle & _).
    exists t', sess', (line :: out). split; [reflexivity|].
    simpl in Hle. split; [lia|]. intros _. lia.
Qed.

Lemma train_phase_empty text fetch_list is_training (sess : Session) batch_size :
  params !! "batch_size" = Some batch_size ->
  phase text fetch_list [] is_training sess = (no_batch, sess, []).
Proof. intros Hp. unfold train_phase. rewrite Hp. reflexivity. Qed.

Lemma train_phase_ok text fetch_list (data : list Graph) is_training (sess : Session)
    batch_size :
  params !! "batch_size" = Some batch_size ->
  Forall has_nodes data ->
  data <> [] ->
  exists sess' out, phase text fetch_list data is_training sess = (Trained, sess', out).
Proof.
  intros Hp Hall Hne. unfold train_phase. rewrite Hp.
  destruct (batches_ok define_batch data batch_size is_training Hall)
    as (ks & -> & Hs & _).
  set (bs := _ ++ _).
  assert (Hbs : Forall (fun y => 0 < fst y) bs /\ bs <> []).
  { subst bs. split.
    - apply Forall_app. split.
      + apply Forall_map. exact (increasing_above 0 ks Hs).
      + destruct data; [constructor|]. apply Forall_singleton. simpl. lia.
    - destruct data; [congruence|]. intros Hnil. apply app_eq_nil in Hnil.
      destruct Hnil as [_ Hnil]. discriminate. }
  destruct Hbs as [Hpos Hnil].
  destruct (run_batches_ok text fetch_list bs
              {| total_loss := zero; total_acc := zero; total_graphs := 0 |} sess Hpos)
    as (t' & sess' & out & -> & _ & Ht).
  destruct (print_totals_ok text t' (String (Ascii.ascii_of_nat 10) EmptyString) (Ht Hnil))
    as (line & ->).
  eauto.
Qed.

Lemma train_epoch_ok (td vd : list Graph) (sess : Session) batch_size :
  params !! "batch_size" = Some batch_size ->
  Forall has_nodes td -> Forall has_nodes vd ->
  td <> [] -> vd <> [] ->
  exists sess' out, epoch td vd sess = (Trained, sess', out).
Proof.
  intros Hp Ht Hv Hne1 Hne2. unfold train_epoch.
  destruct (train_phase_ok "[Training] Loss : {:.4f} Accuracy : {:.4f}"
              [get_op "loss"; get_op "accuracy"; get_op "train_step"]
              td true sess batch_size Hp Ht Hne1) as (sess1 & out1 & ->).
  destruct (train_phase_ok "[Validation] Loss : {:.4f} Accuracy : {:.4f}"
              [get_op "loss"; get_op "accuracy"]
              vd false sess1 batch_size Hp Hv Hne2) as (sess2 & out2 & ->).
  eauto.
Qed.

Lemma train_epoch_no_batch (td vd : list Graph) (sess : Session) batch_size :
  params !! "batch_size" = Some batch_size ->
  Forall has_nodes td ->
  td = [] \/ vd = [] ->
  exists sess' out, epoch td vd sess = (no_batch, sess', out).
Proof.
  intros Hp Ht Hno. unfold train_epoch.
  destruct td as [|g td'].
  { rewrite (train_phase_empty _ _ true sess batch_size Hp). eauto. }
  destruct Hno as [Hno| ->]; [discriminate|].
  destruct (train_phase_ok "[Training] Loss : {:.4f} Accuracy : {:.4f}"
              [get_op "loss"; get_op "accuracy"; get_op "train_step"]
              (g :: td') true sess batch_size Hp Ht ltac:(discriminate))
    as (sess1 & out1 & ->).
  rewrite (train_phase_empty _ _ false sess1 batch_size Hp). eauto.
Qed.

Lemma train_epochs_ok (td vd : Iterable Graph) batch_size :
  params !! "batch_size" = Some batch_size ->
  (forall k, Forall has_nodes (td k)) ->
  (forall k, Forall has_nodes (vd k)) ->
  forall epochs start (sess : Session),
    (forall k, start <= k < start + epochs -> td k <> [] /\ vd k <> []) ->
    exists sess' out, run_epochs td vd start epochs sess = (Trained, sess', out).
Proof.
  intros Hp Ht Hv. induction epochs as [|n IH]; intros start sess Hall.
  - simpl. eauto.
  - simpl train_epochs.
    destruct (Hall start ltac:(lia)) as [Hne1 Hne2].
    destruct (train_epoch_ok (td start) (vd start) sess batch_size Hp (Ht start) (Hv start)
                Hne1 Hne2) as (sess1 & out1 & ->).
    destruct (IH (S start) sess1) as (sess2 & out2 & ->).
    { intros k Hk. apply Hall. lia. }
    eauto.
Qed.

Lemma train_epochs_no_batch (td vd : Iterable Graph) batch_size k :
  params !! "batch_size" = Some batch_size ->
  (forall j, Forall has_nodes (td j)) ->
  (forall j, Forall has_nodes (vd j)) ->
  td k = [] \/ vd k = [] ->
  forall epochs start (sess : Session),
    start <= k < start + epochs ->
    (forall j, start <= j < k -> td j <> [] /\ vd j <> []) ->
    exists sess' out, run_epochs td vd start epochs sess = (no_batch, sess', out).
Proof.
  intros Hp Ht Hv Hno. induction epochs as [|n IH]; intros start sess Hk Hall; [lia|].
  simpl train_epochs. destruct (decide (start = k)) as [->|Hne].
  - destruct (train_epoch_no_batch (td k) (vd k) sess batch_size Hp (Ht k) Hno)
      as (sess1 & out1 & ->). eauto.
  - destruct (Hall start ltac:(lia)) as [Hne1 Hne2].
    destruct (train_epoch_ok (td start) (vd start) sess batch_size Hp (Ht start) (Hv start)
                Hne1 Hne2) as (sess1 & out1 & ->).
    destruct (IH (S start) sess1) as (sess2 & out2 & ->); [lia | |eauto].
    intros j Hj. apply Hall. lia.
Qed.

(** X22: [train] needs a batch in each half of every epoch.  With
    [params['batch_size']] set and graphs that all have nodes: without an
    epoch to run nothing is done; when the training data give no graph
    in the first epoch, [train] raises [ZeroDivisionError] at the line
    printed after the training loop, before the session is used; when
    both iterables give a graph in every epoch, all the epochs are run
    and [train] returns; and when an epoch is reached in which one of
    them gives no graph (the second epoch, for data passed as an
    iterator, which is exhausted by the first), [train] raises
    [ZeroDivisionError] in that epoch. *)
Theorem train_needs_a_batch
    (training_data validation_data : Iterable Graph) num_epochs (sess : Session)
    batch_size :
  params !! "batch_size" = Some batch_size ->
  (forall k, Forall has_nodes (training_data k)) ->
  (forall k, Forall has_nodes (validation_data k)) ->
  let result :=
    train define_batch get_op sess_run zero plus times over params
      training_data validation_data num_epochs sess in
  ((num_epochs <= 0)%Z -> result = (Trained, sess, []))
  /\
  ((0 < num_epochs)%Z -> training_data 0 = [] ->
     result = (ZeroDivisionError "division by zero", sess, []))
  /\
  ((forall k, (Z.of_nat k < num_epochs)%Z ->
      training_data k <> [] /\ validation_data k <> []) ->
     exists sess' out, result = (Trained, sess', out))
  /\
  (forall k, (Z.of_nat k < num_epochs)%Z ->
     (forall j, j < k -> training_data j <> [] /\ validation_data j <> []) ->
     training_data k = [] \/ validation_data k = [] ->
     exists sess' out, result = (ZeroDivisionError "division by zero", sess', out)).
Proof.
  intros Hp Ht Hv. cbv zeta. unfold train.
  split; [|split; [|split]].
  - intros Hle. replace (Z.to_nat num_epochs) with 0 by lia. reflexivity.
  - intros Hpos Hnil. destruct (Z.to_nat num_epochs) as [|k] eqn:Hk; [lia|].
    simpl. unfold train_epoch. rewrite Hnil.
    rewrite (train_phase_empty _ _ true sess batch_size Hp). reflexivity.
  - intros Hall. apply (train_epochs_ok _ _ batch_size Hp Ht Hv).
    intros k Hk. apply Hall. lia.
  - intros k Hk Hall Hno.
    apply (train_epochs_no_batch _ _ batch_size k Hp Ht Hv Hno); [lia|].
    intros j Hj. apply Hall. lia.
Qed.

End TrainFacts.

(** * The statements on the small instance *)

Example world_three_generators :
  (func (gens world_three 0), group (gens world_three 0), hooks (gens world_three 0),
   func (gens world_three 2), group (gens world_three 2), hooks (gens world_three 2),
   func (gens world_three 4), group (gens world_three 4), hooks (gens world_three 4),
   groups world_three !! "G", next_addr world_three)
  = (0, Some "G", [7], 1, Some "G", [], 2, None, [], Some [0; 2], 6).
Proof. vm_compute. reflexivity. Qed.

Example enumerate_g0 :
  report (drain (generate_next (EXT := toy) 5) 5 (generate 0 10) world_three)
  = ([10; 11; 12], DStop,
     [HookInit 7 10; StrategyInit 1;
      HookInitRun 7 10; StrategyInitRun 1; OpEvent (OpEffect 0);
      StrategyFinishRun 1; HookFinishRun 7;
      HookInitRun 7 10; StrategyInitRun 1; OpEvent (OpEffect 1);
      StrategyFinishRun 1; HookFinishRun 7;
      HookInitRun 7 10; StrategyInitRun 1; OpEvent (OpEffect 2);
      StrategyFinishRun 1; HookFinishRun 7;
      StrategyFinish 1; HookFinish 7]).
Proof. vm_compute. reflexivity. Qed.

Example compile_op_example :
  compile_op (EXT := toy) 0 "Select" "s0" successor_op [7; 8] [3] [("oid", 1)] 0
  = (Ok 4, 1,
     [BeforeOp 7 [3] [("oid", 1)] 0 "Select" "s0";
      BeforeOp 8 [3] [("oid", 1)] 0 "Select" "s0"; OpEffect 0;
      AfterOp 7 [3] [("oid", 1)] 0 "Select" "s0" 4;
      AfterOp 8 [3] [("oid", 1)] 0 "Select" "s0" 4]).
Proof. reflexivity. Qed.

Lemma free_of_by_evaluation (added : list string) (kwargs : Kwargs nat) :
  repeated_keyword added kwargs = None -> free_of added kwargs.
Proof. apply repeated_keyword_none. Qed.

(** C4 as stated fails: called with the keyword [sid], the wrapper raises
    [TypeError] where the first [before_op] would be called; no hook is
    called and the operator is not run. *)
Lemma compile_op_keyword_given_twice :
  compile_op (EXT := toy) 0 "Select" "s0" successor_op [7; 8] [3] [("sid", 5)] 0
  = (Raise (TypeError "before_op() got multiple values for keyword argument 'sid'"), 0, [])
  /\
  successor_op [3] [("sid", 5)] 0 = (Ok 4, 1, [OpEffect 0])
  /\
  fst (fst (compile_op (EXT := toy) 0 "Select" "s0" successor_op [7; 8] [3] [("sid", 5)] 0))
  <> Ok 4.
Proof. split; [reflexivity|]. split; [reflexivity | vm_compute; discriminate]. Qed.

Lemma compile_op_wraps_witness :
  free_of after_op_keywords [("oid", 1)] /\
  compile_op (EXT := toy) 0 "Select" "s0" successor_op [7; 8] [3] [("oid", 1)] 0
  = (Ok 4, 1,
     [BeforeOp 7 [3] [("oid", 1)] 0 "Select" "s0";
      BeforeOp 8 [3] [("oid", 1)] 0 "Select" "s0"; OpEffect 0;
      AfterOp 7 [3] [("oid", 1)] 0 "Select" "s0" 4;
      AfterOp 8 [3] [("oid", 1)] 0 "Select" "s0" 4])
  /\
  ~ free_of before_op_keywords [("sid", 5)] /\
  (exists k,
     compile_op (EXT := toy) 0 "Select" "s0" successor_op [7; 8] [3] [("sid", 5)] 0
     = (Raise (TypeError (toy_multiple_values 7 "before_op" k)), 0, []))
  /\
  free_of before_op_keywords [("retval", 5)] /\
  "retval" ∈ map fst [("retval", 5)] /\
  compile_op (EXT := toy) 0 "Select" "s0" successor_op [7; 8] [3] [("retval", 5)] 0
  = (Raise (TypeError "after_op() got multiple values for keyword argument 'retval'"), 1,
     [BeforeOp 7 [3] [("retval", 5)] 0 "Select" "s0";
      BeforeOp 8 [3] [("retval", 5)] 0 "Select" "s0"; OpEffect 0]).
Proof.
  assert (Hfree : free_of after_op_keywords [("oid", 1)])
    by (apply free_of_by_evaluation; reflexivity).
  assert (Hnot : ~ free_of before_op_keywords [("sid", 5)]).
  { intros Hf. apply (Hf "sid"); apply list_elem_of_In; simpl; auto. }
  assert (Hfree2 : free_of before_op_keywords [("retval", 5)])
    by (apply free_of_by_evaluation; reflexivity).
  assert (Hret : "retval" ∈ map fst [("retval", 5)])
    by (apply list_elem_of_In; simpl; auto).
  split; [exact Hfree|]. split; [|split; [exact Hnot|split; [|split; [exact Hfree2|split; [exact Hret|]]]]].
  - exact (proj1 (compile_op_wraps_in_registration_order (EXT := toy) 0 "Select" "s0"
                    successor_op 7 [8] [3] [("oid", 1)] 0) Hfree 4 1 [OpEffect 0] eq_refl).
  - destruct (proj1 (proj2 (compile_op_wraps_in_registration_order (EXT := toy) 0 "Select"
                              "s0" successor_op 7 [8] [3] [("sid", 5)] 0)) Hnot)
      as (k & _ & _ & Heq).
    exists k. exact Heq.
  - exact (proj2 (proj2 (compile_op_wraps_in_registration_order (EXT := toy) 0 "Select" "s0"
                           successor_op 7 [8] [3] [("retval", 5)] 0))
             Hfree2 Hret 4 1 [OpEffect 0] eq_refl).
Defined.

(** C2 as stated fails: [g2], with one hook, fails in its second run.  The
    second run has its [init_run] calls but no [finish_run] follows, and
    no [finish] is called. *)
Lemma failed_run_is_not_bracketed :
  report (drain (generate_next (EXT := toy) 5) 5 (generate 4 10) world_four)
  = ([10], DRaised (UserError 7),
     [HookInit 9 10; StrategyInit 5;
      HookInitRun 9 10; StrategyInitRun 5; OpEvent (OpEffect 0);
      StrategyFinishRun 5; HookFinishRun 9;
      HookInitRun 9 10; StrategyInitRun 5; OpEvent (OpEffect 1)]).
Proof. vm_compute. reflexivity. Qed.

Lemma store_split {A} (x : result A * World nat * list (event nat)) r l :
  fst (fst x) = r -> snd x = l -> x = (r, store_of x, l).
Proof. destruct x as [[r0 w] l0]. simpl. intros -> ->. reflexivity. Qed.

Example enumerate_randomized :
  report (drain (generate_next (EXT := toy) 5) 4 (generate 0 10) world_rand)
  = ([10; 10; 10; 10], DFuel,
     init_events [] 1 10
     ++ bracketed_runs [] 1 10 [[OpEffect 0]; [OpEffect 0]; [OpEffect 0]]
     ++ init_run_events [] 1 10 ++ map OpEvent [OpEffect 0]).
Proof. vm_compute. reflexivity. Qed.

Lemma generate_lifecycle_witness :
  (exists runs : list (list (op_event nat)),
     snd (drain (generate_next (EXT := toy) 5) 5 (generate 0 10) world_three)
     = init_events [7] 1 10 ++ bracketed_runs [7] 1 10 runs ++ finish_events [7] 1
     /\ 3 <= List.length runs)
  /\
  (exists (runs : list (list (op_event nat))) ops,
     snd (drain (generate_next (EXT := toy) 5) 4 (generate 0 10) world_rand)
     = init_events [] 1 10 ++ bracketed_runs [] 1 10 runs
       ++ init_run_events [] 1 10 ++ map OpEvent ops
     /\ 3 <= List.length runs).
Proof.
  split.
  - pose proof enumerate_g0 as Hrep.
    destruct (drain (generate_next (EXT := toy) 5) 5 (generate 0 10) world_three)
      as [[[[vs ex] it1] w1] evs] eqn:Hd.
    simpl in Hrep. inversion Hrep as [[Hvs Hex Hevs]]. rewrite Hex in Hd.
    destruct (generate_lifecycle (EXT := toy) 5 5 0 10 world_three vs DStop it1 w1 evs Hd)
      as (runs & Hev & Hlen & _).
    assert (Hh : hooks (gens world_three 0) = [7]) by (vm_compute; reflexivity).
    assert (Ha : addr_of world_three 0 = 1) by (vm_compute; reflexivity).
    rewrite Hh, Ha in Hev. rewrite Hvs in Hlen.
    exists runs. split; [rewrite <- Hevs; exact Hev | exact Hlen].
  - pose proof enumerate_randomized as Hrep.
    destruct (drain (generate_next (EXT := toy) 5) 4 (generate 0 10) world_rand)
      as [[[[vs ex] it1] w1] evs] eqn:Hd.
    unfold report in Hrep. inversion Hrep as [[Hvs Hex Hevs]]. rewrite Hex in Hd.
    pose proof (generate_lifecycle (EXT := toy) 5 4 0 10 world_rand vs DFuel it1 w1 evs Hd)
      as Hshape.
    cbv zeta in Hshape.
    assert (Hh : hooks (gens world_rand 0) = []) by (vm_compute; reflexivity).
    assert (Ha : addr_of world_rand 0 = 1) by (vm_compute; reflexivity).
    rewrite Hh, Ha, Hvs in Hshape.
    destruct Hshape as [(Hp & _)|[(_ & runs & ops & Hev & Hlen)|(Hlt & _)]].
    + discriminate Hp.
    + exists runs, ops. split; [rewrite <- Hevs; exact Hev | simpl in Hlen; lia].
    + simpl in Hlt. lia.
Defined.

Lemma set_strategy_group_witness :
  group (gens world_three 0) = Some "G" /\
  groups world_three !! "G" = Some [0; 2] /\
  exists w1,
    set_strategy (EXT := toy) 0 (ByName "randomized") true world_three
    = (Ok tt, w1, []) /\
    strategy (gens w1 0) = RandStrategy (EXT := toy) 6 /\
    strategy (gens w1 2) = RandStrategy (EXT := toy) 6 /\
    _compiled_func (gens w1 2) = None /\
    gens w1 4 = gens world_three 4.
Proof.
  assert (Hgrp : group (gens world_three 0) = Some "G") by (vm_compute; reflexivity).
  assert (Hreg : groups world_three !! "G" = Some [0; 2]) by (vm_compute; reflexivity).
  split; [exact Hgrp|]. split; [exact Hreg|].
  assert (Hmk : make_strategy (EXT := toy) (ByName "randomized") world_three
                = (Ok (RandStrategy (EXT := toy) 6),
                   store_of (make_strategy (EXT := toy) (ByName "randomized") world_three),
                   [])).
  { apply store_split; vm_compute; reflexivity. }
  destruct (set_strategy_group_propagation (EXT := toy) 0 (ByName "randomized") true
              world_three "G" [0; 2] _ _ _ Hgrp Hreg Hmk)
    as (w1 & Heq & Hs & _ & Hon & _).
  exists w1. split; [exact Heq|]. split; [exact Hs|].
  destruct (Hon eq_refl) as [Hmem Hout].
  destruct (Hmem 2) as [Hs2 Hc2].
  { apply list_elem_of_In. simpl. auto. }
  split; [exact Hs2|]. split; [exact Hc2|].
  apply Hout; [|discriminate].
  intros Hin. apply list_elem_of_In in Hin. simpl in Hin.
  destruct Hin as [Hin|[Hin|[]]]; discriminate Hin.
Defined.

(** C8 as stated fails: the hook at [7] is in [g0]'s hook list, and yet
    [g0.deregister_hook] raises, because [g1], created in the group after
    the hook was registered, does not have it. *)
Lemma deregister_registered_hook_raises :
  7 ∈ hooks (gens world_two 0) /\
  exists w1,
    deregister_hook (EXT := toy) 0 7 true world_two = (Raise not_registered, w1, []).
Proof.
  split.
  - assert (Hh : hooks (gens world_two 0) = [7]) by (vm_compute; reflexivity).
    rewrite Hh. apply list_elem_of_In. simpl. auto.
  - exists (store_of (deregister_hook (EXT := toy) 0 7 true world_two)).
    apply store_split; vm_compute; reflexivity.
Qed.

Lemma deregister_hook_error_witness :
  (exists w1,
     deregister_hook (EXT := toy) 0 7 true world_two = (Raise not_registered, w1, []))
  /\
  (exists w1,
     deregister_hook (EXT := toy) 0 8 false world_two = (Raise not_registered, w1, [])).
Proof.
  destruct (deregister_hook_error_iff (EXT := toy) 0 7 true world_two) as [Hiff _].
  destruct (deregister_hook_error_iff (EXT := toy) 0 8 false world_two) as (_ & Hnow & _).
  assert (Hh0 : hooks (gens world_two 0) = [7]) by (vm_compute; reflexivity).
  assert (Hh2 : hooks (gens world_two 2) = []) by (vm_compute; reflexivity).
  split.
  - apply Hiff. right. split; [reflexivity|].
    exists "G", [0; 2]. split; [vm_compute; reflexivity|].
    split; [vm_compute; reflexivity|].
    exists 2. split; [discriminate|]. rewrite Hh2. simpl. lia.
  - exists world_two. apply Hnow. rewrite Hh0.
    apply not_registered_iff. reflexivity.
Defined.

Lemma skip_run_at :
  run_at (EXT := toy) skip_it world_three (store_of skip_resumed) (snd skip_resumed)
    (Raise ExceptionAsContinue) (store_of skip_run) (snd skip_run).
Proof.
  split; [discriminate|]. split; [|split].
  - unfold skip_resumed. apply store_split; [vm_compute; reflexivity | reflexivity].
  - vm_compute. reflexivity.
  - unfold skip_run. apply store_split; [vm_compute; reflexivity | reflexivity].
Qed.

Lemma fail_run_at :
  run_at (EXT := toy) fail_it fail_start (store_of fail_resumed) (snd fail_resumed)
    (Raise (UserError 7)) (store_of fail_run) (snd fail_run).
Proof.
  split; [discriminate|]. split; [|split].
  - unfold fail_resumed. apply store_split; [vm_compute; reflexivity | reflexivity].
  - vm_compute. reflexivity.
  - unfold fail_run. apply store_split; [vm_compute; reflexivity | reflexivity].
Qed.

Example enumerate_g1_skips_first_run :
  report (drain (generate_next (EXT := toy) 5) 5 (generate 2 10) world_three)
  = ([11; 12], DStop,
     [StrategyInit 1;
      StrategyInitRun 1; OpEvent (OpEffect 0); StrategyFinishRun 1;
      StrategyInitRun 1; OpEvent (OpEffect 1); StrategyFinishRun 1;
      StrategyInitRun 1; OpEvent (OpEffect 2); StrategyFinishRun 1;
      StrategyFinish 1]).
Proof. vm_compute. reflexivity. Qed.

Lemma stop_run_at :
  run_at (EXT := stopping) stop_it stop_start (store_of stop_resumed) (snd stop_resumed)
    (Raise StopIterationExc) (store_of stop_run) (snd stop_run).
Proof.
  split; [discriminate|]. split; [|split].
  - unfold stop_resumed. apply store_split; [vm_compute; reflexivity | reflexivity].
  - vm_compute. reflexivity.
  - unfold stop_run. apply store_split; [vm_compute; reflexivity | reflexivity].
Qed.

(** C1 as stated fails: the second run of [g.generate(10)] raises
    [StopIteration], which is not the skip signal, and the caller of
    [next] gets a [RuntimeError] instead. *)
Lemma raised_stop_iteration_arrives_as_runtime_error :
  run_at (EXT := stopping) stop_it stop_start (store_of stop_resumed) (snd stop_resumed)
    (Raise StopIterationExc) (store_of stop_run) (snd stop_run)
  /\
  fst (fst (fst (generate_next (EXT := stopping) 5 stop_it stop_start)))
  = Raised (RuntimeError "generator raised StopIteration")
  /\
  fst (fst (fst (generate_next (EXT := stopping) 5 stop_it stop_start)))
  <> Raised StopIterationExc
  /\
  report (drain (generate_next (EXT := stopping) 5) 5 (generate 0 10) world_stop)
  = ([10], DRaised (RuntimeError "generator raised StopIteration"),
     [StrategyInit 1;
      StrategyInitRun 1; OpEvent (OpEffect 0); StrategyFinishRun 1;
      StrategyInitRun 1; OpEvent (OpEffect 1)]).
Proof.
  split; [exact stop_run_at|]. split; [vm_compute; reflexivity|].
  split; [vm_compute; discriminate | vm_compute; reflexivity].
Qed.

Lemma skip_signal_witness :
  run_at (EXT := toy) skip_it world_three (store_of skip_resumed) (snd skip_resumed)
    (Raise ExceptionAsContinue) (store_of skip_run) (snd skip_run)
  /\
  (forall e1 it1 w3 l3,
     generate_next (EXT := toy) 5 skip_it world_three = (Raised e1, it1, w3, l3) ->
     e1 <> ExceptionAsContinue)
  /\
  (forall pulls,
     report (drain (generate_next (EXT := toy) 5) (S pulls) fail_it fail_start)
     = ([], DRaised (UserError 7),
        [StrategyFinishRun 5; HookFinishRun 9;
         HookInitRun 9 10; StrategyInitRun 5; OpEvent (OpEffect 1)]))
  /\
  (forall pulls,
     report (drain (generate_next (EXT := stopping) 5) (S pulls) stop_it stop_start)
     = ([], DRaised (RuntimeError "generator raised StopIteration"),
        [StrategyFinishRun 1; StrategyInitRun 1; OpEvent (OpEffect 1)])).
Proof.
  split; [exact skip_run_at|]. split; [|split].
  - destruct (skip_signal_is_confined_to_its_run (EXT := toy) 4 _ _ _ _ _ _ _ skip_run_at)
      as [Hskip _].
    destruct (Hskip eq_refl) as (_ & Hnever & _). exact Hnever.
  - destruct (skip_signal_is_confined_to_its_run (EXT := toy) 4 _ _ _ _ _ _ _ fail_run_at)
      as [_ Hfail].
    pose proof (Hfail ltac:(discriminate)) as Hf. cbv zeta iota in Hf.
    destruct Hf as (_ & Hdrain & _).
    intros pulls. rewrite (Hdrain pulls). unfold report.
    f_equal; vm_compute; reflexivity.
  - destruct (skip_signal_is_confined_to_its_run (EXT := stopping) 4 _ _ _ _ _ _ _
                stop_run_at) as [_ Hfail].
    pose proof (Hfail ltac:(discriminate)) as Hf. cbv zeta iota in Hf.
    destruct Hf as (_ & Hdrain & _).
    intros pulls. rewrite (Hdrain pulls). unfold report.
    f_equal; vm_compute; reflexivity.
Defined.

Lemma closing_bracket_witness :
  run_at (EXT := toy) skip_it world_three (store_of skip_resumed) (snd skip_resumed)
    (Raise ExceptionAsContinue) (store_of skip_run) (snd skip_run)
  /\
  snd (generate_body (EXT := toy) 1 skip_it world_three)
  = [StrategyInit 1; StrategyInitRun 1; OpEvent (OpEffect 0); StrategyFinishRun 1]
  /\
  (exists w2,
     generate_next (EXT := toy) 5 fail_it fail_start
     = (Raised (UserError 7), set_pc PDone fail_it, w2,
        [StrategyFinishRun 5; HookFinishRun 9;
         HookInitRun 9 10; StrategyInitRun 5; OpEvent (OpEffect 1)])).
Proof.
  split; [exact skip_run_at|]. split.
  - destruct (skipped_run_is_closed_and_failed_run_is_not (EXT := toy) 0
                _ _ _ _ _ _ _ skip_run_at) as [Hskip _].
    rewrite (Hskip eq_refl). vm_compute. reflexivity.
  - destruct (skipped_run_is_closed_and_failed_run_is_not (EXT := toy) 4
                _ _ _ _ _ _ _ fail_run_at) as [_ Hfail].
    destruct (Hfail ltac:(discriminate)) as (Hnext & _).
    exists (store_of fail_run). rewrite Hnext.
    f_equal; vm_compute; reflexivity.
Defined.

Lemma unlike_all_by_evaluation `{EXT : Externals nat nat} (t : Hook) (w : World nat) :
  (forall j, forallb (fun y => negb (same_hook y t)) (hooks (gens w j)) = true) ->
  unlike_all t w.
Proof.
  intros Hall j y Hy. specialize (Hall j).
  rewrite forallb_forall in Hall. apply negb_true_iff. apply Hall.
  apply list_elem_of_In. exact Hy.
Qed.


Example trace_g0 :
  report (drain (trace_next (EXT := toy) 5) 5 (trace 0 10) world_three)
  = ([10; 11; 12], DStop,
     [HookInit 7 10; HookInit 6 10; StrategyInit 1;
      HookInitRun 7 10; HookInitRun 6 10; StrategyInitRun 1; OpEvent (OpEffect 0);
      StrategyFinishRun 1; HookFinishRun 7; HookFinishRun 6;
      HookInitRun 7 10; HookInitRun 6 10; StrategyInitRun 1; OpEvent (OpEffect 1);
      StrategyFinishRun 1; HookFinishRun 7; HookFinishRun 6;
      HookInitRun 7 10; HookInitRun 6 10; StrategyInitRun 1; OpEvent (OpEffect 2);
      StrategyFinishRun 1; HookFinishRun 7; HookFinishRun 6;
      StrategyFinish 1; HookFinish 7; HookFinish 6]).
Proof. vm_compute. reflexivity. Qed.


Lemma toy_compiles f s : compile_error (Externals := toy) f s = None.
Proof. reflexivity. Qed.

Lemma exec_all_nil (w : World nat) : exec_all (EXT := toy) [] w = w.
Proof. reflexivity. Qed.

Lemma cache_witness :
  _compiled_func
    (gens (exec_all (EXT := toy) [CCall 2 10; CDeregisterHook 4 9 false]
             (snd (exec (EXT := toy) (CRegisterHooks 0 [8] true) world_four))) 0) = None
  /\
  _compiled_func
    (gens (snd (exec (EXT := toy) (CCall 0 10)
                  (snd (exec (EXT := toy) (CRegisterHooks 0 [8] true) world_four)))) 0)
  = Some (compiled_now (snd (exec (EXT := toy) (CRegisterHooks 0 [8] true) world_four)) 0)
  /\
  cf_hooks (compiled_now (snd (exec (EXT := toy) (CRegisterHooks 0 [8] true) world_four)) 0)
  = [7; 8].
Proof.
  destruct (compiled_function_is_a_valid_cache (EXT := toy)) as (Hhist & _ & Hcomp).
  assert (Hok : fst (exec (EXT := toy) (CRegisterHooks 0 [8] true) world_four) = true)
    by (vm_compute; reflexivity).
  assert (Hpost : Forall (fun c1 => ~ compiles (Val := nat) (St := nat) 0 c1)
                    [CCall 2 10; CDeregisterHook 4 9 false]).
  { constructor; [|constructor; [|constructor]].
    - intros H. discriminate H.
    - intros H. exact H. }
  split; [|split].
  - exact (Hhist (CRegisterHooks 0 [8] true) _ world_four 0 eq_refl Hok Hpost).
  - pose proof (Hhist (CRegisterHooks 0 [8] true) [] world_four 0 eq_refl Hok
                  (Forall_nil_2 _)) as Hnone.
    rewrite exec_all_nil in Hnone.
    exact (proj1 (proj2 (Hcomp 0 10 _ Hnone (toy_compiles _ _)))).
  - vm_compute. reflexivity.
Defined.

Lemma select_witness :
  (forall n, 0 < n -> fst (toy_randbelow 4 n) < n) /\
  exists v,
    Select toy_randbelow [10; 20; 30] 4 = (Ok v, 5) /\ v ∈ [10; 20; 30].
Proof.
  assert (Hlt : forall n, 0 < n -> fst (toy_randbelow 4 n) < n).
  { intros n Hn. simpl. apply Nat.mod_upper_bound. lia. }
  split; [exact Hlt|].
  destruct (RandStrategy_never_finishes_and_selects_from_domain (EXT := toy) toy_randbelow)
    as (_ & _ & Hsel & _).
  destruct (Hsel [10; 20; 30] 4 ltac:(discriminate) Hlt) as (i & v & _ & _ & _ & Heq & Hin).
  exists v. split; [exact Heq | exact Hin].
Defined.

Lemma set_strategy_unrecognized_name_witness :
  "bfs" <> "randomized" /\ "bfs" <> "dfs" /\
  set_strategy (EXT := toy) 0 (ByName "bfs") true world_three
  = (Raise (unrecognized "bfs"), world_three, []).
Proof.
  split; [discriminate|]. split; [discriminate|].
  apply (set_strategy_unrecognized_name (EXT := toy) 0 "bfs" true world_three);
    discriminate.
Defined.

Lemma init_shares_the_strategy_witness :
  groups world_one !! "G" = Some [0] /\
  0 <> next_addr world_one /\
  exists w1,
    __init__ (EXT := toy) 1 (ByName "dfs") (Some "G") world_one
    = (Ok (next_addr world_one), w1, []) /\
    strategy (gens w1 (next_addr world_one)) = strategy (gens world_one 0).
Proof.
  assert (Hreg : groups world_one !! "G" = Some [0]) by (vm_compute; reflexivity).
  assert (Hn : next_addr world_one = 2) by (vm_compute; reflexivity).
  assert (Hne : 0 <> next_addr world_one) by (rewrite Hn; discriminate).
  split; [exact Hreg|]. split; [exact Hne|].
  destruct (init_shares_the_strategy_of_the_group (EXT := toy) 1 (ByName "dfs") "G" 0 []
              world_one (or_intror eq_refl) Hreg Hne) as (w1 & Heq & Hself & _).
  exists w1. split; [exact Heq|]. rewrite Hself. reflexivity.
Defined.

Lemma init_outside_an_existing_group_witness :
  groups empty_world !! "G" = None /\
  exists w1,
    __init__ (EXT := toy) 0 (ByName "dfs") (Some "G") empty_world = (Ok 0, w1, []) /\
    groups w1 = <["G" := [0]]> (groups empty_world) /\
    strategy (gens w1 0) = DfsStrategy (EXT := toy) 1.
Proof.
  split; [reflexivity|].
  destruct (init_outside_an_existing_group (EXT := toy) 0 (ByName "dfs") (Some "G")
              empty_world (or_intror eq_refl) eq_refl) as (w1 & Heq & Hself & Hr & _).
  exists w1. split; [exact Heq|]. split; [exact Hr|].
  exact (f_equal strategy Hself).
Defined.

Lemma init_refuses_unknown_strategy_witness :
  "bfs" <> "randomized" /\ "bfs" <> "dfs" /\
  exists w1,
    __init__ (EXT := toy) 0 (ByName "bfs") (Some "G") world_three
    = (Raise (unrecognized "bfs"), w1, []) /\
    groups w1 = groups world_three.
Proof.
  split; [discriminate|]. split; [discriminate|].
  destruct (init_refuses_unknown_strategy (EXT := toy) 0 "bfs" (Some "G") world_three)
    as (w1 & Heq & _ & Hr & _); [discriminate | discriminate |].
  exists w1. split; [exact Heq | exact Hr].
Defined.

Lemma empty_world_consistent : consistent_groups empty_world.
Proof.
  split; [|split].
  - intros name members Hm. unfold empty_world in Hm. simpl in Hm.
    rewrite lookup_empty in Hm. discriminate.
  - intros g name Hg. discriminate.
  - intros name members m1 m2 Hm. unfold empty_world in Hm. simpl in Hm.
    rewrite lookup_empty in Hm. discriminate.
Qed.

Lemma world_three_consistent : consistent_groups world_three.
Proof.
  destruct (groups_stay_consistent (EXT := toy)) as [Hinit Hconf].
  assert (H0 : consistent_groups
                 (store_after (__init__ (EXT := toy) 0 (ByName "dfs") (Some "G")) empty_world)).
  { unfold store_after.
    destruct (__init__ (EXT := toy) 0 (ByName "dfs") (Some "G") empty_world)
      as [[r w1] l] eqn:Heq.
    exact (Hinit 0 (ByName "dfs") (Some "G") empty_world r w1 l Heq empty_world_consistent). }
  assert (H1 : consistent_groups world_one).
  { exact (Hconf (CRegisterHooks 0 [7] true) _ I H0). }
  assert (H2 : consistent_groups world_two).
  { unfold world_two, store_after.
    destruct (__init__ (EXT := toy) 1 (ByName "dfs") (Some "G") world_one)
      as [[r w1] l] eqn:Heq.
    exact (Hinit 1 (ByName "dfs") (Some "G") world_one r w1 l Heq H1). }
  unfold world_three, store_after.
  destruct (__init__ (EXT := toy) 2 (ByName "dfs") None world_two) as [[r w1] l] eqn:Heq.
  exact (Hinit 2 (ByName "dfs") None world_two r w1 l Heq H2).
Qed.

Lemma groups_stay_consistent_witness :
  consistent_groups world_three /\
  groups world_three !! "G" = Some [0; 2] /\
  strategy (gens world_three 0) = strategy (gens world_three 2) /\
  let w1 := snd (exec (EXT := toy) (CSetStrategy 0 (ByName "randomized") true) world_three) in
  consistent_groups w1 /\
  strategy (gens w1 0) = RandStrategy (EXT := toy) 6 /\
  strategy (gens w1 2) = RandStrategy (EXT := toy) 6.
Proof.
  assert (Hreg : groups world_three !! "G" = Some [0; 2]) by (vm_compute; reflexivity).
  split; [exact world_three_consistent|]. split; [exact Hreg|].
  split; [vm_compute; reflexivity|]. cbv zeta.
  split; [|split; vm_compute; reflexivity].
  exact (proj2 (groups_stay_consistent (EXT := toy))
           (CSetStrategy 0 (ByName "randomized") true) world_three eq_refl
           world_three_consistent).
Defined.

Lemma register_hooks_appends_witness :
  group (gens world_three 0) = Some "G" /\
  groups world_three !! "G" = Some [0; 2] /\
  NoDup [0; 2] /\
  exists w1,
    register_hooks (Val := nat) 0 [8; 9] true world_three = (Ok tt, w1, []) /\
    hooks (gens w1 0) = [7; 8; 9] /\
    hooks (gens w1 2) = [8; 9] /\
    gens w1 4 = gens world_three 4.
Proof.
  assert (Hgrp : group (gens world_three 0) = Some "G") by (vm_compute; reflexivity).
  assert (Hreg : groups world_three !! "G" = Some [0; 2]) by (vm_compute; reflexivity).
  assert (Hnd : NoDup [0; 2]).
  { apply NoDup_cons_2; [|apply NoDup_singleton].
    intros Hin. apply list_elem_of_singleton in Hin. discriminate. }
  assert (Hh0 : hooks (gens world_three 0) = [7]) by (vm_compute; reflexivity).
  assert (Hh2 : hooks (gens world_three 2) = []) by (vm_compute; reflexivity).
  split; [exact Hgrp|]. split; [exact Hreg|]. split; [exact Hnd|].
  destruct (register_hooks_appends_for_the_group (Val := nat) 0 [8; 9] true world_three
              "G" [0; 2] Hgrp Hreg Hnd) as (w1 & Heq & Hin & Hout & _).
  exists w1. split; [exact Heq|]. split; [|split].
  - rewrite (proj1 (Hin 0 (or_introl eq_refl))), Hh0. reflexivity.
  - assert (Hin2 : 2 ∈ [0; 2]) by (apply list_elem_of_In; simpl; auto).
    rewrite (proj1 (Hin 2 (or_intror (conj eq_refl Hin2)))), Hh2. reflexivity.
  - apply Hout; [discriminate|]. right. intros Hin4.
    apply list_elem_of_In in Hin4. simpl in Hin4.
    destruct Hin4 as [H|[H|[]]]; discriminate H.
Defined.

Lemma world_three_unlike_hook_8 : unlike_all (EXT := toy) 8 world_three.
Proof.
  apply unlike_all_by_evaluation. intros j.
  do 7 (destruct j as [|j]; [vm_compute; reflexivity|]).
  vm_compute. reflexivity.
Qed.

Lemma register_then_deregister_witness :
  unlike_all (EXT := toy) 8 world_three /\
  group_registered world_three 0 /\
  exists w1 w2,
    register_hooks (Val := nat) 0 [8] true world_three = (Ok tt, w1, []) /\
    deregister_hook (EXT := toy) 0 8 true w1 = (Ok tt, w2, []) /\
    forall j, hooks (gens w2 j) = hooks (gens world_three j).
Proof.
  assert (Hgrp : group (gens world_three 0) = Some "G") by (vm_compute; reflexivity).
  assert (Hreg : groups world_three !! "G" = Some [0; 2]) by (vm_compute; reflexivity).
  assert (Hgr : group_registered world_three 0).
  { unfold group_registered. rewrite Hgrp. exists [0; 2]. exact Hreg. }
  split; [exact world_three_unlike_hook_8|]. split; [exact Hgr|].
  destruct (register_then_deregister_restores (EXT := toy) 0 8 true world_three
              world_three_unlike_hook_8 Hgr) as (w1 & w2 & H1 & H2 & H3 & _).
  exists w1, w2. auto.
Defined.

(** With hooks that compare equal the list is not restored: [h18] is
    registered and deregistered again on a generator that has [h8], and it
    is [h8] that is gone. *)
Example equal_hook_is_deregistered_instead :
  hooks (gens (store_after (__init__ (EXT := alike) 0 (ByName "dfs") None) empty_world) 0)
  = [] /\
  hooks (gens (store_after (register_hooks (Val := nat) 0 [8] false)
                 (store_after (__init__ (EXT := alike) 0 (ByName "dfs") None) empty_world)) 0)
  = [8] /\
  hooks (gens world_alike 0) = [8; 18] /\
  fst (fst (deregister_hook (EXT := alike) 0 18 false world_alike)) = Ok tt /\
  hooks (gens (store_of (deregister_hook (EXT := alike) 0 18 false world_alike)) 0) = [18].
Proof. repeat split; vm_compute; reflexivity. Qed.

Lemma reregistered_hook_witness :
  hooks (gens world_six 0) = [] ++ 7 :: [9] /\
  same_hook (EXT := toy) 7 7 = true /\
  exists w1 w2,
    register_hooks (Val := nat) 0 [7] false world_six = (Ok tt, w1, []) /\
    deregister_hook (EXT := toy) 0 7 false w1 = (Ok tt, w2, []) /\
    hooks (gens w2 0) = [9; 7] /\
    hooks (gens w2 0) <> hooks (gens world_six 0).
Proof.
  assert (Hh : hooks (gens world_six 0) = [] ++ 7 :: [9]) by (vm_compute; reflexivity).
  split; [exact Hh|]. split; [reflexivity|].
  destruct (reregistered_hook_moves_to_the_end (EXT := toy) 0 7 world_six [] 7 [9] Hh
              (fun y Hy => match not_elem_of_nil y Hy with end) eq_refl)
    as (w1 & w2 & H1 & H2 & H3 & H4).
  exists w1, w2. split; [exact H1|]. split; [exact H2|]. split; [exact H3|].
  apply H4. exists 9. split; [|discriminate].
  apply list_elem_of_In. simpl. auto.
Defined.

Lemma failed_deregistration_witness :
  7 ∈ hooks (gens world_two 0) /\
  group (gens world_two 0) = Some "G" /\
  groups world_two !! "G" = Some [0; 2] /\
  short_of_hook (EXT := toy) 0 7 [0; 2] world_two /\
  exists w1,
    deregister_hook (EXT := toy) 0 7 true world_two = (Raise not_registered, w1, []) /\
    hooks (gens w1 0) = [].
Proof.
  assert (Hh0 : hooks (gens world_two 0) = [7]) by (vm_compute; reflexivity).
  assert (Hh2 : hooks (gens world_two 2) = []) by (vm_compute; reflexivity).
  assert (Hin : 7 ∈ hooks (gens world_two 0)).
  { rewrite Hh0. apply list_elem_of_singleton. reflexivity. }
  assert (Hgrp : group (gens world_two 0) = Some "G") by (vm_compute; reflexivity).
  assert (Hreg : groups world_two !! "G" = Some [0; 2]) by (vm_compute; reflexivity).
  assert (Hs : short_of_hook (EXT := toy) 0 7 [0; 2] world_two).
  { exists 2. split; [discriminate|]. rewrite Hh2. simpl. lia. }
  split; [exact Hin|]. split; [exact Hgrp|]. split; [exact Hreg|]. split; [exact Hs|].
  destruct (failed_deregistration_is_not_undone (EXT := toy) 0 7 world_two "G" [0; 2]
              Hin Hgrp Hreg Hs) as (w1 & Heq & Hh & _).
  exists w1. split; [exact Heq|]. rewrite Hh, Hh0. reflexivity.
Defined.

Lemma deregister_hook_removes_one_witness :
  hooks (gens world_twice 0) = [7; 7] /\
  only_itself (EXT := toy) 7 (hooks (gens world_twice 0)) /\
  exists w1,
    deregister_hook (EXT := toy) 0 7 false world_twice = (Ok tt, w1, []) /\
    hooks (gens w1 0) = [7] /\
    hcount 7 (hooks (gens w1 0)) = 1.
Proof.
  assert (Hh : hooks (gens world_twice 0) = [7; 7]) by (vm_compute; reflexivity).
  assert (Hplain : only_itself (EXT := toy) 7 (hooks (gens world_twice 0))).
  { rewrite Hh. intros y Hy _. apply list_elem_of_In in Hy. simpl in Hy.
    destruct Hy as [<-|[<-|[]]]; reflexivity. }
  split; [exact Hh|]. split; [exact Hplain|].
  exists (store_of (deregister_hook (EXT := toy) 0 7 false world_twice)).
  assert (Heq : deregister_hook (EXT := toy) 0 7 false world_twice
                = (Ok tt, store_of (deregister_hook (EXT := toy) 0 7 false world_twice), []))
    by (apply store_split; vm_compute; reflexivity).
  split; [exact Heq|].
  destruct (deregister_hook_removes_one_registration (EXT := toy) 0 7 false world_twice
              _ [] Heq) as (Hl & _ & Hc).
  split.
  - rewrite Hl, Hh. reflexivity.
  - rewrite (Hc Hplain 7), Hh. reflexivity.
Defined.

Lemma compile_op_propagates_witness :
  free_of before_op_keywords [("retval", 5)] /\
  failing_op [3] [("retval", 5)] 0 = (Raise (UserError 3), 1, [OpEffect 0]) /\
  compile_op (EXT := toy) 0 "Select" "s0" failing_op [7; 8] [3] [("retval", 5)] 0
  = (Raise (UserError 3), 1,
     [BeforeOp 7 [3] [("retval", 5)] 0 "Select" "s0";
      BeforeOp 8 [3] [("retval", 5)] 0 "Select" "s0"; OpEffect 0]).
Proof.
  assert (Hfree : free_of before_op_keywords [("retval", 5)])
    by (apply free_of_by_evaluation; reflexivity).
  split; [exact Hfree|]. split; [reflexivity|].
  exact (compile_op_propagates_the_operator_exception (EXT := toy) 0 "Select" "s0"
           failing_op [7; 8] [3] [("retval", 5)] 0 (UserError 3) 1 [OpEffect 0]
           Hfree eq_refl).
Defined.

Lemma reconfigured_enumeration_witness :
  it_pc fail_it = PSuspended /\
  mutates (it_self fail_it) (CRegisterHooks (Val := nat) (St := nat) 4 [8] false) /\
  fst (exec (EXT := toy) (CRegisterHooks 4 [8] false) fail_start) = true /\
  fst (fst (fst (generate_next (EXT := toy) 5 fail_it
                   (snd (exec (EXT := toy) (CRegisterHooks 4 [8] false) fail_start)))))
  = Raised (TypeError "'NoneType' object is not callable").
Proof.
  assert (Hok : fst (exec (EXT := toy) (CRegisterHooks 4 [8] false) fail_start) = true)
    by (vm_compute; reflexivity).
  split; [reflexivity|]. split; [reflexivity|]. split; [exact Hok|].
  destruct (reconfigured_enumeration_fails (EXT := toy) 4 fail_it
              (CRegisterHooks 4 [8] false) fail_start eq_refl eq_refl Hok) as [Hfail _].
  rewrite Hfail; [reflexivity|]. vm_compute. reflexivity.
Defined.

Example trace_with_records :
  report (drain (trace_next (EXT := recording) 5) 5 (trace 0 10) world_three)
  = ([710; 711; 712], DStop,
     [HookInit 7 10; HookInit 6 10; StrategyInit 1;
      HookInitRun 7 10; HookInitRun 6 10; StrategyInitRun 1; OpEvent (OpEffect 0);
      StrategyFinishRun 1; HookFinishRun 7; HookFinishRun 6;
      HookInitRun 7 10; HookInitRun 6 10; StrategyInitRun 1; OpEvent (OpEffect 1);
      StrategyFinishRun 1; HookFinishRun 7; HookFinishRun 6;
      HookInitRun 7 10; HookInitRun 6 10; StrategyInitRun 1; OpEvent (OpEffect 2);
      StrategyFinishRun 1; HookFinishRun 7; HookFinishRun 6;
      StrategyFinish 1; HookFinish 7; HookFinish 6]).
Proof. vm_compute. reflexivity. Qed.

Lemma trace_follows_the_enumeration_witness :
  exists wr,
    trace_prologue (Val := nat) 0 world_three = (Ok 6, wr, []) /\
    map fst (drain_log (generate_next (EXT := recording) 5) 5 (generate 0 10) wr)
    = [10; 11; 12] /\
    map (fun x => List.length (snd x))
      (drain_log (generate_next (EXT := recording) 5) 5 (generate 0 10) wr)
    = [7; 7; 7] /\
    fst (fst (fst (fst (drain (trace_next (EXT := recording) 5) 5 (trace 0 10) world_three))))
    = map (traced_value (EXT := recording) 6)
        (drain_log (generate_next (EXT := recording) 5) 5 (generate 0 10) wr) /\
    fst (fst (fst (fst (drain (trace_next (EXT := recording) 5) 5 (trace 0 10) world_three))))
    = [710; 711; 712].
Proof.
  exists (store_of (trace_prologue (Val := nat) 0 world_three)).
  assert (Hpro : trace_prologue (Val := nat) 0 world_three
                 = (Ok 6, store_of (trace_prologue (Val := nat) 0 world_three), []))
    by (apply store_split; vm_compute; reflexivity).
  split; [exact Hpro|].
  split; [vm_compute; reflexivity|]. split; [vm_compute; reflexivity|].
  split; [|vm_compute; reflexivity].
  destruct (drain (generate_next (EXT := recording) 5) 5 (generate 0 10)
              (store_of (trace_prologue (Val := nat) 0 world_three)))
    as [[[[vals ex] it1] w1] evs] eqn:Hd.
  destruct (trace_follows_the_enumeration (EXT := recording) 5 4 0 10 world_three 6 _
              vals ex it1 w1 evs Hpro Hd) as (_ & _ & ex' & tit & w2 & Heq & _).
  rewrite Heq. reflexivity.
Defined.

Lemma get_user_oid_witness :
  get_user_oid (fun _ => "Select(xs, oid='first')") select_call = Ok (Some "first").
Proof.
  exact (proj2 (get_user_oid_first_keyword_decides (fun _ => "Select(xs, oid='first')"))
           (ast_Name "Select") [ast_Name "xs"] []
           (mkKeyword (Some "oid") (ast_Str "first")) []
           (fun k Hin => match not_elem_of_nil k Hin with end) eq_refl).
Defined.

Lemma generator_decorators_witness :
  remove_generator_decorator
    [ast_Name "generator"; ast_Name "staticmethod";
     ast_Call (mkCall (ast_Attribute (ast_Name "atlas") "generator") [] [])]
  = [ast_Name "staticmethod";
     ast_Call (mkCall (ast_Attribute (ast_Name "atlas") "generator") [] [])]
  /\
  ast_Call (mkCall (ast_Attribute (ast_Name "atlas") "generator") [] [])
    ∈ remove_generator_decorator
        [ast_Name "generator"; ast_Name "staticmethod";
         ast_Call (mkCall (ast_Attribute (ast_Name "atlas") "generator") [] [])].
Proof.
  split; [reflexivity|].
  apply (proj1 (proj2 (proj2 (generator_decorators_removed
           [ast_Name "generator"; ast_Name "staticmethod";
            ast_Call (mkCall (ast_Attribute (ast_Name "atlas") "generator") [] [])])))).
  apply list_elem_of_In. simpl. auto.
Defined.

Lemma make_call_witness :
  make_call toy_attributes "Select" "first" = Some 1 /\
  make_call toy_attributes "Select" "second" = Some 0.
Proof.
  split.
  - apply (proj1 (make_call_prefers_the_specific_operator toy_attributes "Select" "first")).
    vm_compute. reflexivity.
  - rewrite (proj1 (proj2 (make_call_prefers_the_specific_operator toy_attributes
                             "Select" "second"))); vm_compute; reflexivity.
Defined.

Lemma graph_with_has_nodes nodes : has_nodes (graph_with nodes).
Proof.
  exists nodes. unfold graph_with. rewrite lookup_singleton.
  rewrite decide_True by reflexivity. reflexivity.
Qed.

Lemma batches_are_cumulative_witness :
  Forall has_nodes [graph_with [1; 2]; graph_with [3]; graph_with [4]] /\
  exists ks,
    batches toy_define_batch [graph_with [1; 2]; graph_with [3]; graph_with [4]] 2%Z true
    = (map (batch_of toy_define_batch
              [graph_with [1; 2]; graph_with [3]; graph_with [4]] true) ks
       ++ [(3, 4)], None).
Proof.
  assert (Hall : Forall has_nodes [graph_with [1; 2]; graph_with [3]; graph_with [4]])
    by (repeat constructor; apply graph_with_has_nodes).
  split; [exact Hall|].
  destruct (batches_are_cumulative toy_define_batch
              [graph_with [1; 2]; graph_with [3]; graph_with [4]] 2%Z true Hall)
    as (ks & Heq & _).
  exists ks. exact Heq.
Defined.

Example batches_of_three_graphs :
  batches toy_define_batch [graph_with [1; 2]; graph_with [3]; graph_with [4]] 2%Z true
  = ([(2, 3); (3, 4)], None).
Proof. vm_compute. reflexivity. Qed.

Example batches_of_a_large_last_graph :
  batches toy_define_batch [graph_with [1]; graph_with [2; 3; 4]] 2%Z true
  = ([(2, 4); (2, 4)], None).
Proof. vm_compute. reflexivity. Qed.

Lemma last_batch_is_yielded_twice_witness :
  Forall has_nodes [graph_with [1]] /\
  graph_with [2; 3; 4] !! "nodes" = Some [2; 3; 4] /\
  (2 < Z.of_nat (List.length [2; 3; 4]))%Z /\
  exists ys,
    batches toy_define_batch ([graph_with [1]] ++ [graph_with [2; 3; 4]]) 2%Z true
    = (ys ++ [(2, 4); (2, 4)], None).
Proof.
  assert (Hall : Forall has_nodes [graph_with [1]])
    by (repeat constructor; apply graph_with_has_nodes).
  assert (Hg : graph_with [2; 3; 4] !! "nodes" = Some [2; 3; 4])
    by (vm_compute; reflexivity).
  assert (Hlt : (2 < Z.of_nat (List.length [2; 3; 4]))%Z) by (simpl; lia).
  split; [exact Hall|]. split; [exact Hg|]. split; [exact Hlt|].
  destruct (last_batch_is_yielded_twice toy_define_batch [graph_with [1]]
              (graph_with [2; 3; 4]) [2; 3; 4] 2%Z true Hall Hg Hlt) as (ys & Heq).
  exists ys. exact Heq.
Defined.

Lemma graph_without_nodes_witness :
  Forall has_nodes [graph_with [1; 2; 3]] /\
  graph_without !! "nodes" = None /\
  exists ks,
    batches toy_define_batch ([graph_with [1; 2; 3]] ++ graph_without :: [graph_with [4]])
      2%Z true
    = (map (batch_of toy_define_batch [graph_with [1; 2; 3]] true) ks,
       Some (KeyError "nodes")).
Proof.
  assert (Hall : Forall has_nodes [graph_with [1; 2; 3]])
    by (repeat constructor; apply graph_with_has_nodes).
  assert (Hg : graph_without !! "nodes" = None) by (vm_compute; reflexivity).
  split; [exact Hall|]. split; [exact Hg|].
  destruct (graph_without_nodes_ends_the_batches toy_define_batch [graph_with [1; 2; 3]]
              [graph_with [4]] graph_without 2%Z true Hall Hg) as (ks & Heq & _).
  exists ks. exact Heq.
Defined.

Lemma of_list_has_nodes (l : list (gmap string (list nat))) k :
  Forall has_nodes l -> Forall has_nodes (of_list l k).
Proof. intros H. exact H. Qed.

Lemma one_shot_has_nodes (l : list (gmap string (list nat))) k :
  Forall has_nodes l -> Forall has_nodes (one_shot l k).
Proof. intros H. destruct k; [exact H | constructor]. Qed.

Example train_on_an_iterator :
  train toy_define_batch (fun name => name) toy_sess_run 0 Nat.add Nat.mul Nat.div
    toy_params (one_shot [graph_with [1; 2]]) (of_list [graph_with [1; 2]]) 3%Z 0
  = (ZeroDivisionError "division by zero", 2,
     [Printed "[Training] Loss : {:.4f} Accuracy : {:.4f}" 2 3
        (String (Ascii.ascii_of_nat 13) EmptyString);
      Printed "[Training] Loss : {:.4f} Accuracy : {:.4f}" 2 3
        (String (Ascii.ascii_of_nat 10) EmptyString);
      Printed "[Validation] Loss : {:.4f} Accuracy : {:.4f}" 2 2
        (String (Ascii.ascii_of_nat 13) EmptyString);
      Printed "[Validation] Loss : {:.4f} Accuracy : {:.4f}" 2 2
        (String (Ascii.ascii_of_nat 10) EmptyString)]).
Proof. vm_compute. reflexivity. Qed.

Lemma train_needs_a_batch_witness :
  toy_params !! "batch_size" = Some 2%Z /\
  Forall has_nodes [graph_with [1; 2]] /\
  train toy_define_batch (fun name => name) toy_sess_run 0 Nat.add Nat.mul Nat.div
    toy_params (of_list []) (of_list [graph_with [1; 2]]) 3%Z 0
  = (ZeroDivisionError "division by zero", 0, []) /\
  (exists sess out,
     train toy_define_batch (fun name => name) toy_sess_run 0 Nat.add Nat.mul Nat.div
       toy_params (of_list [graph_with [1; 2]]) (of_list [graph_with [1; 2]]) 3%Z 0
     = (Trained, sess, out)) /\
  (exists sess out,
     train toy_define_batch (fun name => name) toy_sess_run 0 Nat.add Nat.mul Nat.div
       toy_params (one_shot [graph_with [1; 2]]) (of_list [graph_with [1; 2]]) 3%Z 0
     = (ZeroDivisionError "division by zero", sess, out)).
Proof.
  assert (Hp : toy_params !! "batch_size" = Some 2%Z) by (vm_compute; reflexivity).
  assert (Hall : Forall has_nodes [graph_with [1; 2]])
    by (repeat constructor; apply graph_with_has_nodes).
  split; [exact Hp|]. split; [exact Hall|]. split; [|split].
  - apply (train_needs_a_batch toy_define_batch (fun name => name) toy_sess_run
             0 Nat.add Nat.mul Nat.div toy_params (of_list []) (of_list [graph_with [1; 2]])
             3%Z 0 2%Z Hp (fun k => Forall_nil_2 _) (fun k => of_list_has_nodes _ k Hall));
      [lia | reflexivity].
  - apply (train_needs_a_batch toy_define_batch (fun name => name) toy_sess_run
             0 Nat.add Nat.mul Nat.div toy_params (of_list [graph_with [1; 2]])
             (of_list [graph_with [1; 2]]) 3%Z 0 2%Z Hp
             (fun k => of_list_has_nodes _ k Hall) (fun k => of_list_has_nodes _ k Hall)).
    intros k _. split; discriminate.
  - apply (proj2 (proj2 (proj2
             (train_needs_a_batch toy_define_batch (fun name => name) toy_sess_run
                0 Nat.add Nat.mul Nat.div toy_params (one_shot [graph_with [1; 2]])
                (of_list [graph_with [1; 2]]) 3%Z 0 2%Z Hp
                (fun k => one_shot_has_nodes _ k Hall)
                (fun k => of_list_has_nodes _ k Hall)))) 1).
    + lia.
    + intros j Hj. assert (j = 0) as -> by lia. split; discriminate.
    + left. reflexivity.
Defined.

Lemma batch_sizes_witness :
  Forall has_nodes [graph_with [1; 2]; graph_with [3]; graph_with [4]] /\
  List.length [graph_with [1; 2]; graph_with [3]; graph_with [4]]
  + List.length (fst (batches toy_define_batch
                        [graph_with [1; 2]; graph_with [3]; graph_with [4]] 2%Z true))
  <= sum_list (map fst (fst (batches toy_define_batch
                               [graph_with [1; 2]; graph_with [3]; graph_with [4]]
                               2%Z true))) + 1.
Proof.
  assert (Hall : Forall has_nodes [graph_with [1; 2]; graph_with [3]; graph_with [4]])
    by (repeat constructor; apply graph_with_has_nodes).
  split; [exact Hall|].
  exact (batch_sizes_count_graphs_again toy_define_batch
           [graph_with [1; 2]; graph_with [3]; graph_with [4]] 2%Z true Hall).
Defined.
